(** * The execution core of the bytecode interpreter (src/run.cpp)

    A shallow embedding of the interpreter's frame manager, constant-pool
    resolver, exception unwinder and of the opcode handlers whose behaviour
    the specification pins down, followed by the theorems that relate the
    specification's sentences to the code.

    Conventions.
    - An [object] is a heap handle, [0] being the null reference.
    - The object-model accessors of the source ([classSuper(t, c)],
      [methodFlags(t, m)], ...) are fields-as-functions: one function per
      accessor, indexed by the handle.  Accessors the interpreter only reads
      live in [ObjectModel]; the ones it writes live in [Heap].
    - Fixed-width C++ integers are [Z] with the conversion written out
      ([Int.u32], [Int.s16], ...). *)

From Stdlib Require Import ZArith List Bool Lia.
Import ListNotations.
Open Scope Z_scope.

(** ** Fixed-width integers *)

Module Int.

(** Conversion to an unsigned integer of [w] bits. *)
Definition unsigned (w x : Z) : Z := x mod 2 ^ w.

(** Conversion to a two's-complement integer of [w] bits. *)
Definition signed (w x : Z) : Z :=
  let u := x mod 2 ^ w in
  if u <? 2 ^ (w - 1) then u else u - 2 ^ w.

Definition u8 := unsigned 8.
Definition u16 := unsigned 16.
Definition u32 := unsigned 32.
Definition u64 := unsigned 64.
Definition s8 := signed 8.
Definition s16 := signed 16.
Definition s32 := signed 32.
Definition s64 := signed 64.

End Int.

(** ** Heap handles, constants and the object model *)

Definition object := Z.

(** Control transfers of [run]: the labels a handler jumps to. *)
Inductive Next : Type :=
| Loop                      (* goto loop *)
| Invoke                    (* goto invoke *)
| Throw                     (* goto throw_ *)
| Return (result : object)  (* return result *)
| Abort.                    (* abort(t) *)

(** Constants of the headers (machine.h, constants.h) that run.cpp uses but
    does not define.  They are parameters of the development. *)
Record Constants : Type := mkConstants {
  FrameBaseOffset : Z;
  FrameNextOffset : Z;
  FrameMethodOffset : Z;
  FrameIpOffset : Z;
  FrameFootprint : Z;
  IntTag : Z;
  ObjectTag : Z;
  ACC_STATIC : Z;
  ACC_SYNCHRONIZED : Z;
  ACC_NATIVE : Z;
  ACC_INTERFACE : Z;
  ByteArrayType : Z;       (* Machine::ByteArrayType, an index into vm->types *)
  ReferenceType : Z;       (* Machine::ReferenceType *)
  ByteField : Z;
  BooleanField : Z;
  CharField : Z;
  ShortField : Z;
  FloatField : Z;
  IntField : Z;
  DoubleField : Z;
  LongField : Z;
  ObjectField : Z
}.

(** The four frame words lie inside the frame record and do not overlap. *)
Definition frameLayoutOk (K : Constants) : Prop :=
  0 <= FrameBaseOffset K < FrameFootprint K /\
  0 <= FrameNextOffset K < FrameFootprint K /\
  0 <= FrameMethodOffset K < FrameFootprint K /\
  0 <= FrameIpOffset K < FrameFootprint K /\
  FrameBaseOffset K <> FrameNextOffset K /\
  FrameBaseOffset K <> FrameMethodOffset K /\
  FrameBaseOffset K <> FrameIpOffset K /\
  FrameNextOffset K <> FrameMethodOffset K /\
  FrameNextOffset K <> FrameIpOffset K /\
  FrameMethodOffset K <> FrameIpOffset K.

(** Accessors the interpreter only reads, and the external collaborators it
    calls (class finder, error constructors, boxing). *)
Record ObjectModel : Type := mkObjectModel {
  objectClass : object -> object;
  types : object;                                  (* t->vm->types *)
  arrayLength : object -> Z;
  byteArrayBody : object -> list Z;
  (* classes *)
  classFlags : object -> Z;
  classSuper : object -> object;
  classInterfaceTable : object -> object;
  classFieldTable : object -> object;
  classMethodTable : object -> object;
  classStaticTable : object -> object;
  (* fields *)
  fieldClass : object -> object;
  fieldName : object -> object;
  fieldSpec : object -> object;
  fieldCode : object -> Z;
  fieldOffset : object -> Z;
  (* methods *)
  methodFlags : object -> Z;
  methodClass : object -> object;
  methodCode : object -> object;
  methodName : object -> object;
  methodSpec : object -> object;
  methodParameterFootprint : object -> Z;
  (* code *)
  codeBody : object -> Z -> Z;
  codeMaxLocals : object -> Z;
  codePool : object -> object;
  codeExceptionHandlerTable : object -> object;
  exceptionHandlerTableLength : object -> Z;
  exceptionHandlerStart : object -> Z -> Z;
  exceptionHandlerEnd : object -> Z -> Z;
  exceptionHandlerIp : object -> Z -> Z;
  exceptionHandlerCatchType : object -> Z -> Z;
  (* symbolic references *)
  referenceName : object -> object;
  referenceSpec : object -> object;
  (* boxes *)
  intValue : object -> Z;
  longValue : object -> Z;
  makeInt : Z -> object;
  makeLong : Z -> object;
  (* the class finder behind resolveClass(t, spec): it yields a class and
     leaves the thread alone, or it fails, leaving its error pending and
     yielding null *)
  classFinder : object -> object + object;
  makeNoSuchFieldError : object -> object;
  makeNoSuchMethodError : object -> object;
  makeClassCastException : object -> object -> object
}.

(** Accessors the interpreter writes through [set(t, ...)], and the monitor
    subsystem's ownership counts. *)
Record Heap : Type := mkHeap {
  arrayBody : object -> Z -> object;
  classInitializer : object -> object;
  referenceClass : object -> object;
  monitorCount : object -> Z
}.

Definition setArrayBody (h : Heap) (a : object) (i : Z) (v : object) : Heap :=
  mkHeap (fun a' i' => if (a' =? a) && (i' =? i) then v else arrayBody h a' i')
         (classInitializer h) (referenceClass h) (monitorCount h).

Definition setClassInitializer (h : Heap) (c : object) (v : object) : Heap :=
  mkHeap (arrayBody h)
         (fun c' => if c' =? c then v else classInitializer h c')
         (referenceClass h) (monitorCount h).

Definition setReferenceClass (h : Heap) (r : object) (v : object) : Heap :=
  mkHeap (arrayBody h) (classInitializer h)
         (fun r' => if r' =? r then v else referenceClass h r')
         (monitorCount h).

Definition setMonitorCount (h : Heap) (o : object) (n : Z) : Heap :=
  mkHeap (arrayBody h) (classInitializer h) (referenceClass h)
         (fun o' => if o' =? o then n else monitorCount h o').

(** ** Thread state *)

Record Thread : Type := mkThread {
  stack : Z -> Z;       (* uintptr_t stack[StackSizeInWords], by word index *)
  sp : Z;               (* unsigned *)
  frame : Z;            (* int, -1 when there is no frame *)
  ip : Z;               (* unsigned *)
  code : object;
  exception : object;
  vm : Heap
}.

Definition set_stack (t : Thread) (s : Z -> Z) : Thread :=
  mkThread s (sp t) (frame t) (ip t) (code t) (exception t) (vm t).
Definition set_sp (t : Thread) (v : Z) : Thread :=
  mkThread (stack t) v (frame t) (ip t) (code t) (exception t) (vm t).
Definition set_frame (t : Thread) (v : Z) : Thread :=
  mkThread (stack t) (sp t) v (ip t) (code t) (exception t) (vm t).
Definition set_ip (t : Thread) (v : Z) : Thread :=
  mkThread (stack t) (sp t) (frame t) v (code t) (exception t) (vm t).
Definition set_code (t : Thread) (v : object) : Thread :=
  mkThread (stack t) (sp t) (frame t) (ip t) v (exception t) (vm t).
Definition set_exception (t : Thread) (v : object) : Thread :=
  mkThread (stack t) (sp t) (frame t) (ip t) (code t) v (vm t).
Definition set_vm (t : Thread) (h : Heap) : Thread :=
  mkThread (stack t) (sp t) (frame t) (ip t) (code t) (exception t) h.

(** Store of one word. *)
Definition poke (s : Z -> Z) (i v : Z) : Z -> Z :=
  fun j => if j =? i then v else s j.

(** [memset(stack + start, 0, n words)]. *)
Definition memsetZero (s : Z -> Z) (start n : Z) : Z -> Z :=
  fun j => if (start <=? j) && (j <? start + n) then 0 else s j.

Section Interpreter.

Variable K : Constants.
Variable M : ObjectModel.

(** *** Operand stack and locals (machine.h) *)

(** Modelled from the spec: [pushInt] of machine.h, which is not among the
    sources.  Each logical slot is two words, the tag at [2 * slot] and the
    value at [2 * slot + 1]; an int is one slot holding a 32-bit value. *)
Definition pushInt (t : Thread) (v : Z) : Thread :=
  let s := poke (poke (stack t) (sp t * 2) (IntTag K))
                (sp t * 2 + 1) (Int.u32 v) in
  set_sp (set_stack t s) (Int.u32 (sp t + 1)).

(** Modelled from the spec: [popInt] of machine.h; the result is the
    [uint32_t] held by the popped slot (the comparisons of [run] cast it,
    [static_cast<int32_t>(popInt(t)) > 0]). *)
Definition popInt (t : Thread) : Z * Thread :=
  let sp' := Int.u32 (sp t - 1) in
  (Int.u32 (stack t (sp' * 2 + 1)), set_sp t sp').

(** Modelled from the spec: [pushObject] of machine.h, one tagged slot
    holding a reference. *)
Definition pushObject (t : Thread) (o : object) : Thread :=
  let s := poke (poke (stack t) (sp t * 2) (ObjectTag K))
                (sp t * 2 + 1) o in
  set_sp (set_stack t s) (Int.u32 (sp t + 1)).

(** Modelled from the spec: [popObject] of machine.h, the inverse of
    [pushObject]. *)
Definition popObject (t : Thread) : object * Thread :=
  let sp' := Int.u32 (sp t - 1) in
  (stack t (sp' * 2 + 1), set_sp t sp').

(** Modelled from the spec: [pushLong] of machine.h, a 64-bit value as two
    int slots, most significant half first. *)
Definition pushLong (t : Thread) (v : Z) : Thread :=
  let v := Int.u64 v in
  pushInt (pushInt t (Z.shiftr v 32)) (Z.land v 4294967295).

(** Modelled from the spec: [popLong] of machine.h, the inverse of
    [pushLong]. *)
Definition popLong (t : Thread) : Z * Thread :=
  let '(b, t1) := popInt t in
  let '(a, t2) := popInt t1 in
  (Z.lor (Z.shiftl a 32) b, t2).

(** Modelled from the spec: [peekInt] of machine.h, the int held by the
    slot at index [i]. *)
Definition peekInt (t : Thread) (i : Z) : Z := Int.u32 (stack t (i * 2 + 1)).

(** Modelled from the spec: [peekObject] of machine.h, the reference held
    by the slot at index [i]. *)
Definition peekObject (t : Thread) (i : Z) : object := stack t (i * 2 + 1).

(** Modelled from the spec: [pokeInt] of machine.h, a tagged int written
    to the slot at index [i]. *)
Definition pokeInt (t : Thread) (i v : Z) : Thread :=
  set_stack t (poke (poke (stack t) (i * 2) (IntTag K))
                    (i * 2 + 1) (Int.u32 v)).

(** Modelled from the spec: [pokeObject] of machine.h, a tagged reference
    written to the slot at index [i]. *)
Definition pokeObject (t : Thread) (i : Z) (o : object) : Thread :=
  set_stack t (poke (poke (stack t) (i * 2) (ObjectTag K)) (i * 2 + 1) o).

(** Modelled from the spec: [frameIp] of machine.h, the saved ip of the
    frame record at index [f]. *)
Definition frameIp (t : Thread) (f : Z) : Z := peekInt t (f + FrameIpOffset K).

(** Modelled from the spec: [frameNext] of machine.h, the previous frame
    index, -1 when there is none. *)
Definition frameNext (t : Thread) (f : Z) : Z :=
  Int.s32 (peekInt t (f + FrameNextOffset K)).

(** Modelled from the spec: [frameBase] of machine.h, the slot where the
    frame's parameters and locals start. *)
Definition frameBase (t : Thread) (f : Z) : Z :=
  peekInt t (f + FrameBaseOffset K).

(** Modelled from the spec: [frameMethod] of machine.h, the method owning
    the frame. *)
Definition frameMethod (t : Thread) (f : Z) : object :=
  peekObject t (f + FrameMethodOffset K).

(** Modelled from the spec: [localInt] of machine.h, a local read relative
    to the current frame's base. *)
Definition localInt (t : Thread) (i : Z) : Z :=
  peekInt t (frameBase t (frame t) + i).

(** Modelled from the spec: [setLocalInt] of machine.h, a local written
    relative to the current frame's base. *)
Definition setLocalInt (t : Thread) (i v : Z) : Thread :=
  pokeInt t (frameBase t (frame t) + i) v.

(** Modelled from the spec: [acquire] of the monitor subsystem, which is
    external, as one more recursive ownership of [o]. *)
Definition acquire (t : Thread) (o : object) : Thread :=
  set_vm t (setMonitorCount (vm t) o (monitorCount (vm t) o + 1)).

(** Modelled from the spec: [release] of the monitor subsystem, as one
    ownership of [o] less. *)
Definition release (t : Thread) (o : object) : Thread :=
  set_vm t (setMonitorCount (vm t) o (monitorCount (vm t) o - 1)).

(** [codeBody(t, code, ip++)]: the byte at [ip], an unsigned 8-bit value
    (opcodes above 127 are dispatched on it), and the thread with [ip]
    advanced. *)
Definition fetch (t : Thread) : Z * Thread :=
  (Int.u8 (codeBody M (code t) (ip t)), set_ip t (Int.u32 (ip t + 1))).

Definition flagSet (flags mask : Z) : bool := negb (Z.land flags mask =? 0).

(** *** Opcode handlers of [run], entered after the opcode byte was fetched *)

(** case bipush *)
Definition bipush (t : Thread) : Thread * Next :=
  let '(b, t1) := fetch t in
  (pushInt t1 b, Loop).

(** case sipush *)
Definition sipush (t : Thread) : Thread * Next :=
  let '(byte1, t1) := fetch t in
  let '(byte2, t2) := fetch t1 in
  (pushInt t2 (Z.lor (Z.shiftl byte1 8) byte2), Loop).

(** case iushr.  [a >> b] on [int32_t a] is the arithmetic shift; the
    conversion to [uint32_t] is applied to its result.  A count outside
    [0, 32) is undefined in C++; the model takes the count as it is. *)
Definition iushr (t : Thread) : Thread * Next :=
  let '(b0, t1) := popInt t in
  let b := Int.s32 b0 in
  let '(a0, t2) := popInt t1 in
  let a := Int.s32 a0 in
  (pushInt t2 (Int.u32 (Z.shiftr a b)), Loop).

(** case goto_w *)
Definition goto_w (t : Thread) : Thread * Next :=
  let '(offset1, t1) := fetch t in
  let '(offset2, t2) := fetch t1 in
  let '(offset3, t3) := fetch t2 in
  let '(offset4, t4) := fetch t3 in
  let offset :=
    Int.s32 (Z.lor (Z.lor (Z.lor (Z.shiftl offset1 24) (Z.shiftl offset2 16))
                          (Z.shiftl offset3 8)) offset4) in
  (set_ip t4 (Int.u32 ((ip t4 - 5) + offset)), Loop).

(** case jsr_w *)
Definition jsr_w (t : Thread) : Thread * Next :=
  let '(offset1, t1) := fetch t in
  let '(offset2, t2) := fetch t1 in
  let '(offset3, t3) := fetch t2 in
  let '(offset4, t4) := fetch t3 in
  let t5 := pushInt t4 (ip t4) in
  let offset :=
    Int.s32 (Z.lor (Z.lor (Z.lor (Z.shiftl offset1 24) (Z.shiftl offset2 16))
                          (Z.shiftl offset3 8)) offset4) in
  (set_ip t5 (Int.u32 ((ip t5 - 3) + offset)), Loop).

(** case iinc, for comparison with the wide form: [int8_t c]. *)
Definition iinc (t : Thread) : Thread * Next :=
  let '(index, t1) := fetch t in
  let '(c0, t2) := fetch t1 in
  let c := Int.s8 c0 in
  (setLocalInt t2 index (localInt t2 index + c), Loop).

(** wide: case iinc, entered after the [iinc] byte that follows [wide]. *)
Definition wide_iinc (t : Thread) : Thread * Next :=
  let '(index1, t1) := fetch t in
  let '(index2, t2) := fetch t1 in
  let index := Int.u16 (Z.lor (Z.shiftl index1 8) index2) in
  let '(count1, t3) := fetch t2 in
  let '(count2, t4) := fetch t3 in
  let count := Int.u16 (Z.lor (Z.shiftl count1 8) count2) in
  (setLocalInt t4 index (localInt t4 index + count), Loop).

(** case lneg.  [popInt] yields a [uint32_t]; its negation is taken at 32
    bits and then widened to the [uint64_t] that [pushLong] takes. *)
Definition lneg (t : Thread) : Thread * Next :=
  let '(v, t1) := popInt t in
  (pushLong t1 (Int.u32 (- v)), Loop).


(** *** Type test and dispatch helpers *)

(** The inner loop of [instanceOf]:
    [for (i = 0; i < arrayLength(itable); i += 2)], with [n] bounding the
    number of iterations. *)
Fixpoint scanInterfaceTable (n : nat) (h : Heap) (itable : object) (i : Z)
         (class_ : object) : bool :=
  match n with
  | O => false
  | S n' =>
    if i <? arrayLength M itable then
      if arrayBody h itable i =? class_ then true
      else scanInterfaceTable n' h itable (i + 2) class_
    else false
  end.

(** The walk [for (oc = ...; oc; oc = classSuper(t, oc))] of the interface
    branch.  The walk need not end on a cyclic hierarchy: [None] is the
    exhausted fuel. *)
Fixpoint instanceOfInterface (fuel : nat) (h : Heap) (oc class_ : object)
  : option bool :=
  match fuel with
  | O => None
  | S k =>
    if oc =? 0 then Some false
    else
      let itable := classInterfaceTable M oc in
      if scanInterfaceTable (Z.to_nat (arrayLength M itable)) h itable 0 class_
      then Some true
      else instanceOfInterface k h (classSuper M oc) class_
  end.

(** The same walk of the class branch. *)
Fixpoint instanceOfClass (fuel : nat) (oc class_ : object) : option bool :=
  match fuel with
  | O => None
  | S k =>
    if oc =? 0 then Some false
    else if oc =? class_ then Some true
    else instanceOfClass k (classSuper M oc) class_
  end.

Definition instanceOf (fuel : nat) (h : Heap) (class_ o : object)
  : option bool :=
  if o =? 0 then Some false
  else if flagSet (classFlags M class_) (ACC_INTERFACE K)
       then instanceOfInterface fuel h (objectClass M o) class_
       else instanceOfClass fuel (objectClass M o) class_.

(** [strcmp(a, b) == 0] on the bodies of two byte arrays; the end of a
    body reads as the terminator. *)
Fixpoint strcmp_eq (a b : list Z) : bool :=
  match a, b with
  | [], [] => true
  | [], y :: _ => y =? 0
  | x :: _, [] => x =? 0
  | x :: a', y :: b' =>
    if x =? 0 then y =? 0 else (x =? y) && strcmp_eq a' b'
  end.

(** The loop of [find], from index [i], [n] bounding the iterations. *)
Fixpoint findFrom (n : nat) (h : Heap) (table : object) (i : Z)
         (nm sp_ : object) (name spec : object -> object) : object :=
  match n with
  | O => 0
  | S n' =>
    if i <? arrayLength M table then
      let o := arrayBody h table i in
      if strcmp_eq (byteArrayBody M (name o)) (byteArrayBody M nm)
         && strcmp_eq (byteArrayBody M (spec o)) (byteArrayBody M sp_)
      then o
      else findFrom n' h table (i + 1) nm sp_ name spec
    else 0
  end.

Definition find (h : Heap) (table reference : object)
           (name spec : object -> object) : object :=
  let n := referenceName M reference in
  let s := referenceSpec M reference in
  findFrom (Z.to_nat (arrayLength M table)) h table 0 n s name spec.

Definition findFieldInClass (h : Heap) (class_ reference : object) : object :=
  find h (classFieldTable M class_) reference (fieldName M) (fieldSpec M).

Definition findMethodInClass (h : Heap) (class_ reference : object) : object :=
  find h (classMethodTable M class_) reference (methodName M) (methodSpec M).

(** *** Constant-pool resolver *)

(** Modelled from the spec: [resolveClass(t, spec)] of machine.h, which
    asks the class finder for the class named by a byte array. *)
Definition resolveClass_spec (t : Thread) (spec : object) : object * Thread :=
  match classFinder M spec with
  | inl c => (c, t)
  | inr e => (0, set_exception t e)
  end.

(** [resolveClass(t, pool, index)] *)
Definition resolveClass (t : Thread) (pool : object) (index : Z)
  : object * Thread :=
  let o := arrayBody (vm t) pool index in
  if objectClass M o =? arrayBody (vm t) (types M) (ByteArrayType K) then
    let '(o', t1) := resolveClass_spec t o in
    if negb (exception t1 =? 0) then (0, t1)
    else (o', set_vm t1 (setArrayBody (vm t1) pool index o'))
  else (o, t).

(** [resolveClass(t, container, class_)] at its one use,
    [class_ = referenceClass]. *)
Definition resolveClass_container (t : Thread) (container : object)
  : object * Thread :=
  let o := referenceClass (vm t) container in
  if objectClass M o =? arrayBody (vm t) (types M) (ByteArrayType K) then
    let '(o', t1) := resolveClass_spec t o in
    if negb (exception t1 =? 0) then (0, t1)
    else (o', set_vm t1 (setReferenceClass (vm t1) container o'))
  else (o, t).

(** The loop of [resolve]:
    [for (o = 0; o == 0 and class_; class_ = classSuper(t, class_))]. *)
Fixpoint resolveSearch (fuel : nat) (h : Heap)
         (find_ : Heap -> object -> object -> object)
         (class_ reference : object) : option object :=
  match fuel with
  | O => None
  | S k =>
    if class_ =? 0 then Some 0
    else
      let o := find_ h class_ reference in
      if o =? 0 then resolveSearch k h find_ (classSuper M class_) reference
      else Some o
  end.

(** [resolve(t, pool, index, find, makeError)].  The error message is
    built from the reference, so [makeError] takes the reference. *)
Definition resolve (fuel : nat) (t : Thread) (pool : object) (index : Z)
           (find_ : Heap -> object -> object -> object)
           (makeError : object -> object) : option (object * Thread) :=
  let o := arrayBody (vm t) pool index in
  if objectClass M o =? arrayBody (vm t) (types M) (ReferenceType K) then
    let reference := o in
    let '(class_, t1) := resolveClass_container t o in
    if negb (exception t1 =? 0) then Some (0, t1)
    else
      match resolveSearch fuel (vm t1) find_ class_
                          (arrayBody (vm t1) pool index) with
      | None => None
      | Some o' =>
        let t2 := if o' =? 0 then set_exception t1 (makeError reference)
                  else t1 in
        Some (o', set_vm t2 (setArrayBody (vm t2) pool index o'))
      end
  else Some (o, t).

Definition resolveField (fuel : nat) (t : Thread) (pool : object) (index : Z)
  : option (object * Thread) :=
  resolve fuel t pool index findFieldInClass (makeNoSuchFieldError M).

Definition resolveMethod (fuel : nat) (t : Thread) (pool : object) (index : Z)
  : option (object * Thread) :=
  resolve fuel t pool index findMethodInClass (makeNoSuchMethodError M).

(** *** Handlers that resolve constant-pool entries *)

(** case checkcast *)
Definition checkcast (fuel : nat) (t : Thread) : option (Thread * Next) :=
  let '(index1, t1) := fetch t in
  let '(index2, t2) := fetch t1 in
  if negb (peekObject t2 (Int.u32 (sp t2 - 1)) =? 0) then
    let index := Int.u16 (Z.lor (Z.shiftl index1 8) index2) in
    let '(class_, t3) :=
      resolveClass t2 (codePool M (code t2)) (Int.u32 (index - 1)) in
    if negb (exception t3 =? 0) then Some (t3, Throw)
    else
      let o := peekObject t3 (Int.u32 (sp t3 - 1)) in
      match instanceOf fuel (vm t3) class_ o with
      | None => None
      | Some true => Some (t3, Loop)
      | Some false =>
        Some (set_exception t3
                (makeClassCastException M (objectClass M o) class_), Throw)
      end
  else Some (t2, Loop).

(** case instanceof *)
Definition instanceof (fuel : nat) (t : Thread) : option (Thread * Next) :=
  let '(index1, t1) := fetch t in
  let '(index2, t2) := fetch t1 in
  if negb (peekObject t2 (Int.u32 (sp t2 - 1)) =? 0) then
    let index := Int.u16 (Z.lor (Z.shiftl index1 8) index2) in
    let '(class_, t3) :=
      resolveClass t2 (codePool M (code t2)) (Int.u32 (index - 1)) in
    if negb (exception t3 =? 0) then Some (t3, Throw)
    else
      match instanceOf fuel (vm t3) class_
                       (peekObject t3 (Int.u32 (sp t3 - 1))) with
      | None => None
      | Some true => Some (pushInt t3 1, Loop)
      | Some false => Some (pushInt t3 0, Loop)
      end
  else Some (pushInt t2 0, Loop).

(** The three groups of the switches on [fieldCode]. *)
Definition isIntField (c : Z) : bool :=
  (c =? ByteField K) || (c =? BooleanField K) || (c =? CharField K)
  || (c =? ShortField K) || (c =? FloatField K) || (c =? IntField K).
Definition isLongField (c : Z) : bool :=
  (c =? DoubleField K) || (c =? LongField K).

(** The class-initialization step shared by getstatic and putstatic, on
    the class [k] of the resolved field. *)
Definition enterInitializer (t : Thread) (k clinit : object) : Thread :=
  let t1 := set_vm t (setClassInitializer (vm t) k 0) in
  let t2 := set_code t1 clinit in
  set_ip t2 (Int.u32 (ip t2 - 3)).

(** case getstatic *)
Definition getstatic (fuel : nat) (t : Thread) : option (Thread * Next) :=
  let '(index1, t1) := fetch t in
  let '(index2, t2) := fetch t1 in
  let index := Int.u16 (Z.lor (Z.shiftl index1 8) index2) in
  match resolveField fuel t2 (codePool M (code t2)) (Int.u32 (index - 1)) with
  | None => None
  | Some (field, t3) =>
    if negb (exception t3 =? 0) then Some (t3, Throw)
    else
      let clinit := classInitializer (vm t3) (fieldClass M field) in
      if negb (clinit =? 0) then
        Some (enterInitializer t3 (fieldClass M field) clinit, Invoke)
      else
        let v := arrayBody (vm t3) (classStaticTable M (fieldClass M field))
                           (fieldOffset M field) in
        let c := fieldCode M field in
        if isIntField c then Some (pushInt t3 (intValue M v), Loop)
        else if isLongField c then Some (pushLong t3 (longValue M v), Loop)
        else if c =? ObjectField K then Some (pushObject t3 v, Loop)
        else Some (t3, Abort)
  end.

(** case putstatic *)
Definition putstatic (fuel : nat) (t : Thread) : option (Thread * Next) :=
  let '(index1, t1) := fetch t in
  let '(index2, t2) := fetch t1 in
  let index := Int.u16 (Z.lor (Z.shiftl index1 8) index2) in
  match resolveField fuel t2 (codePool M (code t2)) (Int.u32 (index - 1)) with
  | None => None
  | Some (field, t3) =>
    if negb (exception t3 =? 0) then Some (t3, Throw)
    else
      let clinit := classInitializer (vm t3) (fieldClass M field) in
      if negb (clinit =? 0) then
        Some (enterInitializer t3 (fieldClass M field) clinit, Invoke)
      else
        let c := fieldCode M field in
        let store (v : object) (t' : Thread) : Thread :=
          set_vm t' (setArrayBody (vm t')
                       (classStaticTable M (fieldClass M field))
                       (fieldOffset M field) v) in
        if isIntField c then
          let '(x, t4) := popInt t3 in Some (store (makeInt M x) t4, Loop)
        else if isLongField c then
          let '(x, t4) := popLong t3 in Some (store (makeLong M x) t4, Loop)
        else if c =? ObjectField K then
          let '(x, t4) := popObject t3 in Some (store x t4, Loop)
        else Some (t3, Abort)
  end.

(** *** Frame manager *)

(** The monitor a synchronized method locks, with [base] the frame's
    first local. *)
Definition methodMonitor (t : Thread) (method : object) (base : Z) : object :=
  if flagSet (methodFlags M method) (ACC_STATIC K)
  then methodClass M method
  else peekObject t base.

(** [pushFrame(t, method)] *)
Definition pushFrame (t : Thread) (method : object) : Thread :=
  let t1 := if frame t >=? 0
            then pokeInt t (frame t + FrameIpOffset K) (ip t) else t in
  let t2 := set_ip t1 0 in
  let parameterFootprint := Int.u32 (methodParameterFootprint M method) in
  let base := Int.u32 (sp t2 - parameterFootprint) in
  let '(locals, t3) :=
    if negb (flagSet (methodFlags M method) (ACC_NATIVE K)) then
      let t' := set_code t2 (methodCode M method) in
      let locals := Int.u32 (codeMaxLocals M (code t')) in
      (locals,
       set_stack t' (memsetZero (stack t') ((base + parameterFootprint) * 2)
                                (Int.u32 (locals - parameterFootprint) * 2)))
    else (parameterFootprint, t2) in
  let frame_ := Int.u32 (base + locals) in
  let t4 := pokeInt t3 (frame_ + FrameNextOffset K) (frame t3) in
  let t5 := set_frame t4 (Int.s32 frame_) in
  let t6 := set_sp t5 (Int.u32 (frame_ + FrameFootprint K)) in
  let t7 := pokeInt t6 (frame_ + FrameBaseOffset K) base in
  let t8 := pokeObject t7 (frame_ + FrameMethodOffset K) method in
  let t9 := pokeInt t8 (frame t8 + FrameIpOffset K) 0 in
  if flagSet (methodFlags M method) (ACC_SYNCHRONIZED K)
  then acquire t9 (methodMonitor t9 method base)
  else t9.

(** [popFrame(t)] *)
Definition popFrame (t : Thread) : Thread :=
  let method := frameMethod t (frame t) in
  let t1 := if flagSet (methodFlags M method) (ACC_SYNCHRONIZED K)
            then release t (methodMonitor t method (frameBase t (frame t)))
            else t in
  let t2 := set_sp t1 (frameBase t1 (frame t1)) in
  let t3 := set_frame t2 (frameNext t2 (frame t2)) in
  if frame t3 >=? 0 then
    let t4 := set_code t3 (methodCode M (frameMethod t3 (frame t3))) in
    set_ip t4 (frameIp t4 (frame t4))
  else set_ip (set_code t3 0) 0.

(** *** Exception unwinder: the [throw_] label of [run] *)

(** The range test of one handler entry, on the frame's saved ip. *)
Definition handlerCovers (t : Thread) (f : Z) (eht : object) (i : Z) : bool :=
  let pc := Int.u32 (frameIp t f - 1) in
  (Int.u16 (exceptionHandlerStart M eht i) <=? pc)
  && (pc <? Int.u16 (exceptionHandlerEnd M eht i)).

(** The catch type of handler [i], read from the constant pool and, when
    it is not null, passed to the class finder. *)
Definition handlerCatchType (t : Thread) (eht : object) (i : Z)
  : object * Thread :=
  let idx := Int.u16 (exceptionHandlerCatchType M eht i) in
  let catchType :=
    if negb (idx =? 0) then arrayBody (vm t) (codePool M (code t)) (idx - 1)
    else 0 in
  if negb (catchType =? 0) then resolveClass_spec t catchType
  else (catchType, t).

(** The body run when a handler matches. *)
Definition enterHandler (t : Thread) (eht : object) (i : Z) : Thread :=
  let t1 := set_sp t (Int.u32 (frame t + FrameFootprint K)) in
  let t2 := set_ip t1 (Int.u16 (exceptionHandlerIp M eht i)) in
  let t3 := pushObject t2 (exception t2) in
  set_exception t3 0.

(** The loop over the handler table of the current frame, from index [i];
    [n] bounds the iterations.  [Some (t', true)] is [goto loop]. *)
Fixpoint findHandler (n fuel : nat) (t : Thread) (eht : object) (i : Z)
  : option (Thread * bool) :=
  match n with
  | O => Some (t, false)
  | S n' =>
    if i <? exceptionHandlerTableLength M eht then
      if handlerCovers t (frame t) eht i then
        let '(catchType, t1) := handlerCatchType t eht i in
        match (if catchType =? 0 then Some true
               else instanceOf fuel (vm t1) catchType (exception t1)) with
        | None => None
        | Some true => Some (enterHandler t1 eht i, true)
        | Some false => findHandler n' fuel t1 eht (i + 1)
        end
      else findHandler n' fuel t eht (i + 1)
    else Some (t, false)
  end.

(** The loop over frames, [for (; frame >= 0; frame = frameNext(t, frame))];
    [n] bounds the number of frames visited.  Falling out of the loop prints
    the trace and returns null. *)
Fixpoint unwind (n fuel : nat) (t : Thread) : option (Thread * Next) :=
  match n with
  | O => None
  | S n' =>
    if frame t >=? 0 then
      if flagSet (methodFlags M (frameMethod t (frame t))) (ACC_NATIVE K)
      then Some (t, Return 0)
      else
        let t1 := set_code t (methodCode M (frameMethod t (frame t))) in
        let eht := codeExceptionHandlerTable M (code t1) in
        match (if negb (eht =? 0)
               then findHandler
                      (Z.to_nat (exceptionHandlerTableLength M eht))
                      fuel t1 eht 0
               else Some (t1, false)) with
        | None => None
        | Some (t2, true) => Some (t2, Loop)
        | Some (t2, false) =>
          unwind n' fuel (set_frame t2 (frameNext t2 (frame t2)))
        end
    else Some (t, Return 0)
  end.

Definition throw_ (n fuel : nat) (t : Thread) : option (Thread * Next) :=
  unwind n fuel (pokeInt t (frame t + FrameIpOffset K) (ip t)).

(** *** Vocabulary of the statements *)

(** A resolution request, as the handlers issue them. *)
Inductive Resolution : Type :=
| ResolveClass (pool : object) (index : Z)
| ResolveField (pool : object) (index : Z)
| ResolveMethod (pool : object) (index : Z).

Definition resolutionPool (r : Resolution) : object :=
  match r with
  | ResolveClass p _ | ResolveField p _ | ResolveMethod p _ => p
  end.

Definition resolutionIndex (r : Resolution) : Z :=
  match r with
  | ResolveClass _ i | ResolveField _ i | ResolveMethod _ i => i
  end.

Definition runResolution (fuel : nat) (t : Thread) (r : Resolution)
  : option (object * Thread) :=
  match r with
  | ResolveClass p i => Some (resolveClass t p i)
  | ResolveField p i => resolveField fuel t p i
  | ResolveMethod p i => resolveMethod fuel t p i
  end.

(** Requests served one after the other on the same thread. *)
Fixpoint runResolutions (fuel : nat) (t : Thread) (rs : list Resolution)
  : option Thread :=
  match rs with
  | [] => Some t
  | r :: rs' =>
    match runResolution fuel t r with
    | None => None
    | Some (_, t1) => runResolutions fuel t1 rs'
    end
  end.

(** A resolved entity is a class, field or method object: neither a byte
    array (a symbolic class name) nor a [Reference] triple. *)
Definition resolvedEntity (h : Heap) (o : object) : Prop :=
  objectClass M o <> arrayBody h (types M) (ByteArrayType K) /\
  objectClass M o <> arrayBody h (types M) (ReferenceType K).

(** The thread after the two index bytes of an opcode were read. *)
Definition afterIndex (t : Thread) : Thread := snd (fetch (snd (fetch t))).

(** The 16-bit index those two bytes encode. *)
Definition indexOperand (t : Thread) : Z :=
  Int.u16 (Z.lor (Z.shiftl (fst (fetch t)) 8) (fst (fetch (snd (fetch t))))).

(** The 32-bit offset of a wide branch, assembled from the four bytes at
    [ip], [ip + 1], [ip + 2] and [ip + 3]. *)
Definition wideOffset (t : Thread) : Z :=
  let b (k : Z) := Int.u8 (codeBody M (code t) (ip t + k)) in
  Int.s32 (Z.lor (Z.lor (Z.lor (Z.shiftl (b 0) 24) (Z.shiftl (b 1) 16))
                        (Z.shiftl (b 2) 8)) (b 3)).

(** The catch type of handler [i] as its entry gives it, before any
    resolution: null for an entry without one, else the pool entry it
    names. *)
Definition handlerCatchEntry (t : Thread) (eht : object) (i : Z) : object :=
  let idx := Int.u16 (exceptionHandlerCatchType M eht i) in
  if negb (idx =? 0) then arrayBody (vm t) (codePool M (code t)) (idx - 1)
  else 0.

(** Handler [i] applies in the current frame of [t]: its range contains
    the saved ip minus one, and its catch type is null or names a class
    that the class finder yields and that the pending exception is an
    instance of. *)
Definition handlerApplies (fuel : nat) (t : Thread) (eht : object) (i : Z)
  : Prop :=
  Int.u16 (exceptionHandlerStart M eht i) <= frameIp t (frame t) - 1
    < Int.u16 (exceptionHandlerEnd M eht i) /\
  (handlerCatchEntry t eht i = 0 \/
   (fst (handlerCatchType t eht i) <> 0 /\
    instanceOf fuel (vm t) (fst (handlerCatchType t eht i)) (exception t)
    = Some true)).

(** Handler [i] does not apply. *)
Definition handlerRejects (fuel : nat) (t : Thread) (eht : object) (i : Z)
  : Prop :=
  ~ (Int.u16 (exceptionHandlerStart M eht i) <= frameIp t (frame t) - 1
     < Int.u16 (exceptionHandlerEnd M eht i)) \/
  (fst (handlerCatchType t eht i) <> 0 /\
   instanceOf fuel (vm t) (fst (handlerCatchType t eht i)) (exception t)
   = Some false).

(** The thread once the unwinder has loaded the code of the current
    frame's method, and once it has moved to the next frame. *)
Definition visit (t : Thread) : Thread :=
  set_code t (methodCode M (frameMethod t (frame t))).
Definition leave (t : Thread) : Thread :=
  set_frame t (frameNext t (frame t)).

Definition frameIsNative (t : Thread) : bool :=
  flagSet (methodFlags M (frameMethod t (frame t))) (ACC_NATIVE K).

(** The current frame is a bytecode frame none of whose handlers applies. *)
Definition frameUnhandled (fuel : nat) (t : Thread) : Prop :=
  0 <= frame t /\ frameIsNative t = false /\
  let eht := codeExceptionHandlerTable M (code (visit t)) in
  eht = 0 \/
  forall j, 0 <= j < exceptionHandlerTableLength M eht ->
            handlerRejects fuel (visit t) eht j.

(** [Walk fuel t t' k]: walking from the current frame of [t] towards the
    root, the unwinder passes [k] unhandled frames and arrives at [t']. *)
Inductive Walk (fuel : nat) : Thread -> Thread -> nat -> Prop :=
| Walk_here t : Walk fuel t t O
| Walk_next t t' k :
    frameUnhandled fuel t ->
    Walk fuel (leave (visit t)) t' k ->
    Walk fuel t t' (S k).

End Interpreter.

(** ** The rest of the interpreter

    The handlers and helpers of run.cpp beyond the ones above: stack
    manipulation, branches, integer arithmetic and conversions, returns,
    the invoke transition with its stack check, superclass and dispatch
    helpers, and the weak-reference registry. *)

(** What these need from headers that are not among the sources. *)
Record Extras : Type := mkExtras {
  StackSizeInWords : Z;                    (* Thread::StackSizeInWords *)
  codeMaxStack : object -> Z;
  methodOffset : object -> Z;
  makeStackOverflowError : object;
  (* invokeNative reaches the foreign-function interface of the system *)
  invokeNative : Thread -> object -> Thread
}.

(** [memcpy(stack + dst, stack + src, n words)] on blocks that do not
    overlap. *)
Definition memcpyWords (s : Z -> Z) (dst src n : Z) : Z -> Z :=
  fun j => if (dst <=? j) && (j <? dst + n) then s (src + (j - dst)) else s j.

(** The weak-reference registry of the machine: [vm->weakReferences] and
    the [jreferenceNext] field of the registered objects. *)
Record References : Type := mkReferences {
  weakReferences : object;
  jreferenceNext : object -> object
}.

(** [registerWeakReference(t, r)] *)
Definition registerWeakReference (w : References) (r : object) : References :=
  {| weakReferences := r;
     jreferenceNext := fun o => if o =? r then weakReferences w
                                else jreferenceNext w o |}.

(** The registry read as a list, from the head to the first null. *)
Fixpoint weakChainFrom (fuel : nat) (w : References) (o : object)
  : option (list object) :=
  match fuel with
  | O => None
  | S k =>
    if o =? 0 then Some []
    else match weakChainFrom k w (jreferenceNext w o) with
         | Some l => Some (o :: l)
         | None => None
         end
  end.

Definition weakChain (fuel : nat) (w : References) : option (list object) :=
  weakChainFrom fuel w (weakReferences w).

(** The bytes of a C string: the body of a byte array up to its first
    zero. *)
Fixpoint cstring (a : list Z) : list Z :=
  match a with
  | [] => []
  | x :: a' => if x =? 0 then [] else x :: cstring a'
  end.

Section Extended.

Variable K : Constants.
Variable M : ObjectModel.
Variable X : Extras.

(** The word index of a slot, [slot * 2] in unsigned arithmetic. *)
Definition slotWord (slot : Z) : Z := Int.u32 (slot * 2).

(** *** Stack manipulation *)

(** case dup *)
Definition dup (t : Thread) : Thread * Next :=
  let s := memcpyWords (stack t) (slotWord (sp t))
                       (slotWord (Int.u32 (sp t - 1))) 2 in
  (set_sp (set_stack t s) (Int.u32 (sp t + 1)), Loop).

(** case dup_x1 *)
Definition dup_x1 (t : Thread) : Thread * Next :=
  let s1 := memcpyWords (stack t) (slotWord (sp t))
                        (slotWord (Int.u32 (sp t - 1))) 2 in
  let s2 := memcpyWords s1 (slotWord (Int.u32 (sp t - 1)))
                        (slotWord (Int.u32 (sp t - 2))) 2 in
  let s3 := memcpyWords s2 (slotWord (Int.u32 (sp t - 2)))
                        (slotWord (sp t)) 2 in
  (set_sp (set_stack t s3) (Int.u32 (sp t + 1)), Loop).

(** case dup_x2 *)
Definition dup_x2 (t : Thread) : Thread * Next :=
  let s1 := memcpyWords (stack t) (slotWord (sp t))
                        (slotWord (Int.u32 (sp t - 1))) 2 in
  let s2 := memcpyWords s1 (slotWord (Int.u32 (sp t - 1)))
                        (slotWord (Int.u32 (sp t - 2))) 2 in
  let s3 := memcpyWords s2 (slotWord (Int.u32 (sp t - 2)))
                        (slotWord (Int.u32 (sp t - 3))) 2 in
  let s4 := memcpyWords s3 (slotWord (Int.u32 (sp t - 3)))
                        (slotWord (sp t)) 2 in
  (set_sp (set_stack t s4) (Int.u32 (sp t + 1)), Loop).

(** case dup2 *)
Definition dup2 (t : Thread) : Thread * Next :=
  let s := memcpyWords (stack t) (slotWord (Int.u32 (sp t + 1)))
                       (slotWord (Int.u32 (sp t - 2))) 4 in
  (set_sp (set_stack t s) (Int.u32 (sp t + 2)), Loop).

(** case dup2_x1 *)
Definition dup2_x1 (t : Thread) : Thread * Next :=
  let s1 := memcpyWords (stack t) (slotWord (Int.u32 (sp t + 1)))
                        (slotWord (Int.u32 (sp t - 1))) 2 in
  let s2 := memcpyWords s1 (slotWord (sp t))
                        (slotWord (Int.u32 (sp t - 2))) 2 in
  let s3 := memcpyWords s2 (slotWord (Int.u32 (sp t - 1)))
                        (slotWord (Int.u32 (sp t - 3))) 2 in
  let s4 := memcpyWords s3 (slotWord (Int.u32 (sp t - 3)))
                        (slotWord (sp t)) 4 in
  (set_sp (set_stack t s4) (Int.u32 (sp t + 2)), Loop).

(** case dup2_x2 *)
Definition dup2_x2 (t : Thread) : Thread * Next :=
  let s1 := memcpyWords (stack t) (slotWord (Int.u32 (sp t + 1)))
                        (slotWord (Int.u32 (sp t - 1))) 2 in
  let s2 := memcpyWords s1 (slotWord (sp t))
                        (slotWord (Int.u32 (sp t - 2))) 2 in
  let s3 := memcpyWords s2 (slotWord (Int.u32 (sp t - 1)))
                        (slotWord (Int.u32 (sp t - 3))) 2 in
  let s4 := memcpyWords s3 (slotWord (Int.u32 (sp t - 2)))
                        (slotWord (Int.u32 (sp t - 4))) 2 in
  let s5 := memcpyWords s4 (slotWord (Int.u32 (sp t - 4)))
                        (slotWord (sp t)) 4 in
  (set_sp (set_stack t s5) (Int.u32 (sp t + 2)), Loop).

(** case swap: the top slot goes through [tmp]. *)
Definition swap (t : Thread) : Thread * Next :=
  let top := slotWord (Int.u32 (sp t - 1)) in
  let below := slotWord (Int.u32 (sp t - 2)) in
  let tmp0 := stack t top in
  let tmp1 := stack t (top + 1) in
  let s1 := memcpyWords (stack t) top below 2 in
  let s2 := poke (poke s1 below tmp0) (below + 1) tmp1 in
  (set_stack t s2, Loop).

(** *** Branches *)

(** [(ip - 3) + static_cast<int16_t>((offset1 << 8) | offset2)], with [ip]
    past the two offset bytes. *)
Definition branchTarget (t : Thread) (offset1 offset2 : Z) : Z :=
  Int.u32 ((ip t - 3) + Int.s16 (Z.lor (Z.shiftl offset1 8) offset2)).

(** case goto_ *)
Definition goto_ (t : Thread) : Thread * Next :=
  let '(offset1, t1) := fetch M t in
  let '(offset2, t2) := fetch M t1 in
  (set_ip t2 (branchTarget t2 offset1 offset2), Loop).

(** case jsr *)
Definition jsr (t : Thread) : Thread * Next :=
  let '(offset1, t1) := fetch M t in
  let '(offset2, t2) := fetch M t1 in
  let t3 := pushInt K t2 (ip t2) in
  (set_ip t3 (branchTarget t3 offset1 offset2), Loop).

(** The six [if_icmp<cond>] cases, which differ in the comparison of the
    two [int32_t] operands only. *)
Definition if_icmp (cmp : Z -> Z -> bool) (t : Thread) : Thread * Next :=
  let '(offset1, t1) := fetch M t in
  let '(offset2, t2) := fetch M t1 in
  let '(b0, t3) := popInt t2 in
  let b := Int.s32 b0 in
  let '(a0, t4) := popInt t3 in
  let a := Int.s32 a0 in
  if cmp a b then (set_ip t4 (branchTarget t4 offset1 offset2), Loop)
  else (t4, Loop).

Definition if_icmpeq := if_icmp Z.eqb.
Definition if_icmpne := if_icmp (fun a b => negb (a =? b)).
Definition if_icmpgt := if_icmp Z.gtb.
Definition if_icmpge := if_icmp Z.geb.
Definition if_icmplt := if_icmp Z.ltb.
Definition if_icmple := if_icmp Z.leb.

(** *** Integer arithmetic and conversions *)

(** The binary [int32_t] operations: [b] is popped first.  The result is
    computed on the signed operands and truncated by [pushInt], so that an
    [int32_t] overflow wraps around. *)
Definition intBinary (op : Z -> Z -> Z) (t : Thread) : Thread * Next :=
  let '(b0, t1) := popInt t in
  let b := Int.s32 b0 in
  let '(a0, t2) := popInt t1 in
  let a := Int.s32 a0 in
  (pushInt K t2 (op a b), Loop).

Definition iadd := intBinary Z.add.
Definition isub := intBinary Z.sub.
Definition imul := intBinary Z.mul.

(** case ineg: the negation of the [uint32_t] that [popInt] yields. *)
Definition ineg (t : Thread) : Thread * Next :=
  let '(v, t1) := popInt t in
  (pushInt K t1 (Int.u32 (- v)), Loop).

(** case i2b *)
Definition i2b (t : Thread) : Thread * Next :=
  let '(v, t1) := popInt t in (pushInt K t1 (Int.s8 v), Loop).

(** case i2c *)
Definition i2c (t : Thread) : Thread * Next :=
  let '(v, t1) := popInt t in (pushInt K t1 (Int.u16 v), Loop).

(** case i2s *)
Definition i2s (t : Thread) : Thread * Next :=
  let '(v, t1) := popInt t in (pushInt K t1 (Int.s16 v), Loop).

(** *** Returns *)

(** case ireturn *)
Definition ireturn (t : Thread) : Thread * Next :=
  let '(r0, t1) := popInt t in
  let result := Int.s32 r0 in
  let t2 := popFrame K M t1 in
  if frame t2 >=? 0 then (pushInt K t2 result, Loop)
  else (t2, Return (makeInt M result)).

(** *** The invoke transition *)

(** [checkStack(t, method)] *)
Definition checkStack (t : Thread) (method : object) : Thread :=
  let parameterFootprint := Int.u32 (methodParameterFootprint M method) in
  let base := Int.u32 (sp t - parameterFootprint) in
  if Int.u32 (base + codeMaxLocals M (methodCode M method) + FrameFootprint K
              + codeMaxStack X (methodCode M method))
     >? Z.quot (StackSizeInWords X) 2
  then set_exception t (makeStackOverflowError X)
  else t.

(** The [invoke] label of [run], on the method held by [code]. *)
Definition invoke (t : Thread) : Thread * Next :=
  if flagSet (methodFlags M (code t)) (ACC_NATIVE K) then
    let t1 := invokeNative X t (code t) in
    if negb (exception t1 =? 0) then (t1, Throw) else (t1, Loop)
  else
    let t1 := checkStack t (code t) in
    if negb (exception t1 =? 0) then (t1, Throw)
    else (pushFrame K M t1 (code t1), Loop).

(** *** Superclass and dispatch helpers *)

(** [isSuperclass(t, class_, base)]: the walk of [instanceOf]'s class
    branch, started at the superclass of [base]. *)
Definition isSuperclass (fuel : nat) (class_ base : object) : option bool :=
  instanceOfClass M fuel (classSuper M base) class_.

(** The loop of [findInterfaceMethod], from index [i]; [None] is
    [abort(t)]. *)
Fixpoint findInterfaceMethodFrom (n : nat) (h : Heap) (itable : object)
         (i : Z) (interface method : object) : option object :=
  match n with
  | O => None
  | S n' =>
    if i <? arrayLength M itable then
      if arrayBody h itable i =? interface
      then Some (arrayBody h (arrayBody h itable (i + 1)) (methodOffset X method))
      else findInterfaceMethodFrom n' h itable (i + 2) interface method
    else None
  end.

(** [findInterfaceMethod(t, method, o)] *)
Definition findInterfaceMethod (h : Heap) (method o : object) : option object :=
  let interface := methodClass M method in
  let itable := classInterfaceTable M (objectClass M o) in
  findInterfaceMethodFrom (Z.to_nat (arrayLength M itable)) h itable 0
                          interface method.

(** *** Vocabulary of the statements *)

(** The [n]-th superclass of [c]. *)
Fixpoint superAt (n : nat) (c : object) : object :=
  match n with
  | O => c
  | S k => superAt k (classSuper M c)
  end.

(** The class chain from [c] has [n] classes before it reaches [d]: none of
    [c], its superclass, ... up to the [n]-th is null. *)
Definition chainAlive (n : nat) (c : object) : Prop :=
  forall k, (k < n)%nat -> superAt k c <> 0.

(** The classes that a walk of [fuel] steps from [c] visits have each an
    interface table: the code reads the length of the table of every class
    it visits. *)
Definition interfaceTablesPresent (fuel : nat) (c : object) : Prop :=
  forall k, (k < fuel)%nat -> superAt k c <> 0 ->
            classInterfaceTable M (superAt k c) <> 0.

(** Entry [i] of a field or method table answers to the name and spec of
    [reference]. *)
Definition entryMatches (h : Heap) (table reference : object)
           (name spec : object -> object) (i : Z) : bool :=
  strcmp_eq (byteArrayBody M (name (arrayBody h table i)))
            (byteArrayBody M (referenceName M reference))
  && strcmp_eq (byteArrayBody M (spec (arrayBody h table i)))
               (byteArrayBody M (referenceSpec M reference)).

(** The stack once [pushFrame] has saved the caller's [ip] in the caller's
    frame record, if there is a caller. *)
Definition callerSaved (t : Thread) : Z -> Z :=
  if frame t >=? 0
  then poke (poke (stack t) ((frame t + FrameIpOffset K) * 2) (IntTag K))
            ((frame t + FrameIpOffset K) * 2 + 1) (Int.u32 (ip t))
  else stack t.

(** [u] holds below the word [limit] what [t'] holds there. *)
Definition sameBelow (limit : Z) (u t' : Thread) : Prop :=
  forall j, j < limit -> stack u j = stack t' j.

(** The 16-bit offset of a branch, assembled from the two bytes at [ip]
    and [ip + 1]. *)
Definition narrowOffset (t : Thread) : Z :=
  Int.s16 (Z.lor (Z.shiftl (Int.u8 (codeBody M (code t) (ip t))) 8)
                 (Int.u8 (codeBody M (code t) (ip t + 1)))).

(** The two words, tag and value, of the slot at index [i]. *)
Definition slot (s : Z -> Z) (i : Z) : Z * Z := (s (i * 2), s (i * 2 + 1)).

End Extended.

(** ** A concrete machine

    A small loaded program on which the handlers are evaluated: class [Main]
    (handle 11) with a static int field [x], a class initializer, a caller
    method and a synchronized instance method; exception classes [E] (12) and
    [Other] (13). *)

Module Demo.

Definition K0 : Constants :=
  {| FrameBaseOffset := 0; FrameNextOffset := 1; FrameMethodOffset := 2;
     FrameIpOffset := 3; FrameFootprint := 4;
     IntTag := 0; ObjectTag := 1;
     ACC_STATIC := 8; ACC_SYNCHRONIZED := 32; ACC_NATIVE := 256;
     ACC_INTERFACE := 512;
     ByteArrayType := 1; ReferenceType := 2;
     ByteField := 1; BooleanField := 2; CharField := 3; ShortField := 4;
     FloatField := 5; IntField := 6; DoubleField := 7; LongField := 8;
     ObjectField := 9 |}.

(** Handles. *)
Definition typesArray : object := 1.
Definition byteArrayClass : object := 2.
Definition referenceClassClass : object := 3.
Definition fieldClassClass : object := 5.
Definition objectClass_ : object := 10.
Definition mainClass : object := 11.
Definition excClass : object := 12.
Definition otherClass : object := 13.
Definition callerMethod : object := 20.
Definition callerCode : object := 21.
Definition callerHandlers : object := 22.
Definition callerPool : object := 23.
Definition clinitMethod : object := 25.
Definition clinitCode : object := 26.
Definition syncMethod : object := 30.
Definition syncCode : object := 31.
Definition receiver : object := 40.
Definition thrown : object := 50.
Definition nameE : object := 60.
Definition nameOther : object := 61.
Definition nameMissing : object := 62.
Definition nameMain : object := 63.
Definition fieldRef : object := 70.
Definition fieldX : object := 80.
Definition mainFields : object := 81.
Definition mainStatics : object := 82.
Definition boxedSeven : object := 90.
Definition linkError : object := 99.

(** The bytes of the caller's code. *)
Definition callerBytes : list Z :=
  [ 16; 128;                    (*  0: bipush -128 *)
    17; 255; 254;               (*  2: sipush -2 *)
    201; 0; 0; 0; 20;           (*  5: jsr_w +20 *)
    200; 0; 0; 0; 20;           (* 10: goto_w +20 *)
    196; 132; 0; 1; 255; 255;   (* 15: wide iinc 1, -1 *)
    192; 0; 4;                  (* 21: checkcast #4 *)
    193; 0; 4;                  (* 24: instanceof #4 *)
    178; 0; 3;                  (* 27: getstatic #3 *)
    179; 0; 3 ].                (* 30: putstatic #3 *)

Definition M0 : ObjectModel :=
  {| objectClass := fun o =>
       match o with
       | 40 => mainClass | 50 => excClass
       | 60 | 61 | 62 | 63 | 64 | 65 | 66 | 67 => byteArrayClass
       | 70 => referenceClassClass
       | 80 => fieldClassClass
       | _ => 4
       end;
     types := typesArray;
     arrayLength := fun a =>
       match a with 1 => 8 | 23 => 4 | 81 => 1 | 82 => 1 | _ => 0 end;
     byteArrayBody := fun o =>
       match o with
       | 60 => [69; 0] | 61 => [79; 0] | 62 => [77; 0] | 63 => [75; 0]
       | 64 | 66 => [120; 0]
       | 65 | 67 => [73; 0]
       | _ => []
       end;
     classFlags := fun _ => 0;
     classSuper := fun c =>
       match c with 11 | 12 | 13 => objectClass_ | _ => 0 end;
     classInterfaceTable := fun _ => 0;
     classFieldTable := fun c => match c with 11 => mainFields | _ => 0 end;
     classMethodTable := fun _ => 0;
     classStaticTable := fun c => match c with 11 => mainStatics | _ => 0 end;
     fieldClass := fun f => match f with 80 => mainClass | _ => 0 end;
     fieldName := fun f => match f with 80 => 66 | _ => 0 end;
     fieldSpec := fun f => match f with 80 => 67 | _ => 0 end;
     fieldCode := fun f => match f with 80 => 6 | _ => 0 end;
     fieldOffset := fun _ => 0;
     methodFlags := fun m => match m with 25 => 8 | 30 => 32 | _ => 0 end;
     methodClass := fun _ => mainClass;
     methodCode := fun m =>
       match m with
       | 20 => callerCode | 25 => clinitCode | 30 => syncCode | _ => 0
       end;
     methodName := fun _ => 0;
     methodSpec := fun _ => 0;
     methodParameterFootprint := fun m =>
       match m with 20 | 30 => 1 | _ => 0 end;
     codeBody := fun c i =>
       match c with 21 => nth (Z.to_nat i) callerBytes 0 | _ => 0 end;
     codeMaxLocals := fun c => match c with 21 => 2 | 31 => 1 | _ => 0 end;
     codePool := fun _ => callerPool;
     codeExceptionHandlerTable := fun c =>
       match c with 21 => callerHandlers | _ => 0 end;
     exceptionHandlerTableLength := fun e => match e with 22 => 3 | _ => 0 end;
     exceptionHandlerStart := fun _ i => match i with 0 => 100 | _ => 0 end;
     exceptionHandlerEnd := fun _ i => match i with 0 => 200 | _ => 50 end;
     exceptionHandlerIp := fun _ i =>
       match i with 0 => 30 | 1 => 40 | _ => 60 end;
     exceptionHandlerCatchType := fun _ i =>
       match i with 0 => 0 | 1 => 2 | _ => 1 end;
     referenceName := fun _ => 64;
     referenceSpec := fun _ => 65;
     intValue := fun b => match b with 90 => 7 | _ => 0 end;
     longValue := fun _ => 0;
     makeInt := fun v => 1000 + v;
     makeLong := fun v => 2000 + v;
     classFinder := fun spec =>
       match spec with
       | 60 => inl excClass | 61 => inl otherClass | 63 => inl mainClass
       | _ => inr linkError
       end;
     makeNoSuchFieldError := fun _ => 97;
     makeNoSuchMethodError := fun _ => 98;
     makeClassCastException := fun _ _ => 96 |}.

Definition heap0 : Heap :=
  {| arrayBody := fun a i =>
       match a, i with
       | 1, 1 => byteArrayClass
       | 1, 2 => referenceClassClass
       | 23, 0 => nameE
       | 23, 1 => nameOther
       | 23, 2 => fieldRef
       | 23, 3 => nameMissing
       | 81, 0 => fieldX
       | 82, 0 => boxedSeven
       | _, _ => 0
       end;
     classInitializer := fun c => match c with 11 => clinitMethod | _ => 0 end;
     referenceClass := fun r => match r with 70 => nameMain | _ => 0 end;
     monitorCount := fun _ => 0 |}.

(** An idle thread: empty stack, no frame. *)
Definition idle : Thread :=
  {| stack := fun _ => 0; sp := 0; frame := -1; ip := 0; code := 0;
     exception := 0; vm := heap0 |}.

(** The caller, entered with [receiver] as its only argument. *)
Definition inCaller : Thread :=
  pushFrame K0 M0 (pushObject K0 idle receiver) callerMethod.

(** The caller stopped after fetching the opcode at address [a]. *)
Definition fetched (a : Z) : Thread := set_ip inCaller (a + 1).

(** The caller at address 9, having pushed [receiver] and invoked the
    synchronized method. *)
Definition inSynchronized : Thread :=
  pushFrame K0 M0 (pushObject K0 (set_ip inCaller 9) receiver) syncMethod.

(** The synchronized method at address 3 with [thrown] pending. *)
Definition throwing : Thread := set_exception (set_ip inSynchronized 3) thrown.

(** The caller after the opcode at address 21 (checkcast), with null on
    top of the operand stack. *)
Definition nullOnTop : Thread := pushObject K0 (fetched 21) 0.

(** The caller after the opcode at address 27 (getstatic of [x]), and the
    thread once the field reference has been resolved. *)
Definition staticAccess : Thread := fetched 27.
Definition afterResolution : Thread :=
  match resolveField K0 M0 2 (afterIndex M0 staticAccess)
                     (codePool M0 (code staticAccess))
                     (Int.u32 (indexOperand M0 staticAccess - 1)) with
  | Some (_, t3) => t3
  | None => idle
  end.

(** The caller once slot 2 of its pool has been resolved to [fieldX]. *)
Definition resolvedX : Thread :=
  match runResolution K0 M0 2 inCaller (ResolveField callerPool 2) with
  | Some (_, t1) => t1
  | None => idle
  end.

(** The throwing thread once the unwinder has saved [ip], and once it has
    left the synchronized method's frame for the caller's. *)
Definition saved : Thread :=
  pokeInt K0 throwing (frame throwing + FrameIpOffset K0) (ip throwing).
Definition atCaller : Thread := leave K0 (visit K0 M0 saved).

End Demo.

(** ** A second machine, with an interface and a native method

    The machine of [Demo], extended: an interface [Shape] (handle 14) that
    [Main] implements, second in its interface table after the interface
    [Drawable] (16); a subclass [Sub] (15) of [Main]; a method table for
    [Main]; a native method; a piece of bytecode with branches; and two
    handlers for the synchronized method, the first for a class that cannot
    be loaded, the second for [E].  Every class has an interface table, a
    field table and a method table: where [Demo] gives none it is
    [emptyTable], an array of length 0. *)

Module Demo2.
Import Demo.

Definition shape : object := 14.
Definition subClass : object := 15.
Definition drawable : object := 16.
Definition subPool : object := 24.
Definition syncHandlers : object := 27.
Definition areaMethod : object := 35.       (* declared by Shape *)
Definition nativeMethod : object := 36.
Definition subInstance : object := 41.
Definition nameSub : object := 68.
Definition nameZ : object := 69.
Definition subFieldRef : object := 71.
Definition subMethodRef : object := 72.     (* a method z of Sub *)
Definition mainInterfaces : object := 83.
Definition shapeDispatch : object := 84.
Definition mainMethods : object := 87.
Definition initOnly : object := 88.
Definition otherDispatch : object := 89.
Definition emptyTable : object := 91.
Definition overflowError : object := 95.

(** The bytes of the synchronized method's code. *)
Definition syncBytes : list Z :=
  [ 167; 0; 5;                  (*  0: goto +5 *)
    168; 255; 253;              (*  3: jsr -3 *)
    161; 0; 8;                  (*  6: if_icmplt +8 *)
    172 ].                      (*  9: ireturn *)

Definition M1 : ObjectModel :=
  {| objectClass := fun o =>
       match o with
       | 41 => subClass
       | 68 | 69 => byteArrayClass
       | 71 | 72 => referenceClassClass
       | _ => objectClass M0 o
       end;
     types := types M0;
     arrayLength := fun a =>
       match a with
       | 83 => 4 | 84 => 1 | 87 => 2 | 88 => 1 | 89 => 1 | 91 => 0
       | _ => arrayLength M0 a
       end;
     byteArrayBody := fun o =>
       match o with
       | 68 => [83; 0] | 69 => [122; 0]
       | _ => byteArrayBody M0 o
       end;
     classFlags := fun c => match c with 14 | 16 => 512 | _ => 0 end;
     classSuper := fun c => match c with 15 => mainClass | _ => classSuper M0 c end;
     classInterfaceTable := fun c =>
       match c with 0 => 0 | 11 => mainInterfaces | _ => emptyTable end;
     classFieldTable := fun c =>
       match c with 0 => 0 | 11 => mainFields | _ => emptyTable end;
     classMethodTable := fun c =>
       match c with 0 => 0 | 11 => mainMethods | _ => emptyTable end;
     classStaticTable := classStaticTable M0;
     fieldClass := fieldClass M0;
     fieldName := fieldName M0;
     fieldSpec := fieldSpec M0;
     fieldCode := fieldCode M0;
     fieldOffset := fieldOffset M0;
     methodFlags := fun m => match m with 36 => 256 | _ => methodFlags M0 m end;
     methodClass := fun m => match m with 35 => shape | _ => mainClass end;
     methodCode := methodCode M0;
     methodName := fun m => match m with 25 => nameMissing | 30 => 64 | _ => 0 end;
     methodSpec := fun m => match m with 25 | 30 => 65 | _ => 0 end;
     methodParameterFootprint := fun m =>
       match m with 36 => 1 | _ => methodParameterFootprint M0 m end;
     codeBody := fun c i =>
       match c with
       | 31 => nth (Z.to_nat i) syncBytes 0
       | _ => codeBody M0 c i
       end;
     codeMaxLocals := codeMaxLocals M0;
     codePool := codePool M0;
     codeExceptionHandlerTable := fun c =>
       match c with
       | 31 => syncHandlers
       | _ => codeExceptionHandlerTable M0 c
       end;
     exceptionHandlerTableLength := fun e =>
       match e with 27 => 2 | _ => exceptionHandlerTableLength M0 e end;
     exceptionHandlerStart := fun e i =>
       match e with 27 => 0 | _ => exceptionHandlerStart M0 e i end;
     exceptionHandlerEnd := fun e i =>
       match e with 27 => 50 | _ => exceptionHandlerEnd M0 e i end;
     exceptionHandlerIp := fun e i =>
       match e, i with
       | 27, 0 => 40
       | 27, _ => 60
       | _, _ => exceptionHandlerIp M0 e i
       end;
     (* handler 0 of the synchronized method catches pool entry 4, the name
        no class answers to; handler 1 catches pool entry 1, [E] *)
     exceptionHandlerCatchType := fun e i =>
       match e, i with
       | 27, 0 => 4
       | 27, _ => 1
       | _, _ => exceptionHandlerCatchType M0 e i
       end;
     referenceName := fun r =>
       match r with 72 => nameZ | _ => referenceName M0 r end;
     referenceSpec := referenceSpec M0;
     intValue := intValue M0;
     longValue := longValue M0;
     makeInt := makeInt M0;
     makeLong := makeLong M0;
     classFinder := fun spec =>
       match spec with 68 => inl subClass | _ => classFinder M0 spec end;
     makeNoSuchFieldError := makeNoSuchFieldError M0;
     makeNoSuchMethodError := makeNoSuchMethodError M0;
     makeClassCastException := makeClassCastException M0 |}.

Definition heap1 : Heap :=
  {| arrayBody := fun a i =>
       match a, i with
       | 24, 0 => subFieldRef
       | 24, 1 => subMethodRef
       | 83, 0 => drawable
       | 83, 1 => otherDispatch
       | 83, 2 => shape
       | 83, 3 => shapeDispatch
       | 84, 0 => syncMethod
       | 87, 0 => clinitMethod
       | 87, 1 => syncMethod
       | 88, 0 => clinitMethod
       | _, _ => arrayBody heap0 a i
       end;
     classInitializer := classInitializer heap0;
     referenceClass := fun r =>
       match r with 71 | 72 => nameSub | _ => referenceClass heap0 r end;
     monitorCount := monitorCount heap0 |}.

(** A stack of 64 words, and one of 16. *)
Definition X0 : Extras :=
  {| StackSizeInWords := 64;
     codeMaxStack := fun c => match c with 21 => 4 | 31 => 2 | _ => 0 end;
     methodOffset := fun _ => 0;
     makeStackOverflowError := overflowError;
     invokeNative := fun t _ => t |}.

Definition X0tight : Extras :=
  {| StackSizeInWords := 16;
     codeMaxStack := codeMaxStack X0;
     methodOffset := methodOffset X0;
     makeStackOverflowError := overflowError;
     invokeNative := invokeNative X0 |}.

(** The idle thread on the second heap. *)
Definition idle1 : Thread := set_vm idle heap1.

(** The caller at address 9 with [receiver] pushed as the argument of a
    call, and the same with the callee in [code], as the invoke transition
    finds it. *)
Definition calling : Thread := pushObject K0 (set_ip inCaller 9) receiver.
Definition invoking : Thread := set_code calling syncMethod.

(** The root call: [receiver] pushed on the idle thread. *)
Definition rootCall : Thread := pushObject K0 idle receiver.

(** The synchronized method and the root method about to return 42. *)
Definition returning : Thread := pushInt K0 inSynchronized 42.

(** The synchronized method at address 3 with an instance of [Main]
    pending, which no handler of the caller catches; the thread once the
    unwinder has saved [ip], and once it has left both frames. *)
Definition uncaught : Thread :=
  set_exception (set_ip inSynchronized 3) receiver.
Definition uncaughtSaved : Thread :=
  pokeInt K0 uncaught (frame uncaught + FrameIpOffset K0) (ip uncaught).
Definition uncaughtAtCaller : Thread := leave K0 (visit K0 M0 uncaughtSaved).
Definition uncaughtAtRoot : Thread := leave K0 (visit K0 M0 uncaughtAtCaller).

(** The native method entered from the caller, with [thrown] pending. *)
Definition nativeThrowing : Thread :=
  set_exception (pushFrame K0 M1 calling nativeMethod) thrown.
Definition nativeSaved : Thread :=
  pokeInt K0 nativeThrowing (frame nativeThrowing + FrameIpOffset K0)
          (ip nativeThrowing).

(** The bytecode of [syncBytes] stopped after fetching the opcode at
    address [a], with the ints 5 and 7 on the stack. *)
Definition operands : Thread :=
  pushInt K0 (pushInt K0 (set_code idle1 syncCode) 5) 7.
Definition branching (a : Z) : Thread := set_ip operands (a + 1).

(** Four ints on the stack. *)
Definition fourInts : Thread :=
  pushInt K0 (pushInt K0 (pushInt K0 (pushInt K0 idle 1) 2) 3) 4.

(** An empty registry, and one holding the reference 5. *)
Definition noReferences : References :=
  {| weakReferences := 0; jreferenceNext := fun _ => 0 |}.
Definition oneReference : References := registerWeakReference noReferences 5.

End Demo2.

(** * Properties *)

(** ** Facts on the fixed-width conversions and on word stores *)

Lemma u32_small x : 0 <= x < 2 ^ 32 -> Int.u32 x = x.
Proof. intros H. unfold Int.u32, Int.unsigned. now apply Z.mod_small. Qed.

Lemma u32_range x : 0 <= Int.u32 x < 2 ^ 32.
Proof. unfold Int.u32, Int.unsigned. apply Z.mod_pos_bound. lia. Qed.

Lemma u16_range x : 0 <= Int.u16 x < 2 ^ 16.
Proof. unfold Int.u16, Int.unsigned. apply Z.mod_pos_bound. lia. Qed.

Lemma u32_idempotent x : Int.u32 (Int.u32 x) = Int.u32 x.
Proof. apply u32_small, u32_range. Qed.

Lemma s32_nonneg x : 0 <= x < 2 ^ 32 -> 0 <= Int.s32 x -> Int.s32 x = x.
Proof.
  unfold Int.s32, Int.signed. intros Hx.
  rewrite Z.mod_small by exact Hx.
  change (2 ^ (32 - 1)) with 2147483648. change (2 ^ 32) with 4294967296 in *.
  destruct (Z.ltb_spec x 2147483648); lia.
Qed.

Lemma poke_same s i v : poke s i v i = v.
Proof. unfold poke. now rewrite Z.eqb_refl. Qed.

Lemma poke_other s i v j : j <> i -> poke s i v j = s j.
Proof. intros H. unfold poke. destruct (Z.eqb_spec j i); congruence. Qed.

(** ** Immediates, shifts and wide branches on the concrete machine *)

Module Evaluation.
Import Demo.

(** C5 — bipush and sipush push their immediate without sign extension.
    At address 0 the caller holds [bipush 0x80] and at address 2
    [sipush 0xFF 0xFE]: the ints pushed are 128 and 65534, whereas the
    immediates sign-extended from 8 and from 16 bits are -128 and -2. *)
Theorem bipush_sipush_push_unsigned_immediates :
  Int.s32 (fst (popInt (fst (bipush K0 M0 (fetched 0))))) = 128 /\
  Int.s8 128 = -128 /\
  Int.s32 (fst (popInt (fst (sipush K0 M0 (fetched 2))))) = 65534 /\
  Int.s16 65534 = -2.
Proof. repeat split; vm_compute; reflexivity. Qed.

(** C6 — iushr shifts the signed value and converts afterwards.  For
    a = -8 and b = 1 the int left on the stack is -4 (0xFFFFFFFC), whereas
    the logical shift of the 32-bit pattern of -8 is 0x7FFFFFFC. *)
Theorem iushr_keeps_the_sign_bits :
  let t := pushInt K0 (pushInt K0 inCaller (-8)) 1 in
  fst (popInt (fst (iushr K0 t))) = 4294967292 /\
  Int.s32 (fst (popInt (fst (iushr K0 t)))) = -4 /\
  Z.shiftr (Int.u32 (-8)) 1 = 2147483644.
Proof. repeat split; vm_compute; reflexivity. Qed.

(** C7 — jsr_w branches relative to the opcode's address plus two.  The
    caller holds [jsr_w +20] at address 5 and [goto_w +20] at address 10:
    jsr_w pushes the return address 10 and continues at 27, not at 25;
    goto_w continues at 30. *)
Theorem jsr_w_branches_two_bytes_late :
  ip (fst (jsr_w K0 M0 (fetched 5))) = 27 /\
  5 + 20 = 25 /\
  fst (popInt (fst (jsr_w K0 M0 (fetched 5)))) = 5 + 5 /\
  ip (fst (goto_w M0 (fetched 10))) = 10 + 20.
Proof. repeat split; vm_compute; reflexivity. Qed.

(** C8 — the wide form of iinc adds its 16-bit increment unsigned.  With
    local 1 holding 10, [wide iinc 1, 0xFFFF] at address 15 leaves 65545 in
    the local, whereas 10 + (-1) is 9; the narrow [iinc 1, 0xFF], which
    reads its increment as [int8_t], leaves 9. *)
Theorem wide_iinc_adds_unsigned_increment :
  let t := setLocalInt K0 inCaller 1 10 in
  Int.s32 (localInt K0 (fst (wide_iinc K0 M0 (set_ip t 17))) 1) = 65545 /\
  Int.s16 65535 = -1 /\
  Int.s32 (localInt K0 (fst (iinc K0 M0 (set_ip t 18))) 1) = 9.
Proof. repeat split; vm_compute; reflexivity. Qed.

(** C9 — lneg pops one int slot and pushes a long.  With the long 2^32 on
    top of the stack, lneg leaves the stack one slot higher and the long on
    top is 0, whereas the 64-bit negation of 2^32 is 0xFFFFFFFF00000000. *)
Theorem lneg_pops_a_single_slot :
  let t := pushLong K0 inCaller (2 ^ 32) in
  sp (fst (lneg K0 t)) = sp t + 1 /\
  fst (popLong (fst (lneg K0 t))) = 0 /\
  Int.u64 (- 2 ^ 32) = 18446744069414584320.
Proof. repeat split; vm_compute; reflexivity. Qed.

(** C1 — the unwinder leaves a synchronized method without releasing its
    monitor.  The caller invokes the synchronized instance method on
    [receiver]; the method throws [thrown], which the caller's third
    handler catches.  After the unwind the receiver's monitor is still
    held once, whereas a return through [popFrame] gives it back. *)
Theorem unwind_keeps_the_monitor :
  monitorCount (vm inCaller) receiver = 0 /\
  monitorCount (vm inSynchronized) receiver = 1 /\
  match throw_ K0 M0 3 3 throwing with
  | Some (t, next) =>
    next = Loop /\ frame t = frame inCaller /\ exception t = 0 /\
    monitorCount (vm t) receiver = 1
  | None => False
  end /\
  monitorCount (vm (popFrame K0 M0 inSynchronized)) receiver = 0.
Proof. vm_compute. repeat split; reflexivity. Qed.

(** C2 — the unwinder enters a handler whose catch type cannot be loaded.
    The synchronized method of the second machine has two handlers over the
    throwing address: handler 0 catches a class the class finder does not
    find, handler 1 catches [E].  With an instance of [E] pending, handler 0
    does not apply and handler 1 does; the unwinder nevertheless enters
    handler 0, at address 40 instead of 60, and the operand it pushes is the
    finder's link error, not the exception thrown. *)
Theorem unwinder_enters_the_handler_of_an_unloadable_class :
  let t := visit K0 Demo2.M1 saved in
  exception throwing = thrown /\
  handlerCatchEntry Demo2.M1 t Demo2.syncHandlers 0 = nameMissing /\
  classFinder Demo2.M1 nameMissing = inr linkError /\
  ~ handlerApplies K0 Demo2.M1 3 t Demo2.syncHandlers 0 /\
  handlerApplies K0 Demo2.M1 3 t Demo2.syncHandlers 1 /\
  Int.u16 (exceptionHandlerIp Demo2.M1 Demo2.syncHandlers 1) = 60 /\
  match throw_ K0 Demo2.M1 2 3 throwing with
  | Some (t', next) =>
    next = Loop /\ frame t' = frame throwing /\ ip t' = 40 /\
    sp t' = frame throwing + FrameFootprint K0 + 1 /\
    peekObject t' (frame throwing + FrameFootprint K0) = linkError /\
    exception t' = 0
  | None => False
  end.
Proof.
  cbv zeta.
  split; [reflexivity|]. split; [reflexivity|]. split; [reflexivity|].
  split.
  { intros (_ & [Hnull | (Hclass & _)]).
    - vm_compute in Hnull. discriminate.
    - apply Hclass. vm_compute. reflexivity. }
  split.
  { split.
    - vm_compute. split; [discriminate | reflexivity].
    - right. split; [vm_compute; discriminate | vm_compute; reflexivity]. }
  split; [reflexivity|].
  vm_compute. repeat split; reflexivity.
Qed.

End Evaluation.

(** ** Type checks on a null operand *)

Section NullOperand.

Variable K : Constants.
Variable M : ObjectModel.

Lemma afterIndex_fields (t : Thread) :
  stack (afterIndex M t) = stack t /\ sp (afterIndex M t) = sp t /\
  frame (afterIndex M t) = frame t /\ code (afterIndex M t) = code t /\
  exception (afterIndex M t) = exception t /\ vm (afterIndex M t) = vm t /\
  ip (afterIndex M t) = Int.u32 (Int.u32 (ip t + 1) + 1).
Proof. repeat split. Qed.

(** C10 — with a null reference on top of the stack, checkcast and
    instanceof read their two index bytes and do nothing else with them:
    whatever the class finder would answer and whatever the constant pool
    holds, checkcast continues with the stack, the heap and the pending
    exception untouched, and instanceof continues having pushed the int 0;
    neither goes to the unwinder. *)
Theorem null_operand_is_never_resolved (fuel : nat) (t : Thread) :
  peekObject t (Int.u32 (sp t - 1)) = 0 ->
  checkcast K M fuel t = Some (afterIndex M t, Loop) /\
  instanceof K M fuel t = Some (pushInt K (afterIndex M t) 0, Loop) /\
  ip (afterIndex M t) = Int.u32 (Int.u32 (ip t + 1) + 1) /\
  stack (afterIndex M t) = stack t /\
  sp (afterIndex M t) = sp t /\
  vm (afterIndex M t) = vm t /\
  exception (afterIndex M t) = exception t /\
  peekInt (pushInt K (afterIndex M t) 0) (sp t) = 0 /\
  sp (pushInt K (afterIndex M t) 0) = Int.u32 (sp t + 1) /\
  vm (pushInt K (afterIndex M t) 0) = vm t /\
  exception (pushInt K (afterIndex M t) 0) = exception t.
Proof.
  intros Hnull.
  assert (Hpeek : peekObject (afterIndex M t) (Int.u32 (sp (afterIndex M t) - 1)) = 0)
    by exact Hnull.
  repeat split.
  - unfold checkcast. cbn [fetch fst snd].
    change (snd (fetch M (snd (fetch M t)))) with (afterIndex M t) in *.
    unfold afterIndex, fetch in *. cbn [fst snd] in *.
    rewrite Hpeek. reflexivity.
  - unfold instanceof. unfold afterIndex, fetch in *. cbn [fst snd] in *.
    rewrite Hpeek. reflexivity.
  - unfold peekInt, pushInt. cbn [stack set_sp set_stack afterIndex fetch snd sp].
    rewrite poke_same. reflexivity.
Qed.

End NullOperand.

(** ** Operands of the handlers *)

Section Operands.
Variable K : Constants.
Variable M : ObjectModel.

Lemma s32_small_nonneg x : 0 <= x < 2 ^ 31 -> Int.s32 x = x.
Proof.
  intros H. unfold Int.s32, Int.signed.
  change (2 ^ 31) with 2147483648 in H.
  change (2 ^ (32 - 1)) with 2147483648. change (2 ^ 32) with 4294967296.
  rewrite Z.mod_small by lia.
  destruct (Z.ltb_spec x 2147483648); lia.
Qed.

(** bipush pushes the code byte as it is: the int on top of the stack is
    in [0, 256) whatever the immediate. *)
Lemma bipush_pushes_the_unsigned_byte (t : Thread) :
  peekInt (fst (bipush K M t)) (sp t) = Int.u8 (codeBody M (code t) (ip t)) /\
  0 <= Int.s32 (peekInt (fst (bipush K M t)) (sp t)) < 256.
Proof.
  assert (Hb : 0 <= Int.u8 (codeBody M (code t) (ip t)) < 2 ^ 8)
    by (unfold Int.u8, Int.unsigned; apply Z.mod_pos_bound; lia).
  change (2 ^ 8) with 256 in Hb.
  assert (Hpeek : peekInt (fst (bipush K M t)) (sp t)
                  = Int.u8 (codeBody M (code t) (ip t))).
  { unfold bipush, fetch, pushInt, peekInt. cbn [fst snd stack sp ip code set_sp set_stack set_ip].
    rewrite poke_same, u32_idempotent.
    apply u32_small. change (2 ^ 32) with 4294967296. lia. }
  split; [exact Hpeek|]. rewrite Hpeek.
  rewrite s32_small_nonneg by (change (2 ^ 31) with 2147483648; lia). lia.
Qed.

(** goto_w branches relative to the opcode's address [ip - 1]. *)
Lemma goto_w_target (t : Thread) :
  0 < ip t -> ip t + 4 < 2 ^ 32 ->
  ip (fst (goto_w M t)) = Int.u32 ((ip t - 1) + wideOffset M t).
Proof.
  intros H1 H2. unfold goto_w, wideOffset, fetch. cbn [fst snd stack sp ip code set_sp set_stack set_ip].
  rewrite (u32_small (ip t + 1)) by lia.
  rewrite (u32_small (ip t + 1 + 1)) by lia.
  rewrite (u32_small (ip t + 1 + 1 + 1)) by lia.
  rewrite (u32_small (ip t + 1 + 1 + 1 + 1)) by lia.
  rewrite Z.add_0_r.
  replace (ip t + 1 + 1) with (ip t + 2) by lia.
  replace (ip t + 2 + 1) with (ip t + 3) by lia.
  f_equal. lia.
Qed.

(** jsr_w pushes the address of the next instruction and branches relative
    to the opcode's address plus two. *)
Lemma jsr_w_target (t : Thread) :
  0 < ip t -> ip t + 4 < 2 ^ 32 ->
  ip (fst (jsr_w K M t)) = Int.u32 ((ip t - 1) + 2 + wideOffset M t) /\
  peekInt (fst (jsr_w K M t)) (sp t) = (ip t - 1) + 5.
Proof.
  intros H1 H2. unfold jsr_w, wideOffset, fetch, pushInt, peekInt.
  cbn [fst snd stack sp ip code set_sp set_stack set_ip].
  rewrite (u32_small (ip t + 1)) by lia.
  rewrite (u32_small (ip t + 1 + 1)) by lia.
  rewrite (u32_small (ip t + 1 + 1 + 1)) by lia.
  rewrite (u32_small (ip t + 1 + 1 + 1 + 1)) by lia.
  rewrite Z.add_0_r.
  replace (ip t + 1 + 1) with (ip t + 2) by lia.
  replace (ip t + 2 + 1) with (ip t + 3) by lia.
  split.
  - f_equal. lia.
  - rewrite poke_same, u32_idempotent.
    rewrite u32_small by lia. lia.
Qed.

(** lneg leaves the stack one slot higher than it found it. *)
Lemma lneg_stack_effect (t : Thread) :
  0 < sp t -> sp t + 1 < 2 ^ 32 ->
  sp (fst (lneg K t)) = sp t + 1.
Proof.
  intros H1 H2. unfold lneg, popInt, pushLong, pushInt.
  cbn [fst snd stack sp ip code set_sp set_stack set_ip].
  rewrite (u32_small (sp t - 1)) by lia.
  rewrite (u32_small (sp t - 1 + 1)) by lia.
  rewrite u32_small by lia. lia.
Qed.

End Operands.

(** ** The constant-pool resolver *)

Section Resolver.

Variable K : Constants.
Variable M : ObjectModel.

Ltac break_if :=
  match goal with
  | |- context [if ?b then _ else _] => destruct b eqn:?
  | H : context [if ?b then _ else _] |- _ => destruct b eqn:?
  end.

Lemma resolveClass_spec_effect (t : Thread) (spec c : object) (t1 : Thread) :
  resolveClass_spec M t spec = (c, t1) ->
  vm t1 = vm t /\ stack t1 = stack t /\ sp t1 = sp t /\ frame t1 = frame t /\
  ip t1 = ip t /\ code t1 = code t /\
  (t1 = t \/ c = 0).
Proof.
  unfold resolveClass_spec. destruct (classFinder M spec); intros H;
    inversion H; subst; cbn; auto 10.
Qed.

(** What [resolveClass(t, pool, index)] does to the pool. *)
Lemma resolveClass_effect (t : Thread) (p : object) (i : Z) (c : object)
      (t1 : Thread) :
  resolveClass K M t p i = (c, t1) ->
  (objectClass M (arrayBody (vm t) p i)
   <> arrayBody (vm t) (types M) (ByteArrayType K) /\
   c = arrayBody (vm t) p i /\ t1 = t) \/
  (objectClass M (arrayBody (vm t) p i)
   = arrayBody (vm t) (types M) (ByteArrayType K) /\
   ((vm t1 = vm t /\ exception t1 <> 0 /\ c = 0) \/
    (vm t1 = setArrayBody (vm t) p i c /\ exception t1 = 0))).
Proof.
  unfold resolveClass.
  destruct (Z.eqb_spec (objectClass M (arrayBody (vm t) p i))
                       (arrayBody (vm t) (types M) (ByteArrayType K)))
    as [Hsym | Hres].
  - destruct (resolveClass_spec M t (arrayBody (vm t) p i)) as [o' t'] eqn:E.
    apply resolveClass_spec_effect in E. destruct E as (Hvm & _).
    destruct (Z.eqb_spec (exception t') 0) as [He | He]; cbn [negb];
      intros H; inversion H; subst; right; split; auto.
    right. cbn. rewrite Hvm. auto.
  - intros H; inversion H; subst. left. auto.
Qed.

Lemma resolveClass_registers (t : Thread) (p : object) (i : Z) (c : object)
      (t1 : Thread) :
  resolveClass K M t p i = (c, t1) ->
  stack t1 = stack t /\ sp t1 = sp t /\ frame t1 = frame t /\
  ip t1 = ip t /\ code t1 = code t /\
  classInitializer (vm t1) = classInitializer (vm t).
Proof.
  unfold resolveClass. break_if.
  - destruct (resolveClass_spec M t (arrayBody (vm t) p i)) as [o' t'] eqn:E.
    apply resolveClass_spec_effect in E.
    destruct E as (Hvm & Hs & Hsp & Hf & Hip & Hc & _).
    break_if; intros H; inversion H; subst; cbn; rewrite ?Hvm; auto 10.
  - intros H; inversion H; subst; auto 10.
Qed.

Lemma resolveClass_container_effect (t : Thread) (r c : object) (t1 : Thread) :
  resolveClass_container K M t r = (c, t1) ->
  arrayBody (vm t1) = arrayBody (vm t) /\
  classInitializer (vm t1) = classInitializer (vm t) /\
  stack t1 = stack t /\ sp t1 = sp t /\ frame t1 = frame t /\
  ip t1 = ip t /\ code t1 = code t.
Proof.
  unfold resolveClass_container. break_if.
  - destruct (resolveClass_spec M t (referenceClass (vm t) r)) as [o' t'] eqn:E.
    apply resolveClass_spec_effect in E.
    destruct E as (Hvm & Hs & Hsp & Hf & Hip & Hc & _).
    break_if; intros H; inversion H; subst; cbn; rewrite ?Hvm; auto 10.
  - intros H; inversion H; subst; auto 10.
Qed.

(** What [resolve(t, pool, index, find, makeError)] does to the pool. *)
Lemma resolve_effect (fuel : nat) (t : Thread) (p : object) (i : Z)
      (find_ : Heap -> object -> object -> object)
      (makeError : object -> object) (o : object) (t1 : Thread) :
  resolve K M fuel t p i find_ makeError = Some (o, t1) ->
  (objectClass M (arrayBody (vm t) p i)
   <> arrayBody (vm t) (types M) (ReferenceType K) /\
   o = arrayBody (vm t) p i /\ t1 = t) \/
  (objectClass M (arrayBody (vm t) p i)
   = arrayBody (vm t) (types M) (ReferenceType K) /\
   ((arrayBody (vm t1) = arrayBody (vm t) /\ exception t1 <> 0 /\ o = 0) \/
    arrayBody (vm t1) = arrayBody (setArrayBody (vm t) p i o))).
Proof.
  unfold resolve.
  destruct (Z.eqb_spec (objectClass M (arrayBody (vm t) p i))
                       (arrayBody (vm t) (types M) (ReferenceType K)))
    as [Hsym | Hres].
  - destruct (resolveClass_container K M t (arrayBody (vm t) p i))
      as [class_ t'] eqn:E.
    apply resolveClass_container_effect in E. destruct E as (Hab & _).
    destruct (Z.eqb_spec (exception t') 0) as [He | He]; cbn [negb].
    + destruct (resolveSearch M fuel (vm t') find_ class_
                              (arrayBody (vm t') p i)) as [o'|];
        [|discriminate].
      intros H; inversion H; subst. right. split; auto. right.
      cbn. destruct (o =? 0); cbn; rewrite Hab; reflexivity.
    + intros H; inversion H; subst. right. split; auto.
  - intros H; inversion H; subst. left. auto.
Qed.

Lemma resolve_registers (fuel : nat) (t : Thread) (p : object) (i : Z)
      (find_ : Heap -> object -> object -> object)
      (makeError : object -> object) (o : object) (t1 : Thread) :
  resolve K M fuel t p i find_ makeError = Some (o, t1) ->
  stack t1 = stack t /\ sp t1 = sp t /\ frame t1 = frame t /\
  ip t1 = ip t /\ code t1 = code t /\
  classInitializer (vm t1) = classInitializer (vm t).
Proof.
  unfold resolve. break_if.
  - destruct (resolveClass_container K M t (arrayBody (vm t) p i))
      as [class_ t'] eqn:E.
    apply resolveClass_container_effect in E.
    destruct E as (_ & Hci & Hs & Hsp & Hf & Hip & Hc).
    break_if.
    + intros H; inversion H; subst; auto 10.
    + destruct (resolveSearch M fuel (vm t') find_ class_
                              (arrayBody (vm t') p i)) as [o'|];
        [|discriminate].
      intros H; inversion H; subst.
      destruct (o =? 0); cbn; auto 10.
  - intros H; inversion H; subst; auto 10.
Qed.

Lemma arrayBody_set_same (h : Heap) (p : object) (i : Z) (v : object) :
  arrayBody (setArrayBody h p i v) p i = v.
Proof. cbn. now rewrite !Z.eqb_refl. Qed.

Lemma arrayBody_set_other (h : Heap) (p : object) (i : Z) (v a : object)
      (j : Z) :
  a <> p \/ j <> i -> arrayBody (setArrayBody h p i v) a j = arrayBody h a j.
Proof.
  intros H. cbn.
  destruct (Z.eqb_spec a p); destruct (Z.eqb_spec j i); cbn; try reflexivity.
  destruct H; contradiction.
Qed.

(** A request either finds its slot resolved and changes nothing, or finds
    it symbolic and then writes at most that slot. *)
Lemma runResolution_effect (fuel : nat) (t : Thread) (r : Resolution)
      (o : object) (t1 : Thread) :
  runResolution K M fuel t r = Some (o, t1) ->
  (o = arrayBody (vm t) (resolutionPool r) (resolutionIndex r) /\ t1 = t) \/
  (~ resolvedEntity K M (vm t)
       (arrayBody (vm t) (resolutionPool r) (resolutionIndex r)) /\
   ((arrayBody (vm t1) = arrayBody (vm t) /\ exception t1 <> 0) \/
    arrayBody (vm t1)
    = arrayBody (setArrayBody (vm t) (resolutionPool r) (resolutionIndex r) o))).
Proof.
  destruct r as [p i | p i | p i]; cbn [runResolution resolutionPool resolutionIndex].
  - intros H. inversion H as [H']. apply resolveClass_effect in H'.
    destruct H' as [(_ & -> & ->) | (Hsym & [(Hvm & He & _) | (Hvm & _)])];
      [left; auto | right | right].
    + split; [intros (Hr & _); contradiction|]. left. now rewrite Hvm.
    + split; [intros (Hr & _); contradiction|]. right. now rewrite Hvm.
  - intros H. apply resolve_effect in H.
    destruct H as [(_ & -> & ->) | (Hsym & [(Hab & He & _) | Hab])];
      [left; auto | right | right];
      (split; [intros (_ & Hr); contradiction|]); auto.
  - intros H. apply resolve_effect in H.
    destruct H as [(_ & -> & ->) | (Hsym & [(Hab & He & _) | Hab])];
      [left; auto | right | right];
      (split; [intros (_ & Hr); contradiction|]); auto.
Qed.

(** The slot a successful request leaves behind holds the result. *)
Lemma runResolution_slot (fuel : nat) (t : Thread) (r : Resolution)
      (f : object) (t1 : Thread) :
  runResolution K M fuel t r = Some (f, t1) ->
  exception t1 = 0 ->
  arrayBody (vm t1) (resolutionPool r) (resolutionIndex r) = f.
Proof.
  intros H He. apply runResolution_effect in H.
  destruct H as [(-> & ->) | (_ & [(_ & Hne) | Hab])].
  - reflexivity.
  - contradiction.
  - rewrite Hab. apply arrayBody_set_same.
Qed.

(** On a resolved slot every request returns the slot and changes nothing. *)
Lemma runResolution_resolved (fuel : nat) (t : Thread) (r : Resolution) :
  resolvedEntity K M (vm t)
    (arrayBody (vm t) (resolutionPool r) (resolutionIndex r)) ->
  runResolution K M fuel t r
  = Some (arrayBody (vm t) (resolutionPool r) (resolutionIndex r), t).
Proof.
  intros (Hb & Hr).
  destruct r as [p i | p i | p i];
    cbn [runResolution resolutionPool resolutionIndex] in *.
  - unfold resolveClass.
    destruct (Z.eqb_spec (objectClass M (arrayBody (vm t) p i))
                         (arrayBody (vm t) (types M) (ByteArrayType K)));
      [contradiction | reflexivity].
  - unfold resolveField, resolve.
    destruct (Z.eqb_spec (objectClass M (arrayBody (vm t) p i))
                         (arrayBody (vm t) (types M) (ReferenceType K)));
      [contradiction | reflexivity].
  - unfold resolveMethod, resolve.
    destruct (Z.eqb_spec (objectClass M (arrayBody (vm t) p i))
                         (arrayBody (vm t) (types M) (ReferenceType K)));
      [contradiction | reflexivity].
Qed.

(** A resolved slot survives any request on a constant pool. *)
Lemma runResolution_preserves (fuel : nat) (t : Thread) (r : Resolution)
      (o : object) (t1 : Thread) (p : object) (i : Z) (f : object) :
  runResolution K M fuel t r = Some (o, t1) ->
  resolutionPool r <> types M ->
  arrayBody (vm t) p i = f ->
  resolvedEntity K M (vm t) f ->
  arrayBody (vm t1) p i = f /\ resolvedEntity K M (vm t1) f.
Proof.
  intros H Hty Hslot Hres. apply runResolution_effect in H.
  destruct H as [(_ & ->) | (Hsym & [(Hab & _) | Hab])].
  - auto.
  - unfold resolvedEntity in *. rewrite Hab. auto.
  - assert (Hother : p <> resolutionPool r \/ i <> resolutionIndex r).
    { destruct (Z.eq_dec p (resolutionPool r)) as [-> | ?]; [|now left].
      destruct (Z.eq_dec i (resolutionIndex r)) as [-> | ?]; [|now right].
      exfalso. apply Hsym. now rewrite Hslot. }
    unfold resolvedEntity in *. rewrite Hab.
    rewrite !arrayBody_set_other by auto. auto.
Qed.

Lemma runResolutions_preserve (fuel : nat) (rs : list Resolution) :
  forall (t t' : Thread) (p : object) (i : Z) (f : object),
    Forall (fun r => resolutionPool r <> types M) rs ->
    runResolutions K M fuel t rs = Some t' ->
    arrayBody (vm t) p i = f ->
    resolvedEntity K M (vm t) f ->
    arrayBody (vm t') p i = f /\ resolvedEntity K M (vm t') f.
Proof.
  induction rs as [| r rs IH]; intros t t' p i f Hall Hrun Hslot Hres.
  - cbn in Hrun. injection Hrun as <-. auto.
  - cbn [runResolutions] in Hrun. apply Forall_cons_iff in Hall. destruct Hall as (Hr & Hrs).
    destruct (runResolution K M fuel t r) as [[o t1]|] eqn:E; [|discriminate].
    destruct (runResolution_preserves _ _ _ _ _ p i f E Hr Hslot Hres)
      as (Hslot1 & Hres1).
    eapply IH; eauto.
Qed.

(** C4 — constant-pool resolution is idempotent and monotonic.  Once a
    request (resolveClass, resolveField or resolveMethod on a pool slot)
    has succeeded and left a resolved entity [f] in the slot, the slot
    holds [f], any request on that slot returns [f] and changes nothing,
    and after any further requests on constant pools the slot still holds
    [f], still resolved, so that requests on it keep returning [f]. *)
Theorem resolution_is_idempotent_and_monotonic
        (fuel : nat) (t : Thread) (r : Resolution) (f : object) (t1 : Thread) :
  runResolution K M fuel t r = Some (f, t1) ->
  exception t1 = 0 ->
  resolvedEntity K M (vm t1) f ->
  arrayBody (vm t1) (resolutionPool r) (resolutionIndex r) = f /\
  (forall fuel' r',
      resolutionPool r' = resolutionPool r ->
      resolutionIndex r' = resolutionIndex r ->
      runResolution K M fuel' t1 r' = Some (f, t1)) /\
  (forall fuel' rs t',
      Forall (fun r' => resolutionPool r' <> types M) rs ->
      runResolutions K M fuel' t1 rs = Some t' ->
      arrayBody (vm t') (resolutionPool r) (resolutionIndex r) = f /\
      resolvedEntity K M (vm t') f /\
      forall fuel'' r',
        resolutionPool r' = resolutionPool r ->
        resolutionIndex r' = resolutionIndex r ->
        runResolution K M fuel'' t' r' = Some (f, t')).
Proof.
  intros Hrun He Hres.
  pose proof (runResolution_slot _ _ _ _ _ Hrun He) as Hslot.
  split; [exact Hslot|]. split.
  - intros fuel' r' Hp Hi. rewrite <- Hslot, <- Hp, <- Hi.
    apply runResolution_resolved. now rewrite Hp, Hi, Hslot.
  - intros fuel' rs t' Hall Hrs.
    destruct (runResolutions_preserve _ _ _ _ _ _ _ Hall Hrs Hslot Hres)
      as (Hslot' & Hres').
    repeat split; try assumption; try apply Hres'.
    intros fuel'' r' Hp Hi. rewrite <- Hslot', <- Hp, <- Hi.
    apply runResolution_resolved. now rewrite Hp, Hi, Hslot'.
Qed.

(** *** Class initialization on static access *)

(** A static access either enters the initializer of the field's class,
    clearing that class's slot, or leaves every initializer slot alone. *)
Lemma getstatic_initializers (fuel : nat) (u u' : Thread) (next : Next) :
  getstatic K M fuel u = Some (u', next) ->
  (next = Invoke /\
   exists k', classInitializer (vm u) k' <> 0 /\
              code u' = classInitializer (vm u) k' /\
              forall c, classInitializer (vm u') c
                        = if c =? k' then 0 else classInitializer (vm u) c) \/
  (next <> Invoke /\ classInitializer (vm u') = classInitializer (vm u)).
Proof.
  unfold getstatic. cbn [fetch fst snd].
  match goal with
  | |- context [resolveField K M fuel ?t2 ?p ?i] =>
    destruct (resolveField K M fuel t2 p i) as [[field t3]|] eqn:E;
      [|discriminate]
  end.
  apply resolve_registers in E. destruct E as (_ & _ & _ & _ & _ & Hci).
  cbn [vm set_ip] in Hci.
  destruct (Z.eqb_spec (exception t3) 0) as [He | He]; cbn [negb].
  - destruct (Z.eqb_spec (classInitializer (vm t3) (fieldClass M field)) 0)
      as [Hc | Hc]; cbn [negb].
    + repeat break_if; intros H; inversion H; subst; right;
        (split; [discriminate | exact Hci]).
    + intros H; inversion H; subst. left. split; [reflexivity|].
      exists (fieldClass M field). rewrite <- Hci.
      split; [exact Hc|]. split; reflexivity.
  - intros H; inversion H; subst. right. split; [discriminate | exact Hci].
Qed.

Lemma putstatic_initializers (fuel : nat) (u u' : Thread) (next : Next) :
  putstatic K M fuel u = Some (u', next) ->
  (next = Invoke /\
   exists k', classInitializer (vm u) k' <> 0 /\
              code u' = classInitializer (vm u) k' /\
              forall c, classInitializer (vm u') c
                        = if c =? k' then 0 else classInitializer (vm u) c) \/
  (next <> Invoke /\ classInitializer (vm u') = classInitializer (vm u)).
Proof.
  unfold putstatic. cbn [fetch fst snd].
  match goal with
  | |- context [resolveField K M fuel ?t2 ?p ?i] =>
    destruct (resolveField K M fuel t2 p i) as [[field t3]|] eqn:E;
      [|discriminate]
  end.
  apply resolve_registers in E. destruct E as (_ & _ & _ & _ & _ & Hci).
  cbn [vm set_ip] in Hci.
  destruct (Z.eqb_spec (exception t3) 0) as [He | He]; cbn [negb].
  - destruct (Z.eqb_spec (classInitializer (vm t3) (fieldClass M field)) 0)
      as [Hc | Hc]; cbn [negb].
    + unfold popLong, popInt, popObject.
      repeat break_if; intros H; inversion H; subst; right;
        (split; [discriminate | exact Hci]).
    + intros H; inversion H; subst. left. split; [reflexivity|].
      exists (fieldClass M field). rewrite <- Hci.
      split; [exact Hc|]. split; reflexivity.
  - intros H; inversion H; subst. right. split; [discriminate | exact Hci].
Qed.

(** C3 — getstatic and putstatic run a class initializer at most once.
    The handler is entered with [ip] one past the opcode.  When the field
    resolves and its class [k] has a non-null initializer slot, both
    opcodes clear the slot, set [code] to the initializer, put [ip] back
    on the opcode (three bytes behind the operands) and go to invoke,
    leaving the operand stack alone.  From any state in which the slot of
    [k] is null, a static access leaves it null, and if it goes to invoke
    it does so for the initializer of another class. *)
Theorem static_access_enters_initializer_once
        (fuel : nat) (t : Thread) (field : object) (t3 : Thread) :
  0 < ip t -> ip t + 2 < 2 ^ 32 ->
  resolveField K M fuel (afterIndex M t) (codePool M (code t))
               (Int.u32 (indexOperand M t - 1)) = Some (field, t3) ->
  exception t3 = 0 ->
  classInitializer (vm t3) (fieldClass M field) <> 0 ->
  exists t',
    getstatic K M fuel t = Some (t', Invoke) /\
    putstatic K M fuel t = Some (t', Invoke) /\
    classInitializer (vm t') (fieldClass M field) = 0 /\
    code t' = classInitializer (vm t3) (fieldClass M field) /\
    ip t' = ip t - 1 /\
    stack t' = stack t /\ sp t' = sp t /\ frame t' = frame t /\
    forall fuel' u u' next,
      classInitializer (vm u) (fieldClass M field) = 0 ->
      getstatic K M fuel' u = Some (u', next) \/
      putstatic K M fuel' u = Some (u', next) ->
      classInitializer (vm u') (fieldClass M field) = 0 /\
      (next = Invoke ->
       exists k', k' <> fieldClass M field /\
                  classInitializer (vm u) k' <> 0 /\
                  code u' = classInitializer (vm u) k').
Proof.
  intros Hip1 Hip2 Hres He Hc.
  exists (enterInitializer t3 (fieldClass M field)
                           (classInitializer (vm t3) (fieldClass M field))).
  pose proof (resolve_registers _ _ _ _ _ _ _ _ Hres)
    as (Hs & Hsp & Hf & Hip & _ & _).
  assert (Hget : forall b : bool, b = negb (exception t3 =? 0) -> b = false).
  { intros b ->. rewrite He. reflexivity. }
  assert (Hcl : negb (classInitializer (vm t3) (fieldClass M field) =? 0) = true).
  { destruct (Z.eqb_spec (classInitializer (vm t3) (fieldClass M field)) 0);
      [contradiction | reflexivity]. }
  split; [|split; [|split; [|split; [|split; [|split; [|split; [|split]]]]]]].
  - unfold getstatic. cbn [fetch fst snd].
    unfold afterIndex, indexOperand, fetch in Hres. cbn [fst snd] in Hres.
    cbn [code set_ip] in Hres |- *. rewrite Hres.
    rewrite (Hget _ eq_refl). rewrite Hcl. reflexivity.
  - unfold putstatic. cbn [fetch fst snd].
    unfold afterIndex, indexOperand, fetch in Hres. cbn [fst snd] in Hres.
    cbn [code set_ip] in Hres |- *. rewrite Hres.
    rewrite (Hget _ eq_refl). rewrite Hcl. reflexivity.
  - cbn. now rewrite Z.eqb_refl.
  - reflexivity.
  - cbn. rewrite Hip. cbn.
    rewrite (u32_small (ip t + 1)) by lia.
    rewrite (u32_small (ip t + 1 + 1)) by lia.
    rewrite u32_small by lia. lia.
  - cbn. rewrite Hs. reflexivity.
  - cbn. rewrite Hsp. reflexivity.
  - cbn. rewrite Hf. reflexivity.
  - intros fuel' u u' next Hnull Hop.
    assert (Hcases :
      (next = Invoke /\
       exists k', classInitializer (vm u) k' <> 0 /\
                  code u' = classInitializer (vm u) k' /\
                  forall c, classInitializer (vm u') c
                            = if c =? k' then 0 else classInitializer (vm u) c) \/
      (next <> Invoke /\ classInitializer (vm u') = classInitializer (vm u))).
    { destruct Hop as [Hop | Hop];
        [eapply getstatic_initializers | eapply putstatic_initializers];
        exact Hop. }
    destruct Hcases as [(_ & k' & Hk' & Hcode & Hall) | (Hnext & Hsame)].
    + split.
      * rewrite Hall. destruct (fieldClass M field =? k'); auto.
      * intros _. exists k'. repeat split; auto.
        intros ->. contradiction.
    + split; [now rewrite Hsame | intros ->; contradiction].
Qed.

End Resolver.

(** ** The exception unwinder *)

Section Unwinder.

Variable K : Constants.
Variable M : ObjectModel.

(** The range test on unsigned values is the interval test of the
    handler entry. *)
Lemma handlerCovers_spec (t : Thread) (f : Z) (eht : object) (i : Z) :
  handlerCovers K M t f eht i = true <->
  Int.u16 (exceptionHandlerStart M eht i) <= frameIp K t f - 1
    < Int.u16 (exceptionHandlerEnd M eht i).
Proof.
  unfold handlerCovers.
  pose proof (u16_range (exceptionHandlerStart M eht i)) as Hs.
  pose proof (u16_range (exceptionHandlerEnd M eht i)) as He.
  assert (Hip : 0 <= frameIp K t f < 2 ^ 32) by apply u32_range.
  change (2 ^ 16) with 65536 in *. change (2 ^ 32) with 4294967296 in *.
  destruct (Z.eq_dec (frameIp K t f) 0) as [Hz | Hnz].
  - rewrite Hz. change (Int.u32 (0 - 1)) with 4294967295.
    rewrite andb_true_iff, Z.leb_le, Z.ltb_lt. lia.
  - rewrite u32_small by (change (2 ^ 32) with 4294967296; lia).
    rewrite andb_true_iff, Z.leb_le, Z.ltb_lt. lia.
Qed.

(** A non-null catch type is the class finder's answer, and the finder
    has left the thread alone. *)
Lemma handlerCatchType_thread (t : Thread) (eht : object) (i : Z) :
  fst (handlerCatchType M t eht i) <> 0 \/
  Int.u16 (exceptionHandlerCatchType M eht i) = 0 ->
  snd (handlerCatchType M t eht i) = t.
Proof.
  unfold handlerCatchType.
  destruct (Z.eqb_spec (Int.u16 (exceptionHandlerCatchType M eht i)) 0)
    as [Hz | Hnz]; cbn [negb].
  - intros _. reflexivity.
  - intros [Hct | Hidx]; [|contradiction].
    destruct (Z.eqb_spec
                (arrayBody (vm t) (codePool M (code t))
                           (Int.u16 (exceptionHandlerCatchType M eht i) - 1)) 0)
      as [Hz' | Hnz']; cbn [negb] in *; [reflexivity|].
    unfold resolveClass_spec in *.
    destruct (classFinder M _); cbn in *; [reflexivity | contradiction].
Qed.

Lemma findHandler_skip (n fuel : nat) (t : Thread) (eht : object) (j : Z) :
  j < exceptionHandlerTableLength M eht ->
  handlerRejects K M fuel t eht j ->
  findHandler K M (S n) fuel t eht j = findHandler K M n fuel t eht (j + 1).
Proof.
  intros Hlen Hrej. cbn [findHandler].
  destruct (Z.ltb_spec j (exceptionHandlerTableLength M eht)); [|lia].
  destruct (handlerCovers K M t (frame t) eht j) eqn:Hcov; [|reflexivity].
  apply handlerCovers_spec in Hcov.
  destruct Hrej as [Hout | (Hct & Hinst)]; [contradiction|].
  pose proof (handlerCatchType_thread t eht j (or_introl Hct)) as Hsame.
  destruct (handlerCatchType M t eht j) as [ct t1]. cbn [fst snd] in *.
  subst t1.
  destruct (Z.eqb_spec ct 0); [contradiction|].
  rewrite Hinst. reflexivity.
Qed.

Lemma handlerCatchType_null (t : Thread) (eht : object) (i : Z) :
  handlerCatchEntry M t eht i = 0 -> handlerCatchType M t eht i = (0, t).
Proof.
  unfold handlerCatchEntry, handlerCatchType. cbv zeta.
  intros H. rewrite H. reflexivity.
Qed.

Lemma findHandler_take (n fuel : nat) (t : Thread) (eht : object) (i : Z) :
  i < exceptionHandlerTableLength M eht ->
  handlerApplies K M fuel t eht i ->
  findHandler K M (S n) fuel t eht i = Some (enterHandler K M t eht i, true).
Proof.
  intros Hlen (Hrange & Hmatch). cbn [findHandler].
  destruct (Z.ltb_spec i (exceptionHandlerTableLength M eht)); [|lia].
  apply handlerCovers_spec in Hrange. rewrite Hrange.
  destruct Hmatch as [Hnull | (Hnz & Hinst)].
  - rewrite (handlerCatchType_null t eht i Hnull). reflexivity.
  - pose proof (handlerCatchType_thread t eht i (or_introl Hnz)) as Hsame.
    destruct (handlerCatchType M t eht i) as [ct t1]. cbn [fst snd] in *.
    subst t1.
    destruct (Z.eqb_spec ct 0); [contradiction|].
    rewrite Hinst. reflexivity.
Qed.

(** The handler loop stops at the first handler that applies. *)
Lemma findHandler_first (fuel : nat) (t : Thread) (eht : object) (i : Z) :
  i < exceptionHandlerTableLength M eht ->
  handlerApplies K M fuel t eht i ->
  forall (n : nat) (j : Z),
    0 <= j <= i -> i - j < Z.of_nat n ->
    (forall j', j <= j' < i -> handlerRejects K M fuel t eht j') ->
    findHandler K M n fuel t eht j = Some (enterHandler K M t eht i, true).
Proof.
  intros Hlen Happ. induction n as [| n IH]; intros j Hj Hn Hrej; [lia|].
  destruct (Z.eq_dec j i) as [-> | Hne].
  - now apply findHandler_take.
  - rewrite findHandler_skip by (try apply Hrej; lia).
    apply IH; try lia. intros j' Hj'. apply Hrej. lia.
Qed.

(** The handler loop falls through when no handler applies. *)
Lemma findHandler_none (fuel : nat) (t : Thread) (eht : object) :
  forall (n : nat) (j : Z),
    (forall j', j <= j' < exceptionHandlerTableLength M eht ->
                handlerRejects K M fuel t eht j') ->
    findHandler K M n fuel t eht j = Some (t, false).
Proof.
  induction n as [| n IH]; intros j Hrej; [reflexivity|].
  destruct (Z.ltb_spec j (exceptionHandlerTableLength M eht)) as [Hlt | Hge].
  - rewrite findHandler_skip by (try apply Hrej; lia).
    apply IH. intros j' Hj'. apply Hrej. lia.
  - cbn [findHandler].
    destruct (Z.ltb_spec j (exceptionHandlerTableLength M eht)); [lia|].
    reflexivity.
Qed.

(** The frame loop passes the unhandled frames of a walk. *)
Lemma unwind_walk (fuel : nat) (t tf : Thread) (k : nat) :
  Walk K M fuel t tf k ->
  forall n, unwind K M (k + n) fuel t = unwind K M n fuel tf.
Proof.
  induction 1 as [t | t t' k (Hframe & Hnat & Hun) Hwalk IH]; intros n;
    [reflexivity|].
  cbn [Nat.add unwind].
  destruct (Z.geb_spec (frame t) 0) as [_ | Hneg]; [|lia].
  unfold frameIsNative in Hnat. rewrite Hnat.
  fold (visit K M t).
  destruct (Z.eqb_spec (codeExceptionHandlerTable M (code (visit K M t))) 0)
    as [Hz | Hnz]; cbn [negb].
  - apply IH.
  - cbn zeta in Hun. destruct Hun as [Hz | Hrej]; [contradiction|].
    rewrite findHandler_none by (intros j' Hj'; apply Hrej; lia).
    apply IH.
Qed.

Lemma Walk_fields (fuel : nat) (t tf : Thread) (k : nat) :
  Walk K M fuel t tf k ->
  stack tf = stack t /\ exception tf = exception t /\ vm tf = vm t.
Proof.
  induction 1 as [t | t t' k _ _ (Hs & He & Hv)]; [auto|].
  rewrite Hs, He, Hv. auto.
Qed.

Lemma handlerCatchType_vm (t : Thread) (eht : object) (i : Z) :
  vm (snd (handlerCatchType M t eht i)) = vm t.
Proof.
  unfold handlerCatchType. destruct (negb (_ =? 0)); [|reflexivity].
  unfold resolveClass_spec. destruct (classFinder M _); reflexivity.
Qed.

Lemma findHandler_vm (fuel : nat) (eht : object) :
  forall (n : nat) (t : Thread) (j : Z) (t' : Thread) (b : bool),
    findHandler K M n fuel t eht j = Some (t', b) -> vm t' = vm t.
Proof.
  induction n as [| n IH]; intros t j t' b; cbn [findHandler].
  - intros H. now inversion H.
  - destruct (j <? exceptionHandlerTableLength M eht);
      [|intros H; now inversion H].
    destruct (handlerCovers K M t (frame t) eht j); [|apply IH].
    pose proof (handlerCatchType_vm t eht j) as Hvm.
    destruct (handlerCatchType M t eht j) as [ct t1]. cbn [snd] in Hvm.
    destruct (if ct =? 0 then Some true
              else instanceOf K M fuel (vm t1) ct (exception t1))
      as [[|]|]; [| |discriminate].
    + intros H. inversion H. subst. cbn. exact Hvm.
    + intros H. rewrite <- Hvm. eapply IH. exact H.
Qed.

(** The unwinder releases no monitor: whatever frames it leaves, the
    ownership counts are the ones it started with. *)
Lemma unwind_releases_nothing (fuel : nat) :
  forall (n : nat) (t t' : Thread) (next : Next),
    unwind K M n fuel t = Some (t', next) ->
    monitorCount (vm t') = monitorCount (vm t).
Proof.
  induction n as [| n IH]; intros t t' next; cbn [unwind]; [discriminate|].
  destruct (frame t >=? 0); [|intros H; now inversion H].
  destruct (flagSet _ _); [intros H; now inversion H|].
  match goal with
  | |- context [if ?b then findHandler K M ?m fuel ?u ?e 0 else _] =>
    destruct b;
      [destruct (findHandler K M m fuel u e 0) as [[t2 [|]]|] eqn:E;
       [| |discriminate] |]
  end.
  - intros H. inversion H. subst. apply findHandler_vm in E. now rewrite E.
  - intros H. apply IH in H. apply findHandler_vm in E.
    cbn in H, E. now rewrite H, E.
  - intros H. apply IH in H. exact H.
Qed.

(** X30 — the unwinder releases no monitor: whenever it returns, in a
    handler or without one, every ownership count is what it was when the
    exception was thrown, the frames of synchronized methods it left
    included. *)
Lemma throw_releases_nothing (n fuel : nat) (t t' : Thread) (next : Next) :
  throw_ K M n fuel t = Some (t', next) ->
  monitorCount (vm t') = monitorCount (vm t).
Proof. unfold throw_. intros H. now apply unwind_releases_nothing in H. Qed.

(** Where the catch types consulted are null or loadable, the unwinder
    enters the first applicable handler.  With an exception pending the
    unwinder saves [ip] in the current frame and walks the frames towards
    the root.  If it passes [k] bytecode frames in which no handler applies
    and arrives at a bytecode frame whose handler [i] is the first that
    applies (its range contains the saved ip minus one, its catch type is
    null or a class of the exception), then it continues at the dispatch
    loop in that frame with the operand stack cut at
    [frame + FrameFootprint], the exception pushed as the only operand,
    [ip] at the handler's entry and no exception pending. *)
Lemma unwinder_enters_first_applicable_handler
      (fuel k n : nat) (t tf : Thread) (eht : object) (i : Z) :
  Walk K M fuel (pokeInt K t (frame t + FrameIpOffset K) (ip t)) tf k ->
  0 <= frame tf ->
  frameIsNative K M tf = false ->
  eht = codeExceptionHandlerTable M (code (visit K M tf)) ->
  eht <> 0 ->
  0 <= i < exceptionHandlerTableLength M eht ->
  handlerApplies K M fuel (visit K M tf) eht i ->
  (forall j, 0 <= j < i -> handlerRejects K M fuel (visit K M tf) eht j) ->
  0 <= FrameFootprint K ->
  frame tf + FrameFootprint K + 1 < 2 ^ 32 ->
  (k < n)%nat ->
  exists t',
    throw_ K M n fuel t = Some (t', Loop) /\
    frame t' = frame tf /\
    code t' = methodCode M (frameMethod K tf (frame tf)) /\
    sp t' = frame tf + FrameFootprint K + 1 /\
    peekObject t' (frame tf + FrameFootprint K) = exception t /\
    ip t' = Int.u16 (exceptionHandlerIp M eht i) /\
    exception t' = 0.
Proof.
  intros Hwalk Hframe Hnat Heht Hnz Hi Happ Hrej Hfoot Hsp Hk.
  exists (enterHandler K M (visit K M tf) eht i).
  pose proof (Walk_fields _ _ _ _ Hwalk) as (_ & Hexc & _).
  cbn [exception pokeInt set_stack] in Hexc.
  assert (Hslot : Int.u32 (frame tf + FrameFootprint K)
                  = frame tf + FrameFootprint K)
    by (apply u32_small; lia).
  split; [|repeat split].
  - unfold throw_.
    replace n with (k + S (n - S k))%nat by lia.
    rewrite (unwind_walk _ _ _ _ Hwalk). cbn [unwind].
    destruct (Z.geb_spec (frame tf) 0) as [_ | Hneg]; [|lia].
    unfold frameIsNative in Hnat. rewrite Hnat.
    fold (visit K M tf). rewrite <- Heht.
    destruct (Z.eqb_spec eht 0) as [? | _]; [contradiction|]. cbn [negb].
    rewrite (findHandler_first fuel (visit K M tf) eht i) by
        (try assumption; try lia; intros j' Hj'; apply Hrej; lia).
    reflexivity.
  - cbn. rewrite Hslot. apply u32_small. lia.
  - unfold peekObject, enterHandler, pushObject.
    cbn [stack sp set_sp set_stack set_ip set_exception exception].
    cbn [frame visit set_code]. rewrite Hslot.
    rewrite poke_same. cbn. exact Hexc.
Qed.

End Unwinder.

(** ** The frame manager *)

Section FrameManager.
Variable K : Constants.
Variable M : ObjectModel.

(** The words of a frame record read back what [pushFrame] stored. *)
Lemma frame_record_reads (t3 : Thread) (f base : Z) (method : object) :
  frameLayoutOk K ->
  Int.s32 f = f ->
  let t4 := pokeInt K t3 (f + FrameNextOffset K) (frame t3) in
  let t5 := set_frame t4 (Int.s32 f) in
  let t6 := set_sp t5 (Int.u32 (f + FrameFootprint K)) in
  let t7 := pokeInt K t6 (f + FrameBaseOffset K) base in
  let t8 := pokeObject K t7 (f + FrameMethodOffset K) method in
  let t9 := pokeInt K t8 (frame t8 + FrameIpOffset K) 0 in
  frame t9 = f /\ frameMethod K t9 f = method /\
  frameBase K t9 f = Int.u32 base /\ frameNext K t9 f = Int.s32 (Int.u32 (frame t3)) /\
  vm t9 = vm t3.
Proof.
  intros (_ & _ & _ & _ & Hbn & Hbm & Hbi & Hnm & Hni & Hmi) Hf. cbv zeta.
  unfold frameMethod, frameBase, frameNext, peekObject, peekInt, pokeInt, pokeObject.
  cbn [stack frame vm set_stack set_frame set_sp].
  rewrite Hf.
  repeat split.
  - rewrite !poke_other by lia. apply poke_same.
  - rewrite !poke_other by lia. rewrite poke_same. now rewrite u32_idempotent.
  - rewrite !poke_other by lia. rewrite poke_same. now rewrite u32_idempotent.
Qed.

(** [popFrame] touches the heap only to release the frame's monitor. *)
Lemma popFrame_vm_release (u : Thread) (method : object) (base : Z) :
  frameMethod K u (frame u) = method ->
  frameBase K u (frame u) = base ->
  vm (popFrame K M u)
  = if flagSet (methodFlags M method) (ACC_SYNCHRONIZED K)
    then vm (release u (methodMonitor K M u method base)) else vm u.
Proof.
  intros Hm Hb. unfold popFrame. rewrite Hm, Hb.
  destruct (flagSet (methodFlags M method) (ACC_SYNCHRONIZED K)).
  - match goal with |- context [if ?c then _ else _] => destruct c end; reflexivity.
  - match goal with |- context [if ?c then _ else _] => destruct c end; reflexivity.
Qed.

(** X29 — entry and normal exit are balanced: a frame pushed and popped
    leaves every ownership count as it was. *)
Lemma pushFrame_popFrame_balanced (t : Thread) (method : object) :
  frameLayoutOk K ->
  0 <= frame (pushFrame K M t method) ->
  forall o,
    monitorCount (vm (popFrame K M (pushFrame K M t method))) o
    = monitorCount (vm t) o.
Proof.
  intros Hlayout Hframe o.
  assert (Hshape : exists (u : Thread) (base : Z),
             pushFrame K M t method
             = (if flagSet (methodFlags M method) (ACC_SYNCHRONIZED K)
                then acquire u (methodMonitor K M u method base) else u) /\
             frameMethod K u (frame u) = method /\
             frameBase K u (frame u) = base /\
             vm u = vm t).
  { revert Hframe. unfold pushFrame.
    set (t1 := if frame t >=? 0 then _ else t).
    assert (Hvm1 : vm t1 = vm t)
      by (subst t1; destruct (frame t >=? 0); reflexivity).
    set (pf := Int.u32 (methodParameterFootprint M method)).
    set (base := Int.u32 (sp (set_ip t1 0) - pf)).
    destruct (negb (flagSet (methodFlags M method) (ACC_NATIVE K)));
      cbv zeta;
      match goal with
      | |- context [pokeInt K ?t3 (Int.u32 (base + ?locals) + FrameNextOffset K) _] =>
        intros Hframe;
        assert (Hf : Int.s32 (Int.u32 (base + locals)) = Int.u32 (base + locals))
          by (apply s32_nonneg; [apply u32_range|];
              destruct (flagSet (methodFlags M method) (ACC_SYNCHRONIZED K));
              exact Hframe);
        pose proof (frame_record_reads t3 (Int.u32 (base + locals)) base method
                                       Hlayout Hf) as Hreads;
        cbv zeta in Hreads;
        destruct Hreads as (Hfr & Hm & Hb & _ & Hvm)
      end;
      eexists; exists base;
        (split; [reflexivity|]); rewrite Hfr;
        (split; [exact Hm|]);
        (split; [rewrite Hb; subst base; apply u32_idempotent|]);
        rewrite Hvm; exact Hvm1. }
  destruct Hshape as (u & base & -> & Hm & Hb & Hvm).
  destruct (flagSet (methodFlags M method) (ACC_SYNCHRONIZED K)) eqn:Hsync.
  - rewrite (popFrame_vm_release
               (acquire u (methodMonitor K M u method base)) method base Hm Hb).
    rewrite Hsync.
    change (methodMonitor K M (acquire u (methodMonitor K M u method base))
                          method base)
      with (methodMonitor K M u method base).
    set (mon := methodMonitor K M u method base).
    cbn. rewrite Z.eqb_refl, Hvm.
    destruct (o =? mon) eqn:Ho; [|reflexivity].
    apply Z.eqb_eq in Ho. subst o. lia.
  - rewrite (popFrame_vm_release u method base Hm Hb).
    rewrite Hsync. now rewrite Hvm.
Qed.
End FrameManager.

(** ** The general statements on the concrete machine *)

Module Witnesses.
Import Demo.

Lemma null_operand_witness :
  peekObject nullOnTop (Int.u32 (sp nullOnTop - 1)) = 0 /\
  checkcast K0 M0 0 nullOnTop = Some (afterIndex M0 nullOnTop, Loop) /\
  instanceof K0 M0 0 nullOnTop
  = Some (pushInt K0 (afterIndex M0 nullOnTop) 0, Loop) /\
  classFinder M0 (arrayBody (vm nullOnTop) callerPool 3) = inr linkError.
Proof.
  split; [reflexivity|].
  destruct (null_operand_is_never_resolved K0 M0 0 nullOnTop eq_refl)
    as (Hcheck & Hinst & _).
  split; [exact Hcheck|]. split; [exact Hinst|]. reflexivity.
Defined.

Lemma static_access_witness :
  resolveField K0 M0 2 (afterIndex M0 staticAccess)
               (codePool M0 (code staticAccess))
               (Int.u32 (indexOperand M0 staticAccess - 1))
  = Some (fieldX, afterResolution) /\
  classInitializer (vm afterResolution) (fieldClass M0 fieldX) = clinitMethod /\
  exists t',
    getstatic K0 M0 2 staticAccess = Some (t', Invoke) /\
    putstatic K0 M0 2 staticAccess = Some (t', Invoke) /\
    classInitializer (vm t') mainClass = 0 /\
    code t' = clinitMethod /\
    ip t' = 27.
Proof.
  assert (Hres : resolveField K0 M0 2 (afterIndex M0 staticAccess)
                   (codePool M0 (code staticAccess))
                   (Int.u32 (indexOperand M0 staticAccess - 1))
                 = Some (fieldX, afterResolution))
    by (vm_compute; reflexivity).
  split; [exact Hres|]. split; [reflexivity|].
  destruct (static_access_enters_initializer_once
              K0 M0 2 staticAccess fieldX afterResolution)
    as (t' & Hget & Hput & Hclear & Hcode & Hip & _).
  - vm_compute; reflexivity.
  - vm_compute; reflexivity.
  - exact Hres.
  - reflexivity.
  - vm_compute; discriminate.
  - exists t'. repeat split; assumption.
Defined.

Lemma resolution_witness :
  runResolution K0 M0 2 inCaller (ResolveField callerPool 2)
  = Some (fieldX, resolvedX) /\
  exception resolvedX = 0 /\
  resolvedEntity K0 M0 (vm resolvedX) fieldX /\
  arrayBody (vm resolvedX) callerPool 2 = fieldX /\
  runResolution K0 M0 0 resolvedX (ResolveField callerPool 2)
  = Some (fieldX, resolvedX).
Proof.
  assert (Hrun : runResolution K0 M0 2 inCaller (ResolveField callerPool 2)
                 = Some (fieldX, resolvedX))
    by (vm_compute; reflexivity).
  assert (Hres : resolvedEntity K0 M0 (vm resolvedX) fieldX)
    by (split; vm_compute; discriminate).
  destruct (resolution_is_idempotent_and_monotonic
              K0 M0 2 inCaller (ResolveField callerPool 2) fieldX resolvedX
              Hrun eq_refl Hres)
    as (Hslot & Hagain & _).
  split; [exact Hrun|]. split; [reflexivity|]. split; [exact Hres|].
  split; [exact Hslot|].
  exact (Hagain 0%nat (ResolveField callerPool 2) eq_refl eq_refl).
Defined.

Lemma unwinder_witness :
  Walk K0 M0 3 saved atCaller 1 /\
  frameIsNative K0 M0 atCaller = false /\
  handlerApplies K0 M0 3 (visit K0 M0 atCaller) callerHandlers 2 /\
  (forall j, 0 <= j < 2 ->
             handlerRejects K0 M0 3 (visit K0 M0 atCaller) callerHandlers j) /\
  exists t',
    throw_ K0 M0 2 3 throwing = Some (t', Loop) /\
    frame t' = 2 /\ code t' = callerCode /\ sp t' = 7 /\
    peekObject t' 6 = thrown /\ ip t' = 60 /\ exception t' = 0.
Proof.
  assert (Hwalk : Walk K0 M0 3 saved atCaller 1).
  { apply Walk_next; [|apply Walk_here].
    split; [vm_compute; discriminate|].
    split; [reflexivity|]. left. reflexivity. }
  assert (Happ : handlerApplies K0 M0 3 (visit K0 M0 atCaller) callerHandlers 2).
  { split.
    - vm_compute. split; [discriminate | reflexivity].
    - right. split; [vm_compute; discriminate | vm_compute; reflexivity]. }
  assert (Hrej : forall j, 0 <= j < 2 ->
              handlerRejects K0 M0 3 (visit K0 M0 atCaller) callerHandlers j).
  { intros j Hj. assert (Hcase : j = 0 \/ j = 1) by lia.
    destruct Hcase as [-> | ->].
    - left. vm_compute. intros [H _]. apply H. reflexivity.
    - right. split; [vm_compute; discriminate | vm_compute; reflexivity]. }
  split; [exact Hwalk|]. split; [reflexivity|]. split; [exact Happ|].
  split; [exact Hrej|].
  destruct (unwinder_enters_first_applicable_handler
              K0 M0 3 1 2 throwing atCaller callerHandlers 2)
    as (t' & Hthrow & Hframe & Hcode & Hsp & Hpeek & Hip & Hexc).
  - exact Hwalk.
  - vm_compute; discriminate.
  - reflexivity.
  - reflexivity.
  - vm_compute; discriminate.
  - vm_compute. split; [discriminate | reflexivity].
  - exact Happ.
  - exact Hrej.
  - vm_compute; discriminate.
  - vm_compute; reflexivity.
  - lia.
  - exists t'. split; [exact Hthrow|]. split; [exact Hframe|].
    split; [exact Hcode|]. split; [exact Hsp|].
    split; [exact Hpeek|].
    split; [exact Hip | exact Hexc].
Defined.

End Witnesses.

(** * Further properties of the interpreter *)

(** ** Type tests and the class hierarchy *)

Section Hierarchy.
Variable K : Constants.
Variable M : ObjectModel.

Lemma superAt_next (n : nat) (c : object) :
  superAt M (S n) c = classSuper M (superAt M n c).
Proof.
  revert c. induction n as [| n IH]; intros c; [reflexivity|].
  change (superAt M (S (S n)) c) with (superAt M (S n) (classSuper M c)).
  rewrite IH. reflexivity.
Qed.

Lemma chainAlive_step (n : nat) (c : object) :
  chainAlive M (S n) c <-> c <> 0 /\ chainAlive M n (classSuper M c).
Proof.
  unfold chainAlive. split.
  - intros H. split; [apply (H O); lia|].
    intros k Hk. apply (H (S k)). lia.
  - intros (Hc & H) [| k] Hk; [exact Hc|]. apply H. lia.
Qed.

(** The class walk answers true exactly when the target is met on the
    chain before the fuel ends. *)
Lemma instanceOfClass_true (fuel : nat) :
  forall oc class_,
    instanceOfClass M fuel oc class_ = Some true <->
    exists n, (n < fuel)%nat /\ chainAlive M (S n) oc /\ superAt M n oc = class_.
Proof.
  induction fuel as [| fuel IH]; intros oc class_; cbn [instanceOfClass].
  - split; [discriminate | intros (n & Hn & _); lia].
  - destruct (Z.eqb_spec oc 0) as [Hz | Hnz].
    + split; [discriminate|].
      intros (n & _ & Halive & _). apply chainAlive_step in Halive.
      destruct Halive as (Hc & _). contradiction.
    + destruct (Z.eqb_spec oc class_) as [He | Hne].
      * split; [|reflexivity]. intros _. exists O.
        split; [lia|]. split; [|exact He].
        apply chainAlive_step. split; [exact Hnz|]. intros k Hk. lia.
      * rewrite IH. split.
        -- intros (n & Hn & Halive & Hat). exists (S n).
           split; [lia|]. split; [|exact Hat].
           apply chainAlive_step. auto.
        -- intros ([| n] & Hn & Halive & Hat); [contradiction|].
           exists n. split; [lia|]. split; [|exact Hat].
           apply chainAlive_step in Halive. apply Halive.
Qed.

(** It answers false exactly when the chain ends before the fuel does
    without meeting the target. *)
Lemma instanceOfClass_false (fuel : nat) :
  forall oc class_,
    instanceOfClass M fuel oc class_ = Some false <->
    exists n, (n < fuel)%nat /\ chainAlive M n oc /\ superAt M n oc = 0 /\
              forall k, (k < n)%nat -> superAt M k oc <> class_.
Proof.
  induction fuel as [| fuel IH]; intros oc class_; cbn [instanceOfClass].
  - split; [discriminate | intros (n & Hn & _); lia].
  - destruct (Z.eqb_spec oc 0) as [Hz | Hnz].
    + split; [|reflexivity]. intros _. exists O.
      split; [lia|]. split; [intros k Hk; lia|].
      split; [exact Hz | intros k Hk; lia].
    + destruct (Z.eqb_spec oc class_) as [He | Hne].
      * split; [discriminate|].
        intros ([| n] & _ & _ & Hend & Hmiss); [contradiction|].
        exfalso. apply (Hmiss O); [lia | exact He].
      * rewrite IH. split.
        -- intros (n & Hn & Halive & Hend & Hmiss). exists (S n).
           split; [lia|]. split; [apply chainAlive_step; auto|].
           split; [exact Hend|].
           intros [| k] Hk; [exact Hne | apply Hmiss; lia].
        -- intros ([| n] & Hn & Halive & Hend & Hmiss); [contradiction|].
           exists n. split; [lia|].
           apply chainAlive_step in Halive. split; [apply Halive|].
           split; [exact Hend|].
           intros k Hk. apply (Hmiss (S k)). lia.
Qed.

(** The scan of an interface table looks at the even indices below the
    length, and only at those. *)
Lemma scanInterfaceTable_spec (h : Heap) (itable class_ : object) :
  forall (n : nat) (i : Z),
    arrayLength M itable - i <= Z.of_nat n ->
    (scanInterfaceTable M n h itable i class_ = true <->
     exists k, 0 <= k /\ i + 2 * k < arrayLength M itable /\
               arrayBody h itable (i + 2 * k) = class_).
Proof.
  induction n as [| n IH]; intros i Hn; cbn [scanInterfaceTable].
  - split; [discriminate | intros (k & Hk & Hlt & _); lia].
  - destruct (Z.ltb_spec i (arrayLength M itable)) as [Hlt | Hge].
    + destruct (Z.eqb_spec (arrayBody h itable i) class_) as [He | Hne].
      * split; [|reflexivity]. intros _. exists 0.
        rewrite Z.mul_0_r, Z.add_0_r. auto with zarith.
      * rewrite IH by lia. split.
        -- intros (k & Hk & Hklt & Hbody). exists (k + 1).
           replace (i + 2 * (k + 1)) with (i + 2 + 2 * k) by lia.
           auto with zarith.
        -- intros (k & Hk & Hklt & Hbody).
           destruct (Z.eq_dec k 0) as [-> | Hk0].
           ++ rewrite Z.mul_0_r, Z.add_0_r in Hbody. contradiction.
           ++ exists (k - 1).
              replace (i + 2 + 2 * (k - 1)) with (i + 2 * k) by lia.
              split; [lia | auto].
    + split; [discriminate | intros (k & Hk & Hklt & _); lia].
Qed.

Lemma instanceOfInterface_true (h : Heap) (class_ : object) (fuel : nat) :
  forall oc,
    instanceOfInterface M fuel h oc class_ = Some true <->
    exists n, (n < fuel)%nat /\ chainAlive M (S n) oc /\
              exists k, 0 <= k /\
                        2 * k < arrayLength M (classInterfaceTable M (superAt M n oc)) /\
                        arrayBody h (classInterfaceTable M (superAt M n oc)) (2 * k)
                        = class_.
Proof.
  induction fuel as [| fuel IH]; intros oc; cbn [instanceOfInterface].
  - split; [discriminate | intros (n & Hn & _); lia].
  - destruct (Z.eqb_spec oc 0) as [Hz | Hnz].
    + split; [discriminate|].
      intros (n & _ & Halive & _). apply chainAlive_step in Halive.
      destruct Halive as (Hc & _). contradiction.
    + pose proof (scanInterfaceTable_spec h (classInterfaceTable M oc) class_
                    (Z.to_nat (arrayLength M (classInterfaceTable M oc))) 0)
        as Hscan.
      destruct (scanInterfaceTable M _ h (classInterfaceTable M oc) 0 class_).
      * split; [|reflexivity]. intros _. exists O.
        split; [lia|]. split.
        -- apply chainAlive_step. split; [exact Hnz|]. intros k Hk. lia.
        -- apply Hscan; [lia | reflexivity].
      * rewrite IH. split.
        -- intros (n & Hn & Halive & Hk). exists (S n).
           split; [lia|]. split; [apply chainAlive_step; auto | exact Hk].
        -- intros ([| n] & Hn & Halive & Hk).
           ++ exfalso. cbn [superAt] in Hk.
              assert (Hno : false = true) by (apply Hscan; [lia | exact Hk]).
              discriminate.
           ++ exists n. split; [lia|].
              apply chainAlive_step in Halive. split; [apply Halive | exact Hk].
Qed.

Lemma instanceOfClass_defined (class_ : object) :
  forall (n : nat) (oc : object) (fuel : nat),
    superAt M n oc = 0 -> (n < fuel)%nat ->
    instanceOfClass M fuel oc class_ = instanceOfClass M (S n) oc class_ /\
    exists b, instanceOfClass M (S n) oc class_ = Some b.
Proof.
  induction n as [| n IH]; intros oc [| fuel] Hend Hfuel; try lia.
  - cbn in Hend. subst oc. cbn. eauto.
  - cbn [superAt] in Hend. cbn [instanceOfClass].
    destruct (oc =? 0); [eauto|]. destruct (oc =? class_); [eauto|].
    apply IH; [exact Hend | lia].
Qed.

Lemma instanceOfInterface_defined (h : Heap) (class_ : object) :
  forall (n : nat) (oc : object) (fuel : nat),
    superAt M n oc = 0 -> (n < fuel)%nat ->
    instanceOfInterface M fuel h oc class_
    = instanceOfInterface M (S n) h oc class_ /\
    exists b, instanceOfInterface M (S n) h oc class_ = Some b.
Proof.
  induction n as [| n IH]; intros oc [| fuel] Hend Hfuel; try lia.
  - cbn in Hend. subst oc. cbn. eauto.
  - cbn [superAt] in Hend. cbn [instanceOfInterface].
    destruct (oc =? 0); [eauto|].
    destruct (scanInterfaceTable M _ h (classInterfaceTable M oc) 0 class_);
      [eauto|].
    apply IH; [exact Hend | lia].
Qed.

(** X1 — for a target that is not an interface, [instanceOf] answers true
    exactly when the target is the object's class or one of its
    superclasses, met on the chain before the fuel ends. *)
Theorem instanceOf_walks_the_superclasses
        (fuel : nat) (h : Heap) (class_ o : object) :
  o <> 0 ->
  flagSet (classFlags M class_) (ACC_INTERFACE K) = false ->
  (instanceOf K M fuel h class_ o = Some true <->
   exists n, (n < fuel)%nat /\ chainAlive M (S n) (objectClass M o) /\
             superAt M n (objectClass M o) = class_).
Proof.
  intros Ho Hflag. unfold instanceOf.
  destruct (Z.eqb_spec o 0); [contradiction|]. rewrite Hflag.
  apply instanceOfClass_true.
Qed.

(** X2 — for an interface target, and an object whose class and
    superclasses have each an interface table, [instanceOf] answers true
    exactly when the interface stands at an even index of the interface
    table of the object's class or of one of its superclasses; the odd
    entries, which hold the dispatch arrays, are never compared. *)
Theorem instanceOf_scans_the_interface_tables
        (fuel : nat) (h : Heap) (class_ o : object) :
  o <> 0 ->
  flagSet (classFlags M class_) (ACC_INTERFACE K) = true ->
  interfaceTablesPresent M fuel (objectClass M o) ->
  (instanceOf K M fuel h class_ o = Some true <->
   exists n, (n < fuel)%nat /\ chainAlive M (S n) (objectClass M o) /\
             exists k, 0 <= k /\
               2 * k < arrayLength M (classInterfaceTable M
                                        (superAt M n (objectClass M o))) /\
               arrayBody h (classInterfaceTable M
                              (superAt M n (objectClass M o))) (2 * k)
               = class_).
Proof.
  intros Ho Hflag _. unfold instanceOf.
  destruct (Z.eqb_spec o 0); [contradiction|]. rewrite Hflag.
  apply instanceOfInterface_true.
Qed.

(** X3 — on a hierarchy that ends, [instanceOf] returns: if the [n]-th
    superclass of the object's class is null and, for an interface target,
    the [n] classes before it have each an interface table, every fuel
    above [n] gives the same answer. *)
Theorem instanceOf_returns_on_a_finite_chain
        (n fuel fuel' : nat) (h : Heap) (class_ o : object) :
  superAt M n (objectClass M o) = 0 ->
  (n < fuel)%nat -> (n < fuel')%nat ->
  (flagSet (classFlags M class_) (ACC_INTERFACE K) = true ->
   interfaceTablesPresent M n (objectClass M o)) ->
  exists b, instanceOf K M fuel h class_ o = Some b /\
            instanceOf K M fuel' h class_ o = Some b.
Proof.
  intros Hend Hf Hf' _. unfold instanceOf.
  destruct (o =? 0); [eauto|].
  destruct (flagSet (classFlags M class_) (ACC_INTERFACE K)).
  - destruct (instanceOfInterface_defined h class_ n _ fuel Hend Hf)
      as (E1 & b & Hb).
    destruct (instanceOfInterface_defined h class_ n _ fuel' Hend Hf')
      as (E2 & _).
    exists b. rewrite E1, E2. auto.
  - destruct (instanceOfClass_defined class_ n _ fuel Hend Hf) as (E1 & b & Hb).
    destruct (instanceOfClass_defined class_ n _ fuel' Hend Hf') as (E2 & _).
    exists b. rewrite E1, E2. auto.
Qed.

(** X4 — [isSuperclass] is the strict part of [instanceOf]: it answers true
    exactly for the proper superclasses of [base], and then every object
    whose class is [base] is an instance of the class. *)
Theorem isSuperclass_is_strict_instanceOf
        (fuel : nat) (h : Heap) (class_ base o : object) :
  o <> 0 -> objectClass M o = base -> base <> 0 ->
  flagSet (classFlags M class_) (ACC_INTERFACE K) = false ->
  (isSuperclass M fuel class_ base = Some true <->
   exists n, (n < fuel)%nat /\ chainAlive M (S n) (classSuper M base) /\
             superAt M (S n) base = class_) /\
  (isSuperclass M fuel class_ base = Some true ->
   instanceOf K M (S fuel) h class_ o = Some true).
Proof.
  intros Ho Hclass Hbase Hflag.
  assert (Hiff : isSuperclass M fuel class_ base = Some true <->
                 exists n, (n < fuel)%nat /\
                           chainAlive M (S n) (classSuper M base) /\
                           superAt M (S n) base = class_).
  { unfold isSuperclass. rewrite instanceOfClass_true. reflexivity. }
  split; [exact Hiff|].
  intros Hsuper. apply Hiff in Hsuper.
  destruct Hsuper as (n & Hn & Halive & Hat).
  unfold instanceOf. destruct (Z.eqb_spec o 0); [contradiction|].
  rewrite Hflag. apply instanceOfClass_true.
  exists (S n). rewrite Hclass. split; [lia|].
  split; [|exact Hat]. apply chainAlive_step. auto.
Qed.

End Hierarchy.

(** ** Lookup by name and by interface *)

Section Lookup.
Variable M : ObjectModel.
Variable X : Extras.

(** X5 — the string comparison of [find] compares C strings: two byte
    arrays are equal for it exactly when they agree up to their first zero
    byte, whatever follows it. *)
Theorem strcmp_eq_compares_c_strings (a b : list Z) :
  strcmp_eq a b = true <-> cstring a = cstring b.
Proof.
  revert b. induction a as [| x a IH]; intros [| y b]; cbn [strcmp_eq cstring].
  - split; reflexivity.
  - destruct (y =? 0); split; (reflexivity || discriminate).
  - destruct (x =? 0); split; (reflexivity || discriminate).
  - destruct (Z.eqb_spec x 0) as [Hx | Hx].
    + destruct (y =? 0); split; (reflexivity || discriminate).
    + destruct (Z.eqb_spec y 0) as [Hy | Hy].
      * destruct (Z.eqb_spec x y) as [He | He]; [congruence|].
        cbn. split; discriminate.
      * destruct (Z.eqb_spec x y) as [He | He]; cbn [andb].
        -- rewrite IH. subst y. split; [intros ->; reflexivity|].
           intros H. now inversion H.
        -- split; [discriminate|]. intros H. inversion H. contradiction.
Qed.

Lemma findFrom_first (h : Heap) (table reference : object)
      (name spec : object -> object) (j : Z) :
  j < arrayLength M table ->
  entryMatches M h table reference name spec j = true ->
  forall (n : nat) (i : Z),
    i <= j -> j - i < Z.of_nat n ->
    (forall j', i <= j' < j ->
                entryMatches M h table reference name spec j' = false) ->
    findFrom M n h table i (referenceName M reference)
             (referenceSpec M reference) name spec
    = arrayBody h table j.
Proof.
  intros Hlen Hmatch. induction n as [| n IH]; intros i Hi Hn Hmiss; [lia|].
  cbn [findFrom].
  destruct (Z.ltb_spec i (arrayLength M table)); [|lia].
  destruct (Z.eq_dec i j) as [-> | Hne].
  - unfold entryMatches in Hmatch. rewrite Hmatch. reflexivity.
  - pose proof (Hmiss i ltac:(lia)) as Hmi. unfold entryMatches in Hmi.
    rewrite Hmi. apply IH; try lia. intros j' Hj'. apply Hmiss. lia.
Qed.

Lemma findFrom_none (h : Heap) (table reference : object)
      (name spec : object -> object) :
  forall (n : nat) (i : Z),
    (forall j', i <= j' < arrayLength M table ->
                entryMatches M h table reference name spec j' = false) ->
    findFrom M n h table i (referenceName M reference)
             (referenceSpec M reference) name spec
    = 0.
Proof.
  induction n as [| n IH]; intros i Hmiss; [reflexivity|].
  cbn [findFrom].
  destruct (Z.ltb_spec i (arrayLength M table)); [|reflexivity].
  pose proof (Hmiss i ltac:(lia)) as Hmi. unfold entryMatches in Hmi.
  rewrite Hmi. apply IH. intros j' Hj'. apply Hmiss. lia.
Qed.

(** X6 — [find] returns the first entry of the table whose name and spec
    both equal the reference's, later matches notwithstanding. *)
Theorem find_returns_the_first_match
        (h : Heap) (table reference : object) (name spec : object -> object)
        (j : Z) :
  0 <= j < arrayLength M table ->
  entryMatches M h table reference name spec j = true ->
  (forall j', 0 <= j' < j ->
              entryMatches M h table reference name spec j' = false) ->
  find M h table reference name spec = arrayBody h table j.
Proof.
  intros Hj Hmatch Hmiss. unfold find.
  apply findFrom_first; try assumption; lia.
Qed.

(** X7 — [find] returns null when no entry of the table matches, and so on
    an empty table. *)
Theorem find_returns_null_without_a_match
        (h : Heap) (table reference : object) (name spec : object -> object) :
  (forall j, 0 <= j < arrayLength M table ->
             entryMatches M h table reference name spec j = false) ->
  find M h table reference name spec = 0.
Proof. intros Hmiss. unfold find. now apply findFrom_none. Qed.

Lemma findInterfaceMethodFrom_first (h : Heap) (itable interface method : object)
      (k : Z) :
  0 <= k -> 2 * k < arrayLength M itable ->
  arrayBody h itable (2 * k) = interface ->
  forall (n : nat) (k0 : Z),
    0 <= k0 <= k -> arrayLength M itable - 2 * k0 <= Z.of_nat n ->
    (forall k', k0 <= k' < k -> arrayBody h itable (2 * k') <> interface) ->
    findInterfaceMethodFrom M X n h itable (2 * k0) interface method
    = Some (arrayBody h (arrayBody h itable (2 * k + 1)) (methodOffset X method)).
Proof.
  intros Hk Hlen Hat. induction n as [| n IH]; intros k0 Hk0 Hn Hmiss; [lia|].
  cbn [findInterfaceMethodFrom].
  destruct (Z.ltb_spec (2 * k0) (arrayLength M itable)); [|lia].
  destruct (Z.eq_dec k0 k) as [-> | Hne].
  - rewrite Hat, Z.eqb_refl. reflexivity.
  - destruct (Z.eqb_spec (arrayBody h itable (2 * k0)) interface) as [He | _].
    + exfalso. apply (Hmiss k0); [lia | exact He].
    + replace (2 * k0 + 2) with (2 * (k0 + 1)) by lia.
      apply IH; try lia. intros k' Hk'. apply Hmiss. lia.
Qed.

Lemma findInterfaceMethodFrom_none (h : Heap) (itable interface method : object) :
  forall (n : nat) (k0 : Z),
    0 <= k0 ->
    (forall k', k0 <= k' -> 2 * k' < arrayLength M itable ->
                arrayBody h itable (2 * k') <> interface) ->
    findInterfaceMethodFrom M X n h itable (2 * k0) interface method = None.
Proof.
  induction n as [| n IH]; intros k0 Hk0 Hmiss; [reflexivity|].
  cbn [findInterfaceMethodFrom].
  destruct (Z.ltb_spec (2 * k0) (arrayLength M itable)); [|reflexivity].
  destruct (Z.eqb_spec (arrayBody h itable (2 * k0)) interface) as [He | _].
  - exfalso. apply (Hmiss k0); [lia | assumption | exact He].
  - replace (2 * k0 + 2) with (2 * (k0 + 1)) by lia.
    apply IH; [lia|]. intros k' Hk' Hlt. apply Hmiss; [lia | exact Hlt].
Qed.

(** X8 — interface dispatch takes the dispatch array paired with the first
    occurrence of the method's interface in the interface table of the
    receiver's class, and indexes it by the method's offset. *)
Theorem findInterfaceMethod_uses_the_first_pair
        (h : Heap) (method o : object) (k : Z) :
  let itable := classInterfaceTable M (objectClass M o) in
  0 <= k -> 2 * k < arrayLength M itable ->
  arrayBody h itable (2 * k) = methodClass M method ->
  (forall k', 0 <= k' < k -> arrayBody h itable (2 * k') <> methodClass M method) ->
  findInterfaceMethod M X h method o
  = Some (arrayBody h (arrayBody h itable (2 * k + 1)) (methodOffset X method)).
Proof.
  intros itable Hk Hlen Hat Hmiss. unfold findInterfaceMethod. fold itable.
  change 0 with (2 * 0) at 1.
  apply findInterfaceMethodFrom_first; try assumption; lia.
Qed.

(** X9 — interface dispatch aborts when the interface table of the
    receiver's class does not list the method's interface; the tables of
    its superclasses are not consulted. *)
Theorem findInterfaceMethod_aborts_without_the_interface
        (h : Heap) (method o : object) :
  let itable := classInterfaceTable M (objectClass M o) in
  itable <> 0 ->
  (forall k, 0 <= k -> 2 * k < arrayLength M itable ->
             arrayBody h itable (2 * k) <> methodClass M method) ->
  findInterfaceMethod M X h method o = None.
Proof.
  intros itable _ Hmiss. unfold findInterfaceMethod. fold itable.
  change 0 with (2 * 0) at 1.
  apply findInterfaceMethodFrom_none; [lia | exact Hmiss].
Qed.

End Lookup.

(** ** Frames: entry, locals and return *)

Section Frames.
Variable K : Constants.
Variable M : ObjectModel.
Variable X : Extras.

(** The registers and the stack that [pushFrame] leaves for a bytecode
    method, when no index wraps around. *)
Lemma pushFrame_bytecode (t : Thread) (method : object) :
  let pf := methodParameterFootprint M method in
  let locals := codeMaxLocals M (methodCode M method) in
  let base := sp t - pf in
  let f := base + locals in
  flagSet (methodFlags M method) (ACC_NATIVE K) = false ->
  0 <= pf <= sp t -> pf <= locals -> 0 <= FrameFootprint K ->
  f + FrameFootprint K < 2 ^ 31 ->
  frame (pushFrame K M t method) = f /\
  sp (pushFrame K M t method) = f + FrameFootprint K /\
  ip (pushFrame K M t method) = 0 /\
  code (pushFrame K M t method) = methodCode M method /\
  exception (pushFrame K M t method) = exception t /\
  stack (pushFrame K M t method)
  = poke (poke (poke (poke (poke (poke (poke (poke
      (memsetZero (callerSaved K t) ((base + pf) * 2) ((locals - pf) * 2))
      ((f + FrameNextOffset K) * 2) (IntTag K))
      ((f + FrameNextOffset K) * 2 + 1) (Int.u32 (frame t)))
      ((f + FrameBaseOffset K) * 2) (IntTag K))
      ((f + FrameBaseOffset K) * 2 + 1) base)
      ((f + FrameMethodOffset K) * 2) (ObjectTag K))
      ((f + FrameMethodOffset K) * 2 + 1) method)
      ((f + FrameIpOffset K) * 2) (IntTag K))
      ((f + FrameIpOffset K) * 2 + 1) 0.
Proof.
  intros pf locals base f Hnat Hpf Hloc Hfoot Hfit.
  change (2 ^ 31) with 2147483648 in Hfit.
  assert (Hsmall : forall x, 0 <= x < 2147483648 -> Int.u32 x = x)
    by (intros x Hx; apply u32_small; change (2 ^ 32) with 4294967296; lia).
  unfold pushFrame. rewrite Hnat. cbn [negb]. cbv zeta.
  set (t1 := if frame t >=? 0 then _ else t).
  assert (Hsp1 : sp t1 = sp t) by (subst t1; destruct (frame t >=? 0); reflexivity).
  assert (Hex1 : exception t1 = exception t) by (subst t1; destruct (frame t >=? 0); reflexivity).
  assert (Hfr1 : frame t1 = frame t) by (subst t1; destruct (frame t >=? 0); reflexivity).
  assert (Hst1 : stack t1 = callerSaved K t)
    by (subst t1; unfold callerSaved; destruct (frame t >=? 0); reflexivity).
  cbn [sp set_ip code set_code stack set_stack].
  fold pf. rewrite Hsp1. rewrite (Hsmall pf) by (subst f base; lia).
  fold base. rewrite (Hsmall base) by (subst f base; lia).
  fold locals. rewrite (Hsmall locals) by (subst f base; lia).
  rewrite (Hsmall (locals - pf)) by (subst f base; lia).
  fold f. rewrite (Hsmall f) by (subst f base; lia).
  rewrite (s32_small_nonneg f) by (change (2 ^ 31) with 2147483648; subst f base; lia).
  rewrite (Hsmall (f + FrameFootprint K)) by lia.
  destruct (flagSet (methodFlags M method) (ACC_SYNCHRONIZED K));
    cbn [stack sp frame ip code exception vm set_stack set_sp set_frame
         set_ip set_code set_vm pokeInt pokeObject acquire];
    rewrite (Hsmall base) by (subst f base; lia);
    rewrite ?Hex1, ?Hfr1, ?Hst1; repeat split; reflexivity.
Qed.

Ltac layout H :=
  destruct H as (Hb1 & Hn1 & Hm1 & Hi1 & Hbn & Hbm & Hbi & Hnm & Hni & Hmi).

(** The frame record [pushFrame] writes for a bytecode method. *)
Lemma pushFrame_frame_record (t : Thread) (method : object) :
  let pf := methodParameterFootprint M method in
  let locals := codeMaxLocals M (methodCode M method) in
  let base := sp t - pf in
  let f := base + locals in
  frameLayoutOk K ->
  flagSet (methodFlags M method) (ACC_NATIVE K) = false ->
  0 <= pf <= sp t -> pf <= locals ->
  f + FrameFootprint K < 2 ^ 31 ->
  -1 <= frame t < 2 ^ 31 ->
  frame (pushFrame K M t method) = f /\
  sp (pushFrame K M t method) = f + FrameFootprint K /\
  ip (pushFrame K M t method) = 0 /\
  code (pushFrame K M t method) = methodCode M method /\
  frameBase K (pushFrame K M t method) f = base /\
  frameMethod K (pushFrame K M t method) f = method /\
  frameNext K (pushFrame K M t method) f = frame t /\
  frameIp K (pushFrame K M t method) f = 0.
Proof.
  intros pf locals base f Hlay Hnat Hpf Hloc Hfit Hframe.
  pose proof Hlay as Hlay'. layout Hlay'.
  destruct (pushFrame_bytecode t method Hnat Hpf Hloc ltac:(lia) Hfit)
    as (Hf & Hsp & Hip & Hcode & _ & Hstack).
  fold pf locals base f in Hf, Hsp, Hstack.
  change (2 ^ 31) with 2147483648 in *.
  split; [exact Hf|]. split; [exact Hsp|]. split; [exact Hip|].
  split; [exact Hcode|].
  unfold frameBase, frameMethod, frameNext, frameIp, peekInt, peekObject.
  rewrite Hstack.
  repeat split.
  - rewrite !poke_other by lia. rewrite poke_same.
    apply u32_small. change (2 ^ 32) with 4294967296. subst f base. lia.
  - rewrite !poke_other by lia. apply poke_same.
  - rewrite !poke_other by lia. rewrite poke_same, u32_idempotent.
    destruct (Z.eq_dec (frame t) (-1)) as [-> | Hne]; [reflexivity|].
    rewrite u32_small by (change (2 ^ 32) with 4294967296; lia).
    apply s32_small_nonneg. change (2 ^ 31) with 2147483648. lia.
  - rewrite poke_same. reflexivity.
Qed.

(** X11 — [pushFrame] zeroes the locals that are not parameters, tag and
    value, and leaves the arguments, which become the first locals, as the
    caller pushed them. *)
Theorem pushFrame_prepares_the_locals (t : Thread) (method : object) :
  let pf := methodParameterFootprint M method in
  let locals := codeMaxLocals M (methodCode M method) in
  let base := sp t - pf in
  let f := base + locals in
  frameLayoutOk K ->
  flagSet (methodFlags M method) (ACC_NATIVE K) = false ->
  0 <= pf <= sp t -> pf <= locals ->
  f + FrameFootprint K < 2 ^ 31 ->
  frame t < 0 \/ frame t + FrameFootprint K <= base ->
  (forall i, pf <= i < locals ->
             stack (pushFrame K M t method) ((base + i) * 2) = 0 /\
             stack (pushFrame K M t method) ((base + i) * 2 + 1) = 0) /\
  (forall i, 0 <= i < pf ->
             stack (pushFrame K M t method) ((base + i) * 2)
             = stack t ((base + i) * 2) /\
             stack (pushFrame K M t method) ((base + i) * 2 + 1)
             = stack t ((base + i) * 2 + 1)).
Proof.
  intros pf locals base f Hlay Hnat Hpf Hloc Hfit Hcaller.
  pose proof Hlay as Hlay'. layout Hlay'.
  destruct (pushFrame_bytecode t method Hnat Hpf Hloc ltac:(lia) Hfit)
    as (_ & _ & _ & _ & _ & Hstack).
  fold pf locals base f in Hstack. rewrite Hstack.
  split; intros i Hi.
  - rewrite !poke_other by (subst f; lia).
    unfold memsetZero.
    split.
    + destruct (Z.leb_spec ((base + pf) * 2) ((base + i) * 2)); [|lia].
      destruct (Z.ltb_spec ((base + i) * 2) ((base + pf) * 2 + (locals - pf) * 2)); [|lia].
      reflexivity.
    + destruct (Z.leb_spec ((base + pf) * 2) ((base + i) * 2 + 1)); [|lia].
      destruct (Z.ltb_spec ((base + i) * 2 + 1) ((base + pf) * 2 + (locals - pf) * 2)); [|lia].
      reflexivity.
  - rewrite !poke_other by (subst f; lia).
    unfold memsetZero, callerSaved.
    split.
    + destruct (Z.leb_spec ((base + pf) * 2) ((base + i) * 2)); [lia|].
      cbn [andb]. destruct (Z.geb_spec (frame t) 0); [|reflexivity].
      rewrite !poke_other by lia. reflexivity.
    + destruct (Z.leb_spec ((base + pf) * 2) ((base + i) * 2 + 1)); [lia|].
      cbn [andb]. destruct (Z.geb_spec (frame t) 0); [|reflexivity].
      rewrite !poke_other by lia. reflexivity.
Qed.

(** The registers [popFrame] restores, read from the frame record. *)
Lemma popFrame_registers (u : Thread) :
  sp (popFrame K M u) = frameBase K u (frame u) /\
  frame (popFrame K M u) = frameNext K u (frame u) /\
  stack (popFrame K M u) = stack u /\
  exception (popFrame K M u) = exception u /\
  (0 <= frameNext K u (frame u) ->
   code (popFrame K M u)
   = methodCode M (frameMethod K u (frameNext K u (frame u))) /\
   ip (popFrame K M u) = frameIp K u (frameNext K u (frame u))) /\
  (frameNext K u (frame u) < 0 ->
   code (popFrame K M u) = 0 /\ ip (popFrame K M u) = 0).
Proof.
  unfold popFrame, frameNext, frameBase, frameMethod, frameIp, peekInt,
    peekObject, release.
  destruct (flagSet (methodFlags M (stack u ((frame u + FrameMethodOffset K) * 2 + 1)))
                    (ACC_SYNCHRONIZED K));
    cbn [frame set_frame set_sp set_vm stack sp];
    match goal with
    | |- context [if ?c >=? 0 then _ else _] =>
      destruct (Z.geb_spec c 0) as [Hge | Hlt]
    end;
    repeat split; intros; try reflexivity; try lia.
Qed.

(** Popping the frame of a callee whose stack still holds the frame record
    and what lies below it. *)
Lemma callee_returns (t : Thread) (method : object) (u : Thread) :
  let pf := methodParameterFootprint M method in
  let locals := codeMaxLocals M (methodCode M method) in
  let base := sp t - pf in
  let f := base + locals in
  frameLayoutOk K ->
  flagSet (methodFlags M method) (ACC_NATIVE K) = false ->
  0 <= pf <= sp t -> pf <= locals ->
  f + FrameFootprint K < 2 ^ 31 ->
  -1 <= frame t ->
  frame t < 0 \/ frame t + FrameFootprint K <= base ->
  0 <= ip t < 2 ^ 32 ->
  frame u = f ->
  sameBelow ((f + FrameFootprint K) * 2) u (pushFrame K M t method) ->
  sp (popFrame K M u) = base /\
  frame (popFrame K M u) = frame t /\
  stack (popFrame K M u) = stack u /\
  exception (popFrame K M u) = exception u /\
  (0 <= frame t ->
   code (popFrame K M u) = methodCode M (frameMethod K t (frame t)) /\
   ip (popFrame K M u) = ip t) /\
  (frame t < 0 -> code (popFrame K M u) = 0 /\ ip (popFrame K M u) = 0).
Proof.
  intros pf locals base f Hlay Hnat Hpf Hloc Hfit Hframe Hcaller Hip Hfu Hsame.
  pose proof Hlay as Hlay'. layout Hlay'.
  assert (Hfr2 : -1 <= frame t < 2 ^ 31)
    by (change (2 ^ 31) with 2147483648 in *; subst f base; lia).
  destruct (pushFrame_frame_record t method Hlay Hnat Hpf Hloc Hfit Hfr2)
    as (_ & _ & _ & _ & Hbase & Hmeth & Hnext & _).
  fold pf locals base f in Hbase, Hmeth, Hnext.
  destruct (pushFrame_bytecode t method Hnat Hpf Hloc ltac:(lia) Hfit)
    as (_ & _ & _ & _ & _ & Hstack).
  fold pf locals base f in Hstack.
  assert (Hb : frameBase K u f = base).
  { rewrite <- Hbase. unfold frameBase, peekInt. rewrite Hsame by lia. reflexivity. }
  assert (Hn : frameNext K u f = frame t).
  { rewrite <- Hnext. unfold frameNext, peekInt. rewrite Hsame by lia. reflexivity. }
  destruct (popFrame_registers u) as (Hsp & Hf & Hst & Hex & Hpos & Hneg).
  rewrite Hfu, ?Hb, ?Hn in *.
  split; [exact Hsp|]. split; [exact Hf|]. split; [exact Hst|].
  split; [exact Hex|]. split; [|exact Hneg].
  intros Hge. destruct (Hpos Hge) as (Hcode & Hipu). rewrite Hcode, Hipu.
  destruct Hcaller as [Hlt | Hbelow]; [lia|].
  unfold frameMethod, frameIp, peekObject, peekInt.
  rewrite !Hsame by (subst f; lia). rewrite Hstack.
  rewrite !poke_other by (subst f; lia).
  unfold memsetZero.
  destruct (Z.leb_spec ((base + pf) * 2) ((frame t + FrameMethodOffset K) * 2 + 1)); [lia|].
  destruct (Z.leb_spec ((base + pf) * 2) ((frame t + FrameIpOffset K) * 2 + 1)); [lia|].
  cbn [andb]. unfold callerSaved.
  destruct (Z.geb_spec (frame t) 0); [|lia].
  rewrite !poke_other by lia. rewrite poke_same.
  split; [reflexivity|]. rewrite u32_idempotent. apply u32_small. exact Hip.
Qed.
(** X10 — [pushFrame] on a bytecode method puts the frame record right
    above the locals: with [base = sp - parameterFootprint] the new frame is
    [base + maxLocals], [sp] is the frame plus [FrameFootprint], [ip] is 0,
    [code] is the method's code, and the record reads back the base, the
    method, the caller's frame and a saved ip of 0. *)
Theorem pushFrame_lays_out_the_frame (t : Thread) (method : object) :
  let pf := methodParameterFootprint M method in
  let locals := codeMaxLocals M (methodCode M method) in
  let base := sp t - pf in
  let f := base + locals in
  frameLayoutOk K ->
  flagSet (methodFlags M method) (ACC_NATIVE K) = false ->
  0 <= pf <= sp t -> pf <= locals ->
  f + FrameFootprint K < 2 ^ 31 ->
  -1 <= frame t < 2 ^ 31 ->
  frame (pushFrame K M t method) = f /\
  sp (pushFrame K M t method) = f + FrameFootprint K /\
  ip (pushFrame K M t method) = 0 /\
  code (pushFrame K M t method) = methodCode M method /\
  frameBase K (pushFrame K M t method) f = base /\
  frameMethod K (pushFrame K M t method) f = method /\
  frameNext K (pushFrame K M t method) f = frame t /\
  frameIp K (pushFrame K M t method) f = 0.
Proof. exact (pushFrame_frame_record t method). Qed.

(** X12 — a frame pushed and popped gives the caller back its registers:
    [sp] is the base of the callee (the arguments are gone), [frame] is the
    caller's, and with a caller [ip] and [code] are the caller's saved ip
    and its method's code, without one both are 0. *)
Theorem popFrame_undoes_pushFrame (t : Thread) (method : object) :
  let pf := methodParameterFootprint M method in
  let locals := codeMaxLocals M (methodCode M method) in
  let base := sp t - pf in
  let f := base + locals in
  frameLayoutOk K ->
  flagSet (methodFlags M method) (ACC_NATIVE K) = false ->
  0 <= pf <= sp t -> pf <= locals ->
  f + FrameFootprint K < 2 ^ 31 ->
  -1 <= frame t ->
  frame t < 0 \/ frame t + FrameFootprint K <= base ->
  0 <= ip t < 2 ^ 32 ->
  sp (popFrame K M (pushFrame K M t method)) = base /\
  frame (popFrame K M (pushFrame K M t method)) = frame t /\
  (0 <= frame t ->
   code (popFrame K M (pushFrame K M t method))
   = methodCode M (frameMethod K t (frame t)) /\
   ip (popFrame K M (pushFrame K M t method)) = ip t) /\
  (frame t < 0 ->
   code (popFrame K M (pushFrame K M t method)) = 0 /\
   ip (popFrame K M (pushFrame K M t method)) = 0).
Proof.
  intros pf locals base f Hlay Hnat Hpf Hloc Hfit Hframe Hcaller Hip.
  assert (Hf : frame (pushFrame K M t method) = f).
  { pose proof Hlay as Hlay'. layout Hlay'.
    apply (pushFrame_bytecode t method Hnat Hpf Hloc ltac:(lia) Hfit). }
  destruct (callee_returns t method (pushFrame K M t method)
              Hlay Hnat Hpf Hloc Hfit Hframe Hcaller Hip Hf
              (fun j _ => eq_refl))
    as (Hsp & Hfr & _ & _ & Hpos & Hneg).
  auto.
Qed.

Lemma u32_s32 (x : Z) : Int.u32 (Int.s32 x) = Int.u32 x.
Proof.
  unfold Int.u32, Int.s32, Int.signed, Int.unsigned.
  change (2 ^ (32 - 1)) with 2147483648. change (2 ^ 32) with 4294967296.
  destruct (x mod 4294967296 <? 2147483648).
  - apply Z.mod_mod. lia.
  - replace (x mod 4294967296 - 4294967296)
      with (x mod 4294967296 + (-1) * 4294967296) by lia.
    rewrite Z.mod_add by lia. apply Z.mod_mod. lia.
Qed.

(** X13 — ireturn hands the result to the caller.  If the callee's stack
    still holds its frame record and what lies below it, and an int [r] is
    on top, ireturn continues in the caller with the arguments replaced by
    [r]: [sp] is the callee's base plus one, the slot at the base holds [r],
    [frame], [ip] and [code] are the caller's, and the caller's part of the
    stack is untouched. *)
Theorem ireturn_hands_the_result_to_the_caller
        (t : Thread) (method : object) (u : Thread) :
  let pf := methodParameterFootprint M method in
  let locals := codeMaxLocals M (methodCode M method) in
  let base := sp t - pf in
  let f := base + locals in
  frameLayoutOk K ->
  flagSet (methodFlags M method) (ACC_NATIVE K) = false ->
  0 <= pf <= sp t -> pf <= locals ->
  f + FrameFootprint K < 2 ^ 31 ->
  0 <= frame t ->
  frame t + FrameFootprint K <= base ->
  0 <= ip t < 2 ^ 32 ->
  frame u = f ->
  sameBelow ((f + FrameFootprint K) * 2) u (pushFrame K M t method) ->
  f + FrameFootprint K < sp u < 2 ^ 32 ->
  exists t',
    ireturn K M u = (t', Loop) /\
    sp t' = base + 1 /\
    peekInt t' base = peekInt u (sp u - 1) /\
    frame t' = frame t /\
    ip t' = ip t /\
    code t' = methodCode M (frameMethod K t (frame t)) /\
    forall j, j < base * 2 -> stack t' j = stack u j.
Proof.
  intros pf locals base f Hlay Hnat Hpf Hloc Hfit Hframe Hcaller Hip Hfu
         Hsame Hsp.
  unfold ireturn, popInt. cbv zeta.
  set (u1 := set_sp u (Int.u32 (sp u - 1))).
  destruct (callee_returns t method u1 Hlay Hnat Hpf Hloc Hfit
              ltac:(lia) (or_intror Hcaller) Hip Hfu Hsame)
    as (Hsp1 & Hfr1 & Hst1 & _ & Hpos & _).
  destruct (Hpos Hframe) as (Hcode & Hipu).
  rewrite Hfr1. destruct (Z.geb_spec (frame t) 0); [|lia].
  eexists. split; [reflexivity|].
  assert (Hbase : 0 <= base < 2147483648)
    by (change (2 ^ 31) with 2147483648 in Hfit;
        pose proof Hlay as Hlay'; layout Hlay'; subst f base; lia).
  unfold pushInt, peekInt.
  cbn [sp stack frame ip code set_sp set_stack].
  rewrite Hsp1, Hfr1, Hipu, Hcode, Hst1.
  repeat split.
  - apply u32_small. change (2 ^ 32) with 4294967296. lia.
  - rewrite poke_same.
    rewrite (u32_small (sp u - 1))
      by (change (2 ^ 32) with 4294967296 in *;
          pose proof Hlay as Hlay'; layout Hlay'; subst f base; lia).
    now rewrite u32_s32, !u32_idempotent.
  - intros j Hj. rewrite !poke_other by lia. reflexivity.
Qed.


(** X15 — the invoke transition checks the stack before it pushes a frame.
    For a bytecode method with no exception pending, if the frame and the
    callee's operand stack fit the half of [StackSizeInWords] that counts
    slots, invoke pushes the frame and the callee's [sp] plus its
    [maxStack] stays within that bound; otherwise it pushes nothing, leaves
    a stack overflow error pending and goes to the unwinder. *)
Theorem invoke_checks_the_stack (t : Thread) :
  let method := code t in
  let pf := methodParameterFootprint M method in
  let locals := codeMaxLocals M (methodCode M method) in
  let maxStack := codeMaxStack X (methodCode M method) in
  let base := sp t - pf in
  flagSet (methodFlags M method) (ACC_NATIVE K) = false ->
  exception t = 0 ->
  makeStackOverflowError X <> 0 ->
  0 <= pf <= sp t -> pf <= locals -> 0 <= maxStack -> 0 <= FrameFootprint K ->
  base + locals + FrameFootprint K + maxStack < 2 ^ 31 ->
  (base + locals + FrameFootprint K + maxStack <= Z.quot (StackSizeInWords X) 2 ->
   invoke K M X t = (pushFrame K M t method, Loop) /\
   sp (pushFrame K M t method) + maxStack <= Z.quot (StackSizeInWords X) 2) /\
  (Z.quot (StackSizeInWords X) 2 < base + locals + FrameFootprint K + maxStack ->
   invoke K M X t = (set_exception t (makeStackOverflowError X), Throw)).
Proof.
  intros method pf locals maxStack base Hnat Hexc Herr Hpf Hloc Hmax Hfoot Hfit.
  change (2 ^ 31) with 2147483648 in Hfit.
  assert (Hsum : Int.u32 (Int.u32 (sp t - Int.u32 pf) + locals
                          + FrameFootprint K + maxStack)
                 = base + locals + FrameFootprint K + maxStack).
  { rewrite (u32_small pf) by (change (2 ^ 32) with 4294967296; subst base; lia).
    fold base.
    rewrite (u32_small base) by (change (2 ^ 32) with 4294967296; subst base; lia).
    apply u32_small. change (2 ^ 32) with 4294967296. subst base. lia. }
  unfold invoke, checkStack. fold method. rewrite Hnat.
  fold pf locals maxStack. rewrite Hsum.
  split; intros Hcmp.
  - destruct (Z.gtb_spec (base + locals + FrameFootprint K + maxStack)
                         (Z.quot (StackSizeInWords X) 2)); [lia|].
    rewrite Hexc. cbn [Z.eqb negb]. split; [reflexivity|].
    destruct (pushFrame_bytecode t method Hnat Hpf Hloc Hfoot)
      as (_ & Hsp & _); [change (2 ^ 31) with 2147483648; lia|].
    rewrite Hsp. fold pf locals base. lia.
  - destruct (Z.gtb_spec (base + locals + FrameFootprint K + maxStack)
                         (Z.quot (StackSizeInWords X) 2)); [|lia].
    cbn [exception set_exception].
    destruct (Z.eqb_spec (makeStackOverflowError X) 0); [contradiction|].
    reflexivity.
Qed.

End Frames.

(** ** Resolution: the member search and the failure paths *)

Section ResolverPaths.
Variable K : Constants.
Variable M : ObjectModel.

Lemma resolveSearch_first (h : Heap)
      (find_ : Heap -> object -> object -> object) (reference f : object) :
  f <> 0 ->
  forall (n : nat) (class_ : object) (fuel : nat),
    chainAlive M (S n) class_ ->
    (forall k, (k < n)%nat -> find_ h (superAt M k class_) reference = 0) ->
    find_ h (superAt M n class_) reference = f ->
    (n < fuel)%nat ->
    resolveSearch M fuel h find_ class_ reference = Some f.
Proof.
  intros Hf. induction n as [| n IH]; intros class_ [| fuel] Halive Hmiss Hhit Hfuel;
    try lia; cbn [resolveSearch]; apply chainAlive_step in Halive;
    destruct Halive as (Hc & Halive);
    (destruct (Z.eqb_spec class_ 0); [contradiction|]).
  - cbn [superAt] in Hhit. rewrite Hhit.
    destruct (Z.eqb_spec f 0); [contradiction | reflexivity].
  - pose proof (Hmiss O ltac:(lia)) as H0. cbn [superAt] in H0.
    rewrite H0. cbn [Z.eqb].
    apply IH; try assumption; try lia.
    intros k Hk. apply (Hmiss (S k)). lia.
Qed.

Lemma resolveSearch_none (h : Heap)
      (find_ : Heap -> object -> object -> object) (reference : object) :
  forall (n : nat) (class_ : object) (fuel : nat),
    chainAlive M n class_ ->
    superAt M n class_ = 0 ->
    (forall k, (k < n)%nat -> find_ h (superAt M k class_) reference = 0) ->
    (n < fuel)%nat ->
    resolveSearch M fuel h find_ class_ reference = Some 0.
Proof.
  induction n as [| n IH]; intros class_ [| fuel] Halive Hend Hmiss Hfuel;
    try lia; cbn [resolveSearch].
  - cbn in Hend. subst class_. reflexivity.
  - apply chainAlive_step in Halive. destruct Halive as (Hc & Halive).
    destruct (Z.eqb_spec class_ 0); [contradiction|].
    pose proof (Hmiss O ltac:(lia)) as H0. cbn [superAt] in H0.
    rewrite H0. cbn [Z.eqb].
    apply IH; try assumption; try lia.
    intros k Hk. apply (Hmiss (S k)). lia.
Qed.

(** X16 — [resolve] searches the class the reference names and then its
    superclasses, nearest first: the member found in the first class of the
    chain that has one is returned and written into the pool slot, and no
    exception is raised. *)
Theorem resolve_takes_the_nearest_member
        (fuel : nat) (t : Thread) (pool : object) (index : Z)
        (find_ : Heap -> object -> object -> object)
        (makeError : object -> object)
        (class_ : object) (t1 : Thread) (n : nat) (f : object) :
  let reference := arrayBody (vm t) pool index in
  objectClass M reference = arrayBody (vm t) (types M) (ReferenceType K) ->
  resolveClass_container K M t reference = (class_, t1) ->
  exception t1 = 0 ->
  chainAlive M (S n) class_ ->
  (forall k, (k < n)%nat ->
             find_ (vm t1) (superAt M k class_) reference = 0) ->
  find_ (vm t1) (superAt M n class_) reference = f ->
  f <> 0 ->
  (n < fuel)%nat ->
  exists t',
    resolve K M fuel t pool index find_ makeError = Some (f, t') /\
    arrayBody (vm t') pool index = f /\
    exception t' = 0.
Proof.
  intros reference Hsym Hclass Hexc Halive Hmiss Hhit Hf Hfuel.
  unfold resolve. fold reference. rewrite Hsym, Z.eqb_refl, Hclass, Hexc.
  cbn [Z.eqb negb].
  pose proof (resolveClass_container_effect K M _ _ _ _ Hclass) as (Hab & _).
  rewrite Hab. fold reference.
  rewrite (resolveSearch_first (vm t1) find_ reference f Hf n class_ fuel)
    by assumption.
  destruct (Z.eqb_spec f 0); [contradiction|].
  eexists. split; [reflexivity|].
  split; [apply arrayBody_set_same | exact Hexc].
Qed.

(** X17 — when no class of the chain has the member, [resolve] returns
    null with the error built from the reference pending, and it has
    overwritten the pool slot with null: the symbolic reference is gone
    from the pool. *)
Theorem resolve_miss_clears_the_slot
        (fuel : nat) (t : Thread) (pool : object) (index : Z)
        (find_ : Heap -> object -> object -> object)
        (makeError : object -> object)
        (class_ : object) (t1 : Thread) (n : nat) :
  let reference := arrayBody (vm t) pool index in
  objectClass M reference = arrayBody (vm t) (types M) (ReferenceType K) ->
  resolveClass_container K M t reference = (class_, t1) ->
  exception t1 = 0 ->
  chainAlive M n class_ ->
  superAt M n class_ = 0 ->
  (forall k, (k < n)%nat ->
             find_ (vm t1) (superAt M k class_) reference = 0) ->
  (n < fuel)%nat ->
  exists t',
    resolve K M fuel t pool index find_ makeError = Some (0, t') /\
    exception t' = makeError reference /\
    arrayBody (vm t') pool index = 0.
Proof.
  intros reference Hsym Hclass Hexc Halive Hend Hmiss Hfuel.
  unfold resolve. fold reference. rewrite Hsym, Z.eqb_refl, Hclass, Hexc.
  cbn [Z.eqb negb].
  pose proof (resolveClass_container_effect K M _ _ _ _ Hclass) as (Hab & _).
  rewrite Hab. fold reference.
  rewrite (resolveSearch_none (vm t1) find_ reference n class_ fuel)
    by assumption.
  cbn [Z.eqb]. eexists. split; [reflexivity|].
  split; [reflexivity | apply arrayBody_set_same].
Qed.

(** X18 — a class resolution that fails memoizes nothing: when the class
    finder fails on the name in a symbolic slot, [resolveClass] returns null
    with the finder's error pending and the heap as it was, so that every
    later attempt on the slot, from any thread state with that heap, asks
    the finder again and fails the same way. *)
Theorem resolveClass_failure_is_not_memoized
        (t : Thread) (pool : object) (index : Z) (e : object) :
  objectClass M (arrayBody (vm t) pool index)
  = arrayBody (vm t) (types M) (ByteArrayType K) ->
  classFinder M (arrayBody (vm t) pool index) = inr e ->
  e <> 0 ->
  resolveClass K M t pool index = (0, set_exception t e) /\
  forall u, vm u = vm t ->
            resolveClass K M u pool index = (0, set_exception u e).
Proof.
  intros Hsym Hfail He.
  assert (Hall : forall u, vm u = vm t ->
                           resolveClass K M u pool index = (0, set_exception u e)).
  { intros u Hvm. unfold resolveClass, resolveClass_spec.
    rewrite Hvm, Hsym, Z.eqb_refl, Hfail. cbn [exception set_exception].
    destruct (Z.eqb_spec e 0); [contradiction | reflexivity]. }
  split; [apply Hall; reflexivity | exact Hall].
Qed.

End ResolverPaths.

(** ** The unwinder without a handler *)

Section UnwinderEnds.
Variable K : Constants.
Variable M : ObjectModel.

(** X19 — an exception no frame handles stays pending.  If the walk passes
    every frame without an applicable handler and runs out of frames, the
    unwinder returns null with the exception still pending and the heap
    untouched. *)
Theorem throw_leaves_an_uncaught_exception_pending
        (fuel k n : nat) (t tf : Thread) :
  Walk K M fuel (pokeInt K t (frame t + FrameIpOffset K) (ip t)) tf k ->
  frame tf < 0 ->
  (k < n)%nat ->
  throw_ K M n fuel t = Some (tf, Return 0) /\
  exception tf = exception t /\
  vm tf = vm t.
Proof.
  intros Hwalk Hframe Hk.
  pose proof (Walk_fields K M _ _ _ _ Hwalk) as (_ & Hexc & Hvm).
  split; [|split; [exact Hexc | exact Hvm]].
  unfold throw_. replace n with (k + S (n - S k))%nat by lia.
  rewrite (unwind_walk K M _ _ _ _ Hwalk). cbn [unwind].
  destruct (Z.geb_spec (frame tf) 0); [lia | reflexivity].
Qed.

(** X20 — the unwinder stops at a native frame.  When the walk arrives at
    the frame of a native method it returns at once, in that frame, with
    the exception still pending; the frames below are not searched. *)
Theorem throw_stops_at_a_native_frame
        (fuel k n : nat) (t tf : Thread) :
  Walk K M fuel (pokeInt K t (frame t + FrameIpOffset K) (ip t)) tf k ->
  0 <= frame tf ->
  frameIsNative K M tf = true ->
  (k < n)%nat ->
  throw_ K M n fuel t = Some (tf, Return 0) /\
  exception tf = exception t.
Proof.
  intros Hwalk Hframe Hnat Hk.
  pose proof (Walk_fields K M _ _ _ _ Hwalk) as (_ & Hexc & _).
  split; [|exact Hexc].
  unfold throw_. replace n with (k + S (n - S k))%nat by lia.
  rewrite (unwind_walk K M _ _ _ _ Hwalk). cbn [unwind].
  destruct (Z.geb_spec (frame tf) 0); [|lia].
  unfold frameIsNative in Hnat. rewrite Hnat. reflexivity.
Qed.

End UnwinderEnds.

(** ** Opcode handlers: stack, branches and arithmetic *)

Section Opcodes.
Variable K : Constants.
Variable M : ObjectModel.

Lemma slotWord_small (i : Z) : 0 <= i < 2 ^ 31 -> slotWord i = i * 2.
Proof.
  intros H. unfold slotWord. apply u32_small.
  change (2 ^ 31) with 2147483648 in H. change (2 ^ 32) with 4294967296. lia.
Qed.

Lemma u32_31 (x : Z) : 0 <= x < 2 ^ 31 -> Int.u32 x = x.
Proof.
  intros H. apply u32_small.
  change (2 ^ 31) with 2147483648 in H. change (2 ^ 32) with 4294967296. lia.
Qed.

Ltac words :=
  repeat match goal with
         | |- context [memcpyWords ?s ?d ?src ?n ?j] =>
           unfold memcpyWords at 1;
           let H1 := fresh in let H2 := fresh in
           destruct (Z.leb_spec d j) as [H1 | H1];
           destruct (Z.ltb_spec j (d + n)) as [H2 | H2];
           try lia; cbn [andb]
         | |- context [poke ?s ?i ?v ?j] =>
           first [replace (poke s i v j) with v
                   by (unfold poke; destruct (Z.eqb_spec j i);
                       [reflexivity | lia]) |
                  rewrite (poke_other s i v j) by lia]
         end.

(** X25 — swap exchanges the two top slots, tag and value, and touches no
    other slot; applied twice it restores every word of the stack. *)
Theorem swap_exchanges_the_top_slots (t : Thread) :
  2 <= sp t < 2 ^ 31 ->
  slot (stack (fst (swap t))) (sp t - 1) = slot (stack t) (sp t - 2) /\
  slot (stack (fst (swap t))) (sp t - 2) = slot (stack t) (sp t - 1) /\
  sp (fst (swap t)) = sp t /\
  (forall i, i <> sp t - 1 -> i <> sp t - 2 ->
             slot (stack (fst (swap t))) i = slot (stack t) i) /\
  forall j, stack (fst (swap (fst (swap t)))) j = stack t j.
Proof.
  intros Hsp. change (2 ^ 31) with 2147483648 in Hsp.
  assert (E1 : slotWord (Int.u32 (sp t - 1)) = (sp t - 1) * 2).
  { rewrite (u32_31 (sp t - 1)) by (change (2 ^ 31) with 2147483648; lia).
    apply slotWord_small. change (2 ^ 31) with 2147483648. lia. }
  assert (E2 : slotWord (Int.u32 (sp t - 2)) = (sp t - 2) * 2).
  { rewrite (u32_31 (sp t - 2)) by (change (2 ^ 31) with 2147483648; lia).
    apply slotWord_small. change (2 ^ 31) with 2147483648. lia. }
  unfold swap, slot. cbn [fst stack sp set_stack]. rewrite !E1, !E2.
  split; [|split; [|split; [reflexivity|split]]].
  - f_equal; words; f_equal; lia.
  - f_equal; words; f_equal; lia.
  - intros i Hi1 Hi2. f_equal; words; reflexivity.
  - intros j.
    destruct (Z.eq_dec j ((sp t - 1) * 2)) as [-> | N1];
      [words; f_equal; lia|].
    destruct (Z.eq_dec j ((sp t - 1) * 2 + 1)) as [-> | N2];
      [words; f_equal; lia|].
    destruct (Z.eq_dec j ((sp t - 2) * 2)) as [-> | N3];
      [words; f_equal; lia|].
    destruct (Z.eq_dec j ((sp t - 2) * 2 + 1)) as [-> | N4];
      [words; f_equal; lia|].
    words; reflexivity.
Qed.

Ltac slots Hsp :=
  repeat match goal with
         | |- context [slotWord (Int.u32 ?e)] =>
           rewrite (u32_31 e) by (change (2 ^ 31) with 2147483648; lia)
         | |- context [slotWord ?e] =>
           rewrite (slotWord_small e) by (change (2 ^ 31) with 2147483648; lia)
         end.

(** X26 — the duplications other than dup2 leave the slots the bytecode
    expects, tags included.  With [v k] the slot [k] below the old top:
    dup leaves [v1 v1], dup_x1 [v1 v2 v1], dup_x2 [v1 v3 v2 v1], dup2_x1
    [v2 v1 v3 v2 v1] and dup2_x2 [v2 v1 v4 v3 v2 v1], read from the deepest
    changed slot to the new top. *)
Theorem dup_forms_arrange_the_slots (t : Thread) :
  let v (k : Z) := slot (stack t) (sp t - k) in
  sp t + 2 < 2 ^ 31 ->
  (1 <= sp t ->
   let s := stack (fst (dup t)) in
   sp (fst (dup t)) = sp t + 1 /\
   slot s (sp t) = v 1 /\ slot s (sp t - 1) = v 1) /\
  (2 <= sp t ->
   let s := stack (fst (dup_x1 t)) in
   sp (fst (dup_x1 t)) = sp t + 1 /\
   slot s (sp t) = v 1 /\ slot s (sp t - 1) = v 2 /\ slot s (sp t - 2) = v 1) /\
  (3 <= sp t ->
   let s := stack (fst (dup_x2 t)) in
   sp (fst (dup_x2 t)) = sp t + 1 /\
   slot s (sp t) = v 1 /\ slot s (sp t - 1) = v 2 /\ slot s (sp t - 2) = v 3 /\
   slot s (sp t - 3) = v 1) /\
  (3 <= sp t ->
   let s := stack (fst (dup2_x1 t)) in
   sp (fst (dup2_x1 t)) = sp t + 2 /\
   slot s (sp t + 1) = v 1 /\ slot s (sp t) = v 2 /\ slot s (sp t - 1) = v 3 /\
   slot s (sp t - 2) = v 1 /\ slot s (sp t - 3) = v 2) /\
  (4 <= sp t ->
   let s := stack (fst (dup2_x2 t)) in
   sp (fst (dup2_x2 t)) = sp t + 2 /\
   slot s (sp t + 1) = v 1 /\ slot s (sp t) = v 2 /\ slot s (sp t - 1) = v 3 /\
   slot s (sp t - 2) = v 4 /\ slot s (sp t - 3) = v 1 /\ slot s (sp t - 4) = v 2).
Proof.
  intros v Hfit. change (2 ^ 31) with 2147483648 in Hfit. subst v.
  repeat split; intros;
    cbv zeta; unfold dup, dup_x1, dup_x2, dup2_x1, dup2_x2, slot;
    cbn [fst stack sp set_stack set_sp]; slots Hfit;
    try (apply u32_31; change (2 ^ 31) with 2147483648; lia);
    f_equal; words; f_equal; lia.
Qed.

(** X27 — dup2 copies the two top slots one slot too high.  It raises [sp]
    by two and writes the old slots [sp - 2] and [sp - 1] to the slots
    [sp + 1] and [sp + 2]; the slot at the old [sp] and every other slot
    keep what they held.  So the new top slot holds the old second slot,
    and the slot below it was never written. *)
Theorem dup2_copies_past_the_top (t : Thread) :
  2 <= sp t -> sp t + 3 < 2 ^ 31 ->
  let s := stack (fst (dup2 t)) in
  sp (fst (dup2 t)) = sp t + 2 /\
  slot s (sp t + 1) = slot (stack t) (sp t - 2) /\
  slot s (sp t + 2) = slot (stack t) (sp t - 1) /\
  forall i, i <> sp t + 1 -> i <> sp t + 2 -> slot s i = slot (stack t) i.
Proof.
  intros Hsp Hfit s. change (2 ^ 31) with 2147483648 in Hfit. subst s.
  unfold dup2, slot. cbn [fst stack sp set_stack set_sp]. slots Hfit.
  split; [apply u32_31; change (2 ^ 31) with 2147483648; lia|].
  split; [f_equal; words; f_equal; lia|].
  split; [f_equal; words; f_equal; lia|].
  intros i Hi1 Hi2. f_equal; words; reflexivity.
Qed.

Lemma fetch_twice (t : Thread) :
  0 <= ip t -> ip t + 2 < 2 ^ 32 ->
  fst (fetch M t) = Int.u8 (codeBody M (code t) (ip t)) /\
  fst (fetch M (snd (fetch M t))) = Int.u8 (codeBody M (code t) (ip t + 1)) /\
  ip (snd (fetch M (snd (fetch M t)))) = ip t + 2.
Proof.
  intros H1 H2. unfold fetch. cbn [fst snd ip code set_ip].
  rewrite (u32_small (ip t + 1)) by lia.
  rewrite (u32_small (ip t + 1 + 1)) by lia.
  repeat split. lia.
Qed.

(** X21 — goto and jsr apply their signed 16-bit offset to the address of
    the opcode, and jsr pushes the address of the instruction after its
    three bytes. *)
Theorem goto_and_jsr_branch_from_the_opcode (t : Thread) :
  0 < ip t -> ip t + 2 < 2 ^ 32 ->
  ip (fst (goto_ M t)) = Int.u32 ((ip t - 1) + narrowOffset M t) /\
  ip (fst (jsr K M t)) = Int.u32 ((ip t - 1) + narrowOffset M t) /\
  peekInt (fst (jsr K M t)) (sp t) = (ip t - 1) + 3 /\
  sp (fst (jsr K M t)) = Int.u32 (sp t + 1).
Proof.
  intros H1 H2.
  destruct (fetch_twice t ltac:(lia) H2) as (_ & _ & Hip).
  unfold goto_, jsr, branchTarget, narrowOffset, pushInt, peekInt.
  unfold fetch in *. cbn [fst snd ip code sp stack set_ip set_sp set_stack] in *.
  rewrite Hip. rewrite (u32_small (ip t + 1)) by lia.
  repeat split.
  - f_equal. lia.
  - f_equal. lia.
  - rewrite poke_same, u32_idempotent. rewrite u32_small by lia. lia.
Qed.

Lemma if_icmp_effect (cmp : Z -> Z -> bool) (t : Thread) :
  0 < ip t -> ip t + 2 < 2 ^ 32 -> 2 <= sp t < 2 ^ 32 ->
  let a := Int.s32 (peekInt t (sp t - 2)) in
  let b := Int.s32 (peekInt t (sp t - 1)) in
  sp (fst (if_icmp M cmp t)) = sp t - 2 /\
  stack (fst (if_icmp M cmp t)) = stack t /\
  ip (fst (if_icmp M cmp t))
  = if cmp a b then Int.u32 ((ip t - 1) + narrowOffset M t) else ip t + 2.
Proof.
  intros H1 H2 H3 a b.
  destruct (fetch_twice t ltac:(lia) H2) as (_ & _ & Hip).
  unfold if_icmp, branchTarget, narrowOffset, popInt in *.
  unfold fetch in *. cbn [fst snd ip code sp stack set_ip set_sp set_stack] in *.
  rewrite (u32_small (sp t - 1)) by lia.
  rewrite (u32_small (sp t - 1 - 1)) by lia.
  replace (sp t - 1 - 1) with (sp t - 2) by lia.
  fold (peekInt t (sp t - 1)). fold (peekInt t (sp t - 2)). fold a b.
  rewrite (u32_small (ip t + 1)) in * by lia.
  destruct (cmp a b); cbn [fst sp stack ip set_ip set_sp];
    repeat split; try exact Hip.
  rewrite Hip. f_equal. lia.
Qed.

(** X22 — the six integer compare-and-branch opcodes pop two slots,
    compare the operands as signed 32-bit ints ([a] the deeper one), and
    continue at the opcode's address plus the offset when the comparison
    holds, at the next instruction otherwise. *)
Theorem if_icmp_branches_compare_signed (t : Thread) :
  0 < ip t -> ip t + 2 < 2 ^ 32 -> 2 <= sp t < 2 ^ 32 ->
  let a := Int.s32 (peekInt t (sp t - 2)) in
  let b := Int.s32 (peekInt t (sp t - 1)) in
  let target := Int.u32 ((ip t - 1) + narrowOffset M t) in
  let next := ip t + 2 in
  ip (fst (if_icmpeq M t)) = (if a =? b then target else next) /\
  ip (fst (if_icmpne M t)) = (if a =? b then next else target) /\
  ip (fst (if_icmplt M t)) = (if a <? b then target else next) /\
  ip (fst (if_icmpge M t)) = (if a <? b then next else target) /\
  ip (fst (if_icmpgt M t)) = (if b <? a then target else next) /\
  ip (fst (if_icmple M t)) = (if b <? a then next else target) /\
  sp (fst (if_icmpeq M t)) = sp t - 2 /\ sp (fst (if_icmpne M t)) = sp t - 2 /\
  sp (fst (if_icmplt M t)) = sp t - 2 /\ sp (fst (if_icmpge M t)) = sp t - 2 /\
  sp (fst (if_icmpgt M t)) = sp t - 2 /\ sp (fst (if_icmple M t)) = sp t - 2.
Proof.
  intros H1 H2 H3 a b target next.
  pose proof (fun cmp => if_icmp_effect cmp t H1 H2 H3) as H.
  cbv zeta in H. fold a b target next in H.
  unfold if_icmpeq, if_icmpne, if_icmplt, if_icmpge, if_icmpgt, if_icmple.
  repeat split; try apply H.
  - rewrite (proj2 (proj2 (H _))). destruct (a =? b); reflexivity.
  - rewrite (proj2 (proj2 (H _))). rewrite Z.geb_leb, Z.leb_antisym.
    destruct (a <? b); reflexivity.
  - rewrite (proj2 (proj2 (H _))). rewrite Z.gtb_ltb. reflexivity.
  - rewrite (proj2 (proj2 (H _))). rewrite Z.leb_antisym.
    destruct (b <? a); reflexivity.
Qed.

Lemma signed_mod (w x : Z) :
  0 < w -> (Int.signed w x) mod 2 ^ w = x mod 2 ^ w.
Proof.
  intros Hw. unfold Int.signed.
  assert (Hm : 0 < 2 ^ w) by (apply Z.pow_pos_nonneg; lia).
  destruct (x mod 2 ^ w <? 2 ^ (w - 1)).
  - apply Z.mod_mod. lia.
  - replace (x mod 2 ^ w - 2 ^ w) with (x mod 2 ^ w + (-1) * 2 ^ w) by lia.
    rewrite Z.mod_add by lia. apply Z.mod_mod. lia.
Qed.


Lemma signed_range (w x : Z) :
  0 < w -> - 2 ^ (w - 1) <= Int.signed w x < 2 ^ (w - 1).
Proof.
  intros Hw. unfold Int.signed.
  assert (Hm : 0 < 2 ^ (w - 1)) by (apply Z.pow_pos_nonneg; lia).
  assert (Hd : 2 ^ w = 2 * 2 ^ (w - 1)).
  { replace w with (Z.succ (w - 1)) at 1 by lia. apply Z.pow_succ_r. lia. }
  pose proof (Z.mod_pos_bound x (2 ^ w) ltac:(lia)) as Hb.
  destruct (Z.ltb_spec (x mod 2 ^ w) (2 ^ (w - 1))); lia.
Qed.


Lemma signed_of_small (w x : Z) :
  0 < w -> - 2 ^ (w - 1) <= x < 2 ^ (w - 1) -> Int.signed w x = x.
Proof.
  intros Hw Hx. unfold Int.signed.
  assert (Hm : 0 < 2 ^ (w - 1)) by (apply Z.pow_pos_nonneg; lia).
  assert (Hd : 2 ^ w = 2 * 2 ^ (w - 1)).
  { replace w with (Z.succ (w - 1)) at 1 by lia. apply Z.pow_succ_r. lia. }
  destruct (Z_lt_le_dec x 0) as [Hn | Hp].
  - replace (x mod 2 ^ w) with (x + 2 ^ w)
      by (apply Z.mod_unique with (q := -1); lia).
    destruct (Z.ltb_spec (x + 2 ^ w) (2 ^ (w - 1))); lia.
  - rewrite Z.mod_small by lia.
    destruct (Z.ltb_spec x (2 ^ (w - 1))); lia.
Qed.


Lemma signed_unsigned (w v x : Z) :
  0 < w -> w <= v -> Int.signed w (Int.unsigned v x) = Int.signed w x.
Proof.
  intros Hw Hv. unfold Int.signed, Int.unsigned.
  rewrite Z.mod_mod_divide; [reflexivity|].
  exists (2 ^ (v - w)). rewrite <- Z.pow_add_r by lia. f_equal. lia.
Qed.


Lemma signed_signed (w x : Z) :
  0 < w -> Int.signed w (Int.signed w x) = Int.signed w x.
Proof. intros Hw. apply signed_of_small; [exact Hw | now apply signed_range]. Qed.


Lemma popInt_pushInt (t : Thread) (v : Z) :
  0 <= sp t -> sp t + 1 < 2 ^ 32 ->
  fst (popInt (pushInt K t v)) = Int.u32 v /\
  sp (snd (popInt (pushInt K t v))) = sp t.
Proof.
  intros H1 H2. unfold popInt, pushInt.
  cbn [fst snd sp stack set_sp set_stack].
  rewrite (u32_small (sp t + 1)) by lia.
  replace (sp t + 1 - 1) with (sp t) by lia.
  rewrite (u32_small (sp t)) by lia.
  rewrite poke_same, u32_idempotent. auto.
Qed.

Lemma intBinary_result (op : Z -> Z -> Z) (t : Thread) (a b : Z) :
  0 <= sp t -> sp t + 2 < 2 ^ 32 ->
  let u := pushInt K (pushInt K t a) b in
  fst (popInt (fst (intBinary K op u))) = Int.u32 (op (Int.s32 a) (Int.s32 b)) /\
  sp (fst (intBinary K op u)) = sp t + 1.
Proof.
  intros H1 H2 u. subst u. unfold intBinary.
  assert (Hs1 : sp (pushInt K t a) = sp t + 1)
    by (unfold pushInt; cbn [sp set_sp]; apply u32_small; lia).
  destruct (popInt_pushInt (pushInt K t a) b ltac:(lia) ltac:(lia)) as (Hb & Hspb).
  destruct (popInt (pushInt K (pushInt K t a) b)) as [b0 t1] eqn:E1.
  cbn [fst snd] in Hb, Hspb.
  assert (Hst1 : stack t1 = stack (pushInt K (pushInt K t a) b))
    by (unfold popInt in E1; inversion E1; reflexivity).
  destruct (popInt t1) as [a0 t2] eqn:E2.
  assert (Ha : a0 = Int.u32 a /\ sp t2 = sp t).
  { unfold popInt in E2. inversion E2. cbn [sp set_sp].
    rewrite Hspb, Hs1, Hst1.
    replace (sp t + 1 - 1) with (sp t) by lia.
    rewrite (u32_small (sp t)) by lia.
    split; [|reflexivity].
    unfold pushInt. cbn [stack sp set_sp set_stack].
    rewrite (u32_small (sp t + 1)) by lia.
    rewrite !poke_other by lia. rewrite poke_same. apply u32_idempotent. }
  destruct Ha as (-> & Hsp2). subst b0.
  change Int.s32 with (Int.signed 32). change Int.u32 with (Int.unsigned 32).
  rewrite !signed_unsigned by lia.
  cbn [fst]. split.
  - apply popInt_pushInt; lia.
  - unfold pushInt. cbn [sp set_sp]. rewrite Hsp2.
    apply u32_small. lia.
Qed.

Lemma u32_opp (a : Z) : Int.u32 (- Int.u32 a) = Int.u32 (- a).
Proof.
  unfold Int.u32, Int.unsigned.
  rewrite <- (Z.sub_0_l (a mod 2 ^ 32)), <- (Z.sub_0_l a).
  rewrite Zminus_mod_idemp_r. reflexivity.
Qed.

(** X23 — iadd, isub, imul and ineg compute modulo 2^32: after
    [pushInt a; pushInt b] the opcode leaves one slot whose value is the
    32-bit pattern of [a + b], [a - b] or [a * b], and ineg that of [- a]. *)
Theorem int_arithmetic_wraps_at_32_bits (t : Thread) (a b : Z) :
  0 <= sp t -> sp t + 2 < 2 ^ 32 ->
  let u := pushInt K (pushInt K t a) b in
  fst (popInt (fst (iadd K u))) = Int.u32 (a + b) /\
  fst (popInt (fst (isub K u))) = Int.u32 (a - b) /\
  fst (popInt (fst (imul K u))) = Int.u32 (a * b) /\
  fst (popInt (fst (ineg K (pushInt K t a)))) = Int.u32 (- a) /\
  sp (fst (iadd K u)) = sp t + 1 /\
  sp (fst (isub K u)) = sp t + 1 /\
  sp (fst (imul K u)) = sp t + 1.
Proof.
  intros H1 H2 u.
  destruct (intBinary_result Z.add t a b H1 H2) as (Hadd & Hadd').
  destruct (intBinary_result Z.sub t a b H1 H2) as (Hsub & Hsub').
  destruct (intBinary_result Z.mul t a b H1 H2) as (Hmul & Hmul').
  fold u in Hadd, Hadd', Hsub, Hsub', Hmul, Hmul'.
  assert (Hm : forall x, Int.s32 x mod 2 ^ 32 = x mod 2 ^ 32)
    by (intros x; apply signed_mod; lia).
  unfold iadd, isub, imul.
  split; [|split; [|split; [|split; [|split; [|split]]]]];
    try assumption.
  - rewrite Hadd. unfold Int.u32, Int.unsigned.
    rewrite Zplus_mod, !Hm, <- Zplus_mod. reflexivity.
  - rewrite Hsub. unfold Int.u32, Int.unsigned.
    rewrite Zminus_mod, !Hm, <- Zminus_mod. reflexivity.
  - rewrite Hmul. unfold Int.u32, Int.unsigned.
    rewrite Zmult_mod, !Hm, <- Zmult_mod. reflexivity.
  - unfold ineg.
    destruct (popInt_pushInt t a H1 ltac:(lia)) as (Hv & Hsp).
    destruct (popInt (pushInt K t a)) as [v t1]. cbn [fst snd] in *. subst v.
    destruct (popInt_pushInt t1 (Int.u32 (- Int.u32 a)) ltac:(lia) ltac:(lia))
      as (Hr & _).
    rewrite Hr, u32_idempotent. apply u32_opp.
Qed.

Lemma intUnary_result (f : Z -> Z) (t : Thread) :
  1 <= sp t < 2 ^ 32 ->
  let r := pushInt K (snd (popInt t)) (f (fst (popInt t))) in
  sp r = sp t /\
  peekInt r (sp t - 1) = Int.u32 (f (peekInt t (sp t - 1))).
Proof.
  intros Hsp r. subst r. unfold popInt, pushInt, peekInt.
  cbn [fst snd sp stack set_sp set_stack].
  rewrite (u32_small (sp t - 1)) by lia.
  replace (sp t - 1 + 1) with (sp t) by lia.
  rewrite poke_same, u32_idempotent.
  split; [apply u32_small; lia | reflexivity].
Qed.

(** X24 — i2b and i2s sign-extend the low 8 and 16 bits of the top int and
    i2c zero-extends the low 16; each leaves [sp] alone and applied twice
    gives what it gives once. *)
Theorem int_conversions_are_idempotent (t : Thread) :
  1 <= sp t < 2 ^ 32 ->
  let x := peekInt t (sp t - 1) in
  let top (r : Thread * Next) := peekInt (fst r) (sp t - 1) in
  top (i2b K t) = Int.u32 (Int.s8 x) /\
  top (i2s K t) = Int.u32 (Int.s16 x) /\
  top (i2c K t) = Int.u16 x /\
  Int.s32 (top (i2b K t)) = Int.s8 x /\
  Int.s32 (top (i2s K t)) = Int.s16 x /\
  top (i2b K (fst (i2b K t))) = top (i2b K t) /\
  top (i2s K (fst (i2s K t))) = top (i2s K t) /\
  top (i2c K (fst (i2c K t))) = top (i2c K t) /\
  sp (fst (i2b K t)) = sp t /\ sp (fst (i2s K t)) = sp t /\
  sp (fst (i2c K t)) = sp t.
Proof.
  intros Hsp x top.
  destruct (intUnary_result Int.s8 t Hsp) as (Hsb & Hb).
  destruct (intUnary_result Int.s16 t Hsp) as (Hss & Hs).
  destruct (intUnary_result Int.u16 t Hsp) as (Hsc & Hc).
  cbv zeta in *. fold x in Hb, Hs, Hc.
  change (pushInt K (snd (popInt t)) (Int.s8 (fst (popInt t))))
    with (fst (i2b K t)) in *.
  change (pushInt K (snd (popInt t)) (Int.s16 (fst (popInt t))))
    with (fst (i2s K t)) in *.
  change (pushInt K (snd (popInt t)) (Int.u16 (fst (popInt t))))
    with (fst (i2c K t)) in *.
  assert (Hc' : peekInt (fst (i2c K t)) (sp t - 1) = Int.u16 x).
  { rewrite Hc. apply u32_small. pose proof (u16_range x) as Hr.
    change (2 ^ 16) with 65536 in Hr. change (2 ^ 32) with 4294967296. lia. }
  assert (Hsp' : forall r : Thread, sp r = sp t -> 1 <= sp r < 2 ^ 32)
    by (intros r ->; exact Hsp).
  destruct (intUnary_result Int.s8 (fst (i2b K t)) (Hsp' _ Hsb)) as (_ & Hb2).
  destruct (intUnary_result Int.s16 (fst (i2s K t)) (Hsp' _ Hss)) as (_ & Hs2).
  destruct (intUnary_result Int.u16 (fst (i2c K t)) (Hsp' _ Hsc)) as (_ & Hc2).
  cbv zeta in *. rewrite Hsb in Hb2. rewrite Hss in Hs2. rewrite Hsc in Hc2.
  change (pushInt K (snd (popInt (fst (i2b K t))))
                  (Int.s8 (fst (popInt (fst (i2b K t))))))
    with (fst (i2b K (fst (i2b K t)))) in *.
  change (pushInt K (snd (popInt (fst (i2s K t))))
                  (Int.s16 (fst (popInt (fst (i2s K t))))))
    with (fst (i2s K (fst (i2s K t)))) in *.
  change (pushInt K (snd (popInt (fst (i2c K t))))
                  (Int.u16 (fst (popInt (fst (i2c K t))))))
    with (fst (i2c K (fst (i2c K t)))) in *.
  subst top. cbv beta.
  split; [exact Hb|]. split; [exact Hs|]. split; [exact Hc'|].
  split; [|split; [|split; [|split; [|split; [|auto]]]]].
  - rewrite Hb. change Int.s32 with (Int.signed 32).
    change Int.u32 with (Int.unsigned 32).
    rewrite signed_unsigned by lia. apply signed_of_small; [lia|].
    pose proof (signed_range 8 x ltac:(lia)) as Hr. fold Int.s8 in Hr.
    change (2 ^ (8 - 1)) with 128 in Hr.
    change (2 ^ (32 - 1)) with 2147483648. lia.
  - rewrite Hs. change Int.s32 with (Int.signed 32).
    change Int.u32 with (Int.unsigned 32).
    rewrite signed_unsigned by lia. apply signed_of_small; [lia|].
    pose proof (signed_range 16 x ltac:(lia)) as Hr. fold Int.s16 in Hr.
    change (2 ^ (16 - 1)) with 32768 in Hr.
    change (2 ^ (32 - 1)) with 2147483648. lia.
  - rewrite Hb2, Hb. f_equal.
    change Int.s8 with (Int.signed 8). change Int.u32 with (Int.unsigned 32).
    rewrite signed_unsigned by lia. apply signed_signed. lia.
  - rewrite Hs2, Hs. f_equal.
    change Int.s16 with (Int.signed 16). change Int.u32 with (Int.unsigned 32).
    rewrite signed_unsigned by lia. apply signed_signed. lia.
  - rewrite Hc2, Hc'.
    replace (Int.u16 (Int.u16 x)) with (Int.u16 x)
      by (unfold Int.u16, Int.unsigned; symmetry; apply Z.mod_mod; lia).
    apply u32_small. pose proof (u16_range x) as Hr.
    change (2 ^ 16) with 65536 in Hr. change (2 ^ 32) with 4294967296. lia.
Qed.

End Opcodes.

(** ** The weak-reference registry *)

Section Registry.

(** Registering [r] leaves the chain from any object that does not reach
    [r] as it was. *)
Lemma weakChainFrom_register (w : References) (r : object) :
  forall (fuel : nat) (o : object) (l : list object),
    weakChainFrom fuel w o = Some l -> ~ In r l ->
    weakChainFrom fuel (registerWeakReference w r) o = Some l.
Proof.
  induction fuel as [| fuel IH]; intros o l; cbn [weakChainFrom];
    [discriminate|].
  destruct (Z.eqb_spec o 0) as [_ | Ho]; [auto|].
  destruct (weakChainFrom fuel w (jreferenceNext w o)) as [l'|] eqn:E;
    [|discriminate].
  intros H Hin. injection H as <-.
  cbn [registerWeakReference jreferenceNext].
  destruct (Z.eqb_spec o r) as [-> | _].
  - exfalso. apply Hin. left. reflexivity.
  - rewrite (IH _ l' E); [reflexivity|].
    intros Hr. apply Hin. right. exact Hr.
Qed.

(** X28 — registering a weak reference puts it at the head of the
    registry: for a non-null [r] that is not registered yet, the chain read
    from [vm->weakReferences] afterwards is [r] followed by the chain as it
    was, in the same order. *)
Theorem registerWeakReference_prepends
        (fuel : nat) (w : References) (r : object) (l : list object) :
  r <> 0 ->
  weakChain fuel w = Some l ->
  ~ In r l ->
  weakChain (S fuel) (registerWeakReference w r) = Some (r :: l).
Proof.
  intros Hr Hchain Hfresh. unfold weakChain in *.
  cbn [weakChainFrom registerWeakReference weakReferences jreferenceNext].
  destruct (Z.eqb_spec r 0) as [? | _]; [contradiction|].
  rewrite Z.eqb_refl.
  change (weakChainFrom fuel _ (weakReferences w))
    with (weakChainFrom fuel (registerWeakReference w r) (weakReferences w)).
  rewrite (weakChainFrom_register w r fuel _ l Hchain Hfresh). reflexivity.
Qed.

End Registry.

(** ** The further properties on the concrete machines *)

Module Instances.
Import Demo Demo2.

Ltac evaluate := vm_compute; repeat split; first [reflexivity | discriminate].

Lemma instanceOf_superclass_witness :
  instanceOf K0 M0 3 heap0 objectClass_ receiver = Some true.
Proof.
  apply (instanceOf_walks_the_superclasses K0 M0 3 heap0 objectClass_ receiver).
  - vm_compute; discriminate.
  - reflexivity.
  - exists 1%nat. split; [lia|]. split; [|reflexivity].
    intros [| [| k]] Hk; [vm_compute; discriminate | vm_compute; discriminate | lia].
Defined.

Lemma instanceOf_interface_witness :
  instanceOf K0 M1 3 heap1 shape subInstance = Some true.
Proof.
  apply (instanceOf_scans_the_interface_tables K0 M1 3 heap1 shape subInstance).
  - vm_compute; discriminate.
  - reflexivity.
  - intros [| [| [| k]]] Hk _;
      [vm_compute; discriminate | vm_compute; discriminate
       | vm_compute; discriminate | lia].
  - exists 1%nat. split; [lia|]. split.
    + intros [| [| k]] Hk; [vm_compute; discriminate | vm_compute; discriminate | lia].
    + exists 1. split; [lia|]. split; reflexivity.
Defined.

Lemma instanceOf_returns_witness :
  exists b, instanceOf K0 M1 3 heap1 shape thrown = Some b /\
            instanceOf K0 M1 7 heap1 shape thrown = Some b.
Proof.
  apply (instanceOf_returns_on_a_finite_chain K0 M1 2 3 7 heap1 shape thrown).
  - reflexivity.
  - lia.
  - lia.
  - intros _ [| [| k]] Hk _;
      [vm_compute; discriminate | vm_compute; discriminate | lia].
Defined.

Lemma isSuperclass_witness :
  isSuperclass M1 3 objectClass_ subClass = Some true /\
  instanceOf K0 M1 4 heap1 objectClass_ subInstance = Some true.
Proof.
  destruct (isSuperclass_is_strict_instanceOf
              K0 M1 3 heap1 objectClass_ subClass subInstance)
    as (Hiff & Hinst).
  - vm_compute; discriminate.
  - reflexivity.
  - vm_compute; discriminate.
  - reflexivity.
  - assert (Hsuper : isSuperclass M1 3 objectClass_ subClass = Some true).
    { apply Hiff. exists 1%nat. split; [lia|]. split; [|reflexivity].
      intros [| [| k]] Hk;
        [vm_compute; discriminate | vm_compute; discriminate | lia]. }
    split; [exact Hsuper | exact (Hinst Hsuper)].
Defined.

Lemma find_first_witness :
  find M1 heap1 mainMethods fieldRef (methodName M1) (methodSpec M1)
  = syncMethod.
Proof.
  apply (find_returns_the_first_match
           M1 heap1 mainMethods fieldRef (methodName M1) (methodSpec M1) 1).
  - change (arrayLength M1 mainMethods) with 2. lia.
  - reflexivity.
  - intros j' Hj'. replace j' with 0 by lia. reflexivity.
Defined.

Lemma find_null_witness :
  find M1 heap1 initOnly fieldRef (methodName M1) (methodSpec M1) = 0.
Proof.
  apply (find_returns_null_without_a_match
           M1 heap1 initOnly fieldRef (methodName M1) (methodSpec M1)).
  intros j Hj. change (arrayLength M1 initOnly) with 1 in Hj.
  replace j with 0 by lia. reflexivity.
Defined.

Lemma findInterfaceMethod_witness :
  findInterfaceMethod M1 X0 heap1 areaMethod receiver = Some syncMethod.
Proof.
  apply (findInterfaceMethod_uses_the_first_pair
           M1 X0 heap1 areaMethod receiver 1).
  - lia.
  - reflexivity.
  - reflexivity.
  - intros k' Hk'. replace k' with 0 by lia. vm_compute. discriminate.
Defined.

Lemma findInterfaceMethod_abort_witness :
  findInterfaceMethod M1 X0 heap1 areaMethod subInstance = None /\
  instanceOf K0 M1 3 heap1 shape subInstance = Some true.
Proof.
  split; [|reflexivity].
  apply (findInterfaceMethod_aborts_without_the_interface
           M1 X0 heap1 areaMethod subInstance).
  - vm_compute; discriminate.
  - intros k Hk Hlt. change (arrayLength M1 _) with 0 in Hlt. lia.
Defined.

Lemma pushFrame_layout_witness :
  frame (pushFrame K0 M0 calling syncMethod) = 7 /\
  sp (pushFrame K0 M0 calling syncMethod) = 11 /\
  frameBase K0 (pushFrame K0 M0 calling syncMethod) 7 = 6 /\
  frameMethod K0 (pushFrame K0 M0 calling syncMethod) 7 = syncMethod /\
  frameNext K0 (pushFrame K0 M0 calling syncMethod) 7 = 2.
Proof.
  destruct (pushFrame_lays_out_the_frame K0 M0 calling syncMethod)
    as (Hf & Hsp & _ & _ & Hb & Hm & Hn & _).
  - evaluate.
  - reflexivity.
  - evaluate.
  - evaluate.
  - evaluate.
  - evaluate.
  - split; [exact Hf|]. split; [exact Hsp|]. split; [exact Hb|].
    split; [exact Hm | exact Hn].
Defined.

Lemma pushFrame_locals_witness :
  stack (pushFrame K0 M0 rootCall callerMethod) 2 = 0 /\
  stack (pushFrame K0 M0 rootCall callerMethod) 3 = 0 /\
  stack (pushFrame K0 M0 rootCall callerMethod) 1 = stack rootCall 1 /\
  stack rootCall 1 = receiver.
Proof.
  destruct (pushFrame_prepares_the_locals K0 M0 rootCall callerMethod)
    as (Hzero & Hargs).
  - evaluate.
  - reflexivity.
  - evaluate.
  - evaluate.
  - evaluate.
  - left. evaluate.
  - assert (Hin : methodParameterFootprint M0 callerMethod <= 1
                  < codeMaxLocals M0 (methodCode M0 callerMethod))
      by evaluate.
    assert (Harg : 0 <= 0 < methodParameterFootprint M0 callerMethod)
      by evaluate.
    destruct (Hzero 1 Hin) as (Htag & Hval).
    destruct (Hargs 0 Harg) as (_ & Hobj).
    split; [exact Htag|]. split; [exact Hval|]. split; [exact Hobj|].
    reflexivity.
Defined.

Lemma popFrame_pushFrame_witness :
  sp (popFrame K0 M0 (pushFrame K0 M0 calling syncMethod)) = 6 /\
  frame (popFrame K0 M0 (pushFrame K0 M0 calling syncMethod)) = 2 /\
  code (popFrame K0 M0 (pushFrame K0 M0 calling syncMethod)) = callerCode /\
  ip (popFrame K0 M0 (pushFrame K0 M0 calling syncMethod)) = 9.
Proof.
  destruct (popFrame_undoes_pushFrame K0 M0 calling syncMethod)
    as (Hsp & Hf & Hcaller & _).
  - evaluate.
  - reflexivity.
  - evaluate.
  - evaluate.
  - evaluate.
  - evaluate.
  - right. evaluate.
  - evaluate.
  - assert (Hpos : 0 <= frame calling) by evaluate.
    destruct (Hcaller Hpos) as (Hcode & Hip).
    split; [exact Hsp|]. split; [exact Hf|]. split; [exact Hcode | exact Hip].
Defined.

Lemma ireturn_caller_witness :
  exists t',
    ireturn K0 M0 returning = (t', Loop) /\
    sp t' = 7 /\ peekInt t' 6 = 42 /\ frame t' = 2 /\ ip t' = 9 /\
    code t' = callerCode.
Proof.
  destruct (ireturn_hands_the_result_to_the_caller
              K0 M0 calling syncMethod returning)
    as (t' & Hret & Hsp & Hpeek & Hf & Hip & Hcode & _).
  - evaluate.
  - reflexivity.
  - evaluate.
  - evaluate.
  - evaluate.
  - evaluate.
  - evaluate.
  - evaluate.
  - reflexivity.
  - intros j Hj. assert (Hj' : j < 22) by exact Hj.
    unfold returning, pushInt. cbn [stack set_sp set_stack].
    change (sp inSynchronized) with 11.
    rewrite !poke_other by lia. reflexivity.
  - evaluate.
  - exists t'. split; [exact Hret|]. split; [exact Hsp|].
    split; [exact Hpeek|]. split; [exact Hf|]. split; [exact Hip | exact Hcode].
Defined.


Lemma invoke_stack_witness :
  invoke K0 M0 X0 invoking = (pushFrame K0 M0 invoking syncMethod, Loop) /\
  invoke K0 M0 X0tight invoking = (set_exception invoking overflowError, Throw).
Proof.
  destruct (invoke_checks_the_stack K0 M0 X0 invoking) as ((Hfits & _) & _);
    [evaluate | reflexivity | evaluate | evaluate | evaluate | evaluate
     | evaluate | evaluate | evaluate |].
  destruct (invoke_checks_the_stack K0 M0 X0tight invoking) as (_ & Hover);
    [evaluate | reflexivity | evaluate | evaluate | evaluate | evaluate
     | evaluate | evaluate |].
  split; [exact Hfits|]. apply Hover. evaluate.
Defined.

Lemma balanced_witness :
  monitorCount (vm (pushFrame K0 M0 calling syncMethod)) receiver = 1 /\
  monitorCount (vm (popFrame K0 M0 (pushFrame K0 M0 calling syncMethod)))
               receiver
  = monitorCount (vm calling) receiver.
Proof.
  split; [reflexivity|].
  apply (pushFrame_popFrame_balanced K0 M0 calling syncMethod).
  - evaluate.
  - evaluate.
Defined.

Lemma resolve_nearest_witness :
  exists t',
    resolve K0 M1 3 idle1 subPool 0 (findFieldInClass M1)
            (makeNoSuchFieldError M1)
    = Some (fieldX, t') /\
    arrayBody (vm t') subPool 0 = fieldX /\
    exception t' = 0 /\
    findFieldInClass M1 heap1 subClass subFieldRef = 0.
Proof.
  destruct (resolve_takes_the_nearest_member
              K0 M1 3 idle1 subPool 0 (findFieldInClass M1)
              (makeNoSuchFieldError M1) subClass
              (snd (resolveClass_container K0 M1 idle1 subFieldRef))
              1%nat fieldX)
    as (t' & Hres & Hslot & Hexc).
  - reflexivity.
  - vm_compute; reflexivity.
  - reflexivity.
  - intros [| [| k]] Hk;
      [vm_compute; discriminate | vm_compute; discriminate | lia].
  - intros k Hk. replace k with 0%nat by lia. reflexivity.
  - reflexivity.
  - vm_compute; discriminate.
  - lia.
  - exists t'. split; [exact Hres|]. split; [exact Hslot|].
    split; [exact Hexc | reflexivity].
Defined.

Lemma resolve_miss_witness :
  exists t',
    resolve K0 M1 4 idle1 subPool 1 (findMethodInClass M1)
            (makeNoSuchMethodError M1)
    = Some (0, t') /\
    exception t' = 98 /\
    arrayBody (vm t') subPool 1 = 0 /\
    arrayBody (vm idle1) subPool 1 = subMethodRef.
Proof.
  destruct (resolve_miss_clears_the_slot
              K0 M1 4 idle1 subPool 1 (findMethodInClass M1)
              (makeNoSuchMethodError M1) subClass
              (snd (resolveClass_container K0 M1 idle1 subMethodRef))
              3%nat)
    as (t' & Hres & Hexc & Hslot).
  - reflexivity.
  - vm_compute; reflexivity.
  - reflexivity.
  - intros [| [| [| k]]] Hk;
      [vm_compute; discriminate | vm_compute; discriminate
       | vm_compute; discriminate | lia].
  - reflexivity.
  - intros [| [| [| k]]] Hk; [reflexivity | reflexivity | reflexivity | lia].
  - lia.
  - exists t'. split; [exact Hres|]. split; [exact Hexc|].
    split; [exact Hslot | reflexivity].
Defined.

Lemma resolveClass_failure_witness :
  resolveClass K0 M0 inCaller callerPool 3 = (0, set_exception inCaller linkError) /\
  resolveClass K0 M0 (set_exception inCaller 0) callerPool 3
  = (0, set_exception (set_exception inCaller 0) linkError).
Proof.
  destruct (resolveClass_failure_is_not_memoized K0 M0 inCaller callerPool 3
                                                 linkError)
    as (Hfirst & Hlater).
  - reflexivity.
  - reflexivity.
  - vm_compute; discriminate.
  - split; [exact Hfirst|]. apply Hlater. reflexivity.
Defined.

Lemma uncaught_witness :
  throw_ K0 M0 3 3 uncaught = Some (uncaughtAtRoot, Return 0) /\
  exception uncaughtAtRoot = receiver /\
  frame uncaughtAtRoot = -1.
Proof.
  assert (Hrej : forall j, 0 <= j < 3 ->
            handlerRejects K0 M0 3 (visit K0 M0 uncaughtAtCaller)
                           callerHandlers j).
  { intros j Hj. assert (Hcase : j = 0 \/ j = 1 \/ j = 2) by lia.
    destruct Hcase as [-> | [-> | ->]].
    - left. vm_compute. intros [H _]. apply H. reflexivity.
    - right. split; [vm_compute; discriminate | vm_compute; reflexivity].
    - right. split; [vm_compute; discriminate | vm_compute; reflexivity]. }
  assert (Hwalk : Walk K0 M0 3 uncaughtSaved uncaughtAtRoot 2).
  { apply Walk_next.
    - split; [vm_compute; discriminate|]. split; [reflexivity|].
      left. reflexivity.
    - apply Walk_next; [|apply Walk_here].
      split; [vm_compute; discriminate|]. split; [reflexivity|].
      right. exact Hrej. }
  destruct (throw_leaves_an_uncaught_exception_pending
              K0 M0 3 2 3 uncaught uncaughtAtRoot)
    as (Hthrow & Hexc & _).
  - exact Hwalk.
  - vm_compute; reflexivity.
  - lia.
  - split; [exact Hthrow|]. split; [exact Hexc | reflexivity].
Defined.

Lemma native_frame_witness :
  throw_ K0 M1 1 3 nativeThrowing = Some (nativeSaved, Return 0) /\
  exception nativeSaved = thrown /\
  frame nativeSaved = 7.
Proof.
  destruct (throw_stops_at_a_native_frame K0 M1 3 0 1 nativeThrowing nativeSaved)
    as (Hthrow & Hexc).
  - apply Walk_here.
  - vm_compute; discriminate.
  - reflexivity.
  - lia.
  - split; [exact Hthrow|]. split; [exact Hexc | reflexivity].
Defined.

Lemma throw_monitor_witness :
  match throw_ K0 M0 2 3 throwing with
  | Some (t', _) =>
    monitorCount (vm t') receiver = monitorCount (vm throwing) receiver /\
    monitorCount (vm throwing) receiver = 1 /\
    frame t' = 2
  | None => False
  end.
Proof.
  destruct (throw_ K0 M0 2 3 throwing) as [[t' next]|] eqn:E.
  - split.
    + rewrite (throw_releases_nothing K0 M0 2 3 throwing t' next E).
      reflexivity.
    + split; [reflexivity|].
      vm_compute in E. injection E as <- _. reflexivity.
  - vm_compute in E. discriminate.
Defined.

Lemma branch_witness :
  ip (fst (goto_ M1 (branching 0))) = 5 /\
  ip (fst (jsr K0 M1 (branching 3))) = 0 /\
  peekInt (fst (jsr K0 M1 (branching 3))) 2 = 6.
Proof.
  destruct (goto_and_jsr_branch_from_the_opcode K0 M1 (branching 0))
    as (Hgoto & _); [evaluate | evaluate |].
  destruct (goto_and_jsr_branch_from_the_opcode K0 M1 (branching 3))
    as (_ & Hjsr & Hpush & _); [evaluate | evaluate |].
  split; [exact Hgoto|]. split; [exact Hjsr | exact Hpush].
Defined.

Lemma if_icmp_witness :
  ip (fst (if_icmplt M1 (branching 6))) = 14 /\
  ip (fst (if_icmpeq M1 (branching 6))) = 9 /\
  sp (fst (if_icmplt M1 (branching 6))) = 0.
Proof.
  destruct (if_icmp_branches_compare_signed M1 (branching 6))
    as (Heq & _ & Hlt & _ & _ & _ & _ & _ & Hsp & _);
    [evaluate | evaluate | evaluate |].
  split; [exact Hlt|]. split; [exact Heq | exact Hsp].
Defined.

Lemma arithmetic_witness :
  fst (popInt (fst (iadd K0 (pushInt K0 (pushInt K0 idle 2147483647) 1))))
  = 2147483648 /\
  fst (popInt (fst (isub K0 (pushInt K0 (pushInt K0 idle 2147483647) 1))))
  = 2147483646 /\
  fst (popInt (fst (ineg K0 (pushInt K0 idle 2147483647)))) = 2147483649.
Proof.
  destruct (int_arithmetic_wraps_at_32_bits K0 idle 2147483647 1)
    as (Hadd & Hsub & _ & Hneg & _); [evaluate | evaluate |].
  split; [exact Hadd|]. split; [exact Hsub | exact Hneg].
Defined.

Lemma conversion_witness :
  peekInt (fst (i2b K0 (pushInt K0 idle 200))) 0 = 4294967240 /\
  Int.s32 (peekInt (fst (i2b K0 (pushInt K0 idle 200))) 0) = -56 /\
  peekInt (fst (i2c K0 (pushInt K0 idle 200))) 0 = 200.
Proof.
  destruct (int_conversions_are_idempotent K0 (pushInt K0 idle 200))
    as (Hb & _ & Hc & Hsb & _); [evaluate|].
  split; [exact Hb|]. split; [exact Hsb | exact Hc].
Defined.

Lemma swap_witness :
  slot (stack (fst (swap operands))) 1 = slot (stack operands) 0 /\
  slot (stack (fst (swap operands))) 0 = slot (stack operands) 1 /\
  slot (stack operands) 1 = (0, 7).
Proof.
  destruct (swap_exchanges_the_top_slots operands) as (Htop & Hbelow & _);
    [evaluate|].
  split; [exact Htop|]. split; [exact Hbelow | reflexivity].
Defined.

Lemma dup_witness :
  slot (stack (fst (dup fourInts))) 4 = (0, 4) /\
  slot (stack (fst (dup_x1 fourInts))) 2 = (0, 4) /\
  slot (stack (fst (dup_x2 fourInts))) 1 = (0, 4) /\
  slot (stack (fst (dup2_x1 fourInts))) 1 = (0, 3) /\
  slot (stack (fst (dup2_x2 fourInts))) 0 = (0, 3).
Proof.
  destruct (dup_forms_arrange_the_slots fourInts)
    as (Hdup & Hx1 & Hx2 & H2x1 & H2x2); [evaluate|].
  destruct Hdup as (_ & Hd & _); [evaluate|].
  destruct Hx1 as (_ & _ & _ & Hd1); [evaluate|].
  destruct Hx2 as (_ & _ & _ & _ & Hd2); [evaluate|].
  destruct H2x1 as (_ & _ & _ & _ & _ & Hd3); [evaluate|].
  destruct H2x2 as (_ & _ & _ & _ & _ & _ & Hd4); [evaluate|].
  split; [exact Hd|]. split; [exact Hd1|]. split; [exact Hd2|].
  split; [exact Hd3 | exact Hd4].
Defined.

Lemma dup2_witness :
  sp (fst (dup2 operands)) = 4 /\
  slot (stack (fst (dup2 operands))) 3 = (0, 5) /\
  slot (stack (fst (dup2 operands))) 4 = (0, 7) /\
  slot (stack (fst (dup2 operands))) 2 = slot (stack operands) 2.
Proof.
  destruct (dup2_copies_past_the_top operands) as (Hsp & Hlow & Hhigh & Hrest);
    [evaluate | evaluate |].
  split; [exact Hsp|]. split; [exact Hlow|]. split; [exact Hhigh|].
  apply Hrest; evaluate.
Defined.

Lemma registry_witness :
  weakChain 3 (registerWeakReference oneReference 7) = Some [7; 5].
Proof.
  apply (registerWeakReference_prepends 2 oneReference 7 [5]).
  - discriminate.
  - reflexivity.
  - intros [H | []]. discriminate H.
Defined.

End Instances.
